(** * plot.py: smoothing, alignment and aggregation of learning curves

    A shallow embedding of the numeric core of [plot.py]
    ([smooth_reward_curve], [pad], [load_csv_runs], [plot_with_iqr], the loop
    of [main] over the groups) and of the numpy routines it calls, followed
    by the properties of the specification that were checked against it and
    by further properties of the code.

    Numbers.  The code is embedded twice, with two readings of a numpy
    float.

    - [val], exact arithmetic: an exact rational or the not-a-number value.
      There is no rounding, no overflow and no infinity, and [NaN] is
      absorbing.  The general theorems are stated over this reading.  Those
      about lengths, shapes, indices and exceptions do not depend on the
      reading of the numbers; those about computed values hold in exact
      arithmetic and say so.

    - [F64.float], binary64: the IEEE 754 double precision numbers of the
      standard library's [SpecFloat], with both infinities, signed zeros and
      rounding to nearest even.  The module [F64] repeats the code over it,
      definition by definition.  It is used where the result of the program
      depends on rounding or on an infinity, which the exact reading cannot
      show.

    Rendering.  [plt.plot] and [plt.fill_between] are modelled as far as
    they can refuse their arguments, which depends on the shapes only
    ([Plt]); what they draw is represented by the curve that is returned. *)

From Stdlib Require Import List ZArith QArith Qcanon Qround Lia Bool Arith.
From Stdlib Require Import Permutation Sorted Lqa.
From Stdlib Require SpecFloat.
From Stdlib Require String.
Import String.StringSyntax.
Delimit Scope string_scope with string.
Import ListNotations.

Close Scope Qc_scope.
Close Scope Q_scope.
Open Scope nat_scope.

Set Implicit Arguments.

(** ** Values and exceptions *)

Inductive val : Type :=
| NaN
| Num (q : Qc).

(** The Python exceptions the modelled code can raise. *)
Inductive exn : Type :=
| ValueError   (* numpy: empty reduction, negative dimension, empty convolution operand, ragged rows;
                  matplotlib: arguments whose shapes do not fit *)
| IndexError   (* indexing outside the leading axis *)
| AxisError.   (* reduction along axis 0 of a 0-d array *)

Inductive result (A : Type) : Type :=
| Ok (a : A)
| Raise (e : exn).

Arguments Ok {A} a.
Arguments Raise {A} e.

Definition bind {A B} (r : result A) (f : A -> result B) : result B :=
  match r with
  | Ok a => f a
  | Raise e => Raise e
  end.

Notation "x <- r ;; k" := (bind r (fun x => k))
  (at level 61, r at next level, right associativity).
Notation "' p <- r ;; k" := (bind r (fun x => let p := x in k))
  (at level 61, p pattern, r at next level, right associativity).

Definition of_nat (n : nat) : Qc := Q2Qc (inject_Z (Z.of_nat n)).
Definition of_Z (z : Z) : Qc := Q2Qc (inject_Z z).

(** The float of an integer literal. *)
Definition lit (z : Z) : val := Num (of_Z z).

Definition vzero : val := Num 0%Qc.
Definition vone : val := Num 1%Qc.

Definition vadd (a b : val) : val :=
  match a, b with
  | Num p, Num q => Num (p + q)%Qc
  | _, _ => NaN
  end.

Definition vsub (a b : val) : val :=
  match a, b with
  | Num p, Num q => Num (p - q)%Qc
  | _, _ => NaN
  end.

Definition vmul (a b : val) : val :=
  match a, b with
  | Num p, Num q => Num (p * q)%Qc
  | _, _ => NaN
  end.

(** Division; [0 / 0] is not-a-number as in numpy, and a non-zero value over
    zero (an infinity in numpy) is outside the modelled range. *)
Definition vdiv (a b : val) : val :=
  match a, b with
  | Num p, Num q => if Qc_eq_dec q 0 then NaN else Num (p / q)%Qc
  | _, _ => NaN
  end.

Definition isnan (v : val) : bool :=
  match v with
  | NaN => true
  | Num _ => false
  end.

(** Order used by numpy's sort and partition: not-a-number goes last. *)
Definition vleb (a b : val) : bool :=
  match a, b with
  | _, NaN => true
  | NaN, Num _ => false
  | Num p, Num q => Qle_bool (this p) (this q)
  end.

Fixpoint zip_with {A B C} (f : A -> B -> C) (l : list A) (m : list B) : list C :=
  match l, m with
  | a :: l', b :: m' => f a b :: zip_with f l' m'
  | _, _ => []
  end.

(** An n-dimensional array: its shape and its elements in row-major order. *)
Record ndarray : Type := mk_nd { shape : list nat; data : list val }.

Definition prod (s : list nat) : nat := fold_right Nat.mul 1 s.

(** A one-dimensional array holding [l]. *)
Definition arr1 (l : list val) : ndarray := mk_nd [length l] l.

(** [len(x)] and [x.shape[0]] of an array with at least one axis. *)
Definition len (x : ndarray) : nat := hd 0 (shape x).

(** ** The numpy routines used by plot.py *)

Module Np.

(** [tmp = 0; for i: tmp += u[i]], the accumulation of a dot product. *)
Definition vsum (l : list val) : val := fold_left vadd l vzero.

(** [np.ones(m)] for an integer [m]. *)
Definition ones (m : Z) : result (list val) :=
  if (m <? 0)%Z then Raise ValueError
  else Ok (repeat vone (Z.to_nat m)).

(** [np.ones_like(y)]. *)
Definition ones_like (y : list val) : list val := map (fun _ => vone) y.

(** The kernel positions [i] whose partner [a[k + i - n_left]] lies inside
    [a]: the three loops of numpy's correlation shorten the dot product to
    exactly these positions at the left and right borders. *)
Definition overlap (n1 n2 n_left k : nat) : list nat :=
  filter (fun i => (n_left <=? k + i) && (k + i - n_left <? n1)) (seq 0 n2).

(** [multiarray.correlate(a, v, mode='same')] for [len(a) >= len(v) >= 1]:
    [n_left = len(v) / 2], one output per position of [a]. *)
Definition correlate_same (a v : list val) : list val :=
  let n1 := length a in
  let n2 := length v in
  let n_left := n2 / 2 in
  map (fun k =>
         vsum (map (fun i => vmul (nth (k + i - n_left) a vzero) (nth i v vzero))
                   (overlap n1 n2 n_left k)))
      (seq 0 n1).

(** [np.convolve(a, v, mode='same')]: the operands are swapped when [v] is
    the longer one, an empty operand is refused, and the result is the
    correlation with the reversed kernel.  The output is as long as the
    longer operand. *)
Definition convolve_same (a v : list val) : result (list val) :=
  let '(a, v) := if length a <? length v then (v, a) else (a, v) in
  match a, v with
  | [], _ => Raise ValueError
  | _, [] => Raise ValueError
  | _, _ => Ok (correlate_same a (rev v))
  end.

(** [np.max] of a list of lengths: an empty list has no maximum. *)
Definition max (l : list nat) : result nat :=
  match l with
  | [] => Raise ValueError
  | _ :: _ => Ok (fold_right Nat.max 0 l)
  end.

(** [np.ones(s) * value] for a shape [s]. *)
Definition ones_times (s : list nat) (value : val) : ndarray :=
  mk_nd s (map (fun one => vmul one value) (repeat vone (prod s))).

(** [np.concatenate([x, p], axis=0)] of two arrays with the same trailing
    shape. *)
Definition concatenate (x p : ndarray) : ndarray :=
  mk_nd ((len x + len p) :: tl (shape x)) (data x ++ data p).

Definition shape_eqb (s t : list nat) : bool :=
  if list_eq_dec Nat.eq_dec s t then true else false.

(** [np.array(rows)]: rows of one shape are stacked along a new leading
    axis; rows of different shapes are refused. *)
Definition array (rows : list ndarray) : result ndarray :=
  match rows with
  | [] => Ok (mk_nd [0] [])
  | r :: _ =>
      if forallb (fun r' => shape_eqb (shape r') (shape r)) rows
      then Ok (mk_nd (length rows :: shape r) (concat (map data rows)))
      else Raise ValueError
  end.

(** [a[i]] for an integer [i]; a negative index counts from the end. *)
Definition getitem (a : ndarray) (i : Z) : result ndarray :=
  match shape a with
  | [] => Raise IndexError
  | n :: rest =>
      let i' := if (i <? 0)%Z then (i + Z.of_nat n)%Z else i in
      if ((0 <=? i') && (i' <? Z.of_nat n))%Z
      then Ok (mk_nd rest (firstn (prod rest) (skipn (Z.to_nat i' * prod rest) (data a))))
      else Raise IndexError
  end.

(** Sorting (numpy partitions around the selected positions, which puts the
    same values at those positions). *)
Fixpoint insert (v : val) (l : list val) : list val :=
  match l with
  | [] => [v]
  | w :: l' => if vleb v w then v :: l else w :: insert v l'
  end.

Fixpoint sort (l : list val) : list val :=
  match l with
  | [] => []
  | v :: l' => insert v (sort l')
  end.

Definition remove_nan (l : list val) : list val :=
  filter (fun v => negb (isnan v)) l.

Definition mean (l : list val) : val := vdiv (vsum l) (Num (of_nat (length l))).

(** [np.median] of a non-empty 1-d array: the mean of the middle element, or
    of the two middle elements when the size is even. *)
Definition median (l : list val) : val :=
  let part := sort l in
  let sz := length l in
  let index := sz / 2 in
  if Nat.odd sz
  then mean (firstn 1 (skipn index part))
  else mean (firstn 2 (skipn (index - 1) part)).

(** [_nanmedian1d]: not-a-number entries are dropped; an all-NaN slice gives
    not-a-number. *)
Definition nanmedian_1d (arr1d : list val) : val :=
  match remove_nan arr1d with
  | [] => NaN
  | (_ :: _) as parsed => median parsed
  end.

(** [_lerp(a, b, t)]. *)
Definition lerp (a b : val) (t : Qc) : val :=
  let diff_b_a := vsub b a in
  if Qle_bool (1 # 2) (this t)
  then vsub b (vmul diff_b_a (Num (1 - t)%Qc))
  else vadd a (vmul diff_b_a (Num t)).

(** [arr[i]] for a 1-d array and an index that may count from the end. *)
Definition item (arr : list val) (i : Z) : val :=
  nth (Z.to_nat (if (i <? 0)%Z then (i + Z.of_nat (length arr))%Z else i)) arr NaN.

(** [_quantile] with the default linear method, for a non-empty 1-d array
    and a quantile [0 <= q <= 1]: the virtual index is [(n - 1) * q], the
    neighbours are its floor and the next position, both replaced by [-1]
    (the last position) when the virtual index reaches [n - 1], and [gamma]
    is the virtual index minus the previous index. *)
Definition quantile (arr : list val) (q : Qc) : val :=
  let values_count := length arr in
  let virtual_index := ((of_nat values_count - 1) * q)%Qc in
  let above := Qle_bool (this (of_nat values_count - 1)%Qc) (this virtual_index) in
  let previous_index := if above then (-1)%Z else Qfloor (this virtual_index) in
  let next_index := if above then (-1)%Z else (Qfloor (this virtual_index) + 1)%Z in
  let part := sort arr in
  let gamma := (virtual_index - of_Z previous_index)%Qc in
  lerp (item part previous_index) (item part next_index) gamma.

(** [_nanquantile_1d] behind [np.nanpercentile(_, q)]. *)
Definition nanpercentile_1d (q : Qc) (arr1d : list val) : val :=
  match remove_nan arr1d with
  | [] => NaN
  | (_ :: _) as parsed => quantile parsed (q / of_nat 100)%Qc
  end.

(** The 1-d slice [a[:, p]] along axis 0, [p] a flat position in the
    trailing axes. *)
Definition slice0 (n : nat) (rest : list nat) (d : list val) (p : nat) : list val :=
  map (fun i => nth (i * prod rest + p) d NaN) (seq 0 n).

(** [np.apply_along_axis(f, 0, a)] for a reduction [f]. *)
Definition apply_along_axis0 (f : list val -> val) (a : ndarray) : result ndarray :=
  match shape a with
  | [] => Raise AxisError
  | n :: rest => Ok (mk_nd rest (map (fun p => f (slice0 n rest (data a) p)) (seq 0 (prod rest))))
  end.

(** [np.ma.median] along axis 0, for one column of the block whose
    not-a-number entries are masked: the entries that are not masked are
    sorted, [high] is the middle one and [low] the one before it (or [high]
    again for an odd count), and the median is [(low + high) / 2]; a column
    that is masked throughout gives not-a-number. *)
Definition ma_median_1d (col : list val) : val :=
  let asorted := sort (remove_nan col) in
  let counts := length asorted in
  let h := counts / 2 in
  if counts =? 0 then NaN
  else
    let high := nth h asorted NaN in
    let low := if Nat.odd counts then high else nth (h - 1) asorted NaN in
    vdiv (vadd low high) (Num (of_nat 2)).

(** [np.nanmedian(a, axis=0)]: a block of fewer than 600 rows goes through
    the masked median ([_nanmedian_small]), a larger one through
    [_nanmedian1d] column by column. *)
Definition nanmedian (a : ndarray) : result ndarray :=
  if len a <? 600
  then apply_along_axis0 ma_median_1d a
  else apply_along_axis0 nanmedian_1d a.

(** [np.nanpercentile(a, q, axis=0)]. *)
Definition nanpercentile (a : ndarray) (q : Qc) : result ndarray :=
  apply_along_axis0 (nanpercentile_1d q) a.

End Np.

(** ** The matplotlib calls of plot.py *)

Module Plt.

(** [np.atleast_1d] on a shape: a 0-d array counts as an array of one
    entry. *)
Definition atleast_1d (s : list nat) : list nat :=
  match s with
  | [] => [1]
  | _ :: _ => s
  end.

(** The number of columns of [x] after [x[:, np.newaxis]], which is applied
    to an array of one axis. *)
Definition ncols (s : list nat) : nat :=
  match s with
  | _ :: c :: _ => c
  | _ => 1
  end.

(** [plt.plot(x, y)] for arrays of the shapes [x] and [y]: both need the same
    first dimension and at most two axes, and, when both have several
    columns, the same number of columns. *)
Definition plot (x y : list nat) : result unit :=
  let x := atleast_1d x in
  let y := atleast_1d y in
  if negb (hd 0 x =? hd 0 y) then Raise ValueError
  else if (2 <? length x) || (2 <? length y) then Raise ValueError
  else if (1 <? ncols x) && (1 <? ncols y) && negb (ncols x =? ncols y)
       then Raise ValueError
       else Ok tt.

(** [np.broadcast_arrays] on the lengths of two 1-d arrays: a length other
    than 1 must be matched. *)
Definition broadcast (m n : nat) : result nat :=
  if m =? n then Ok m
  else if m =? 1 then Ok n
  else if n =? 1 then Ok m
  else Raise ValueError.

(** [plt.fill_between(x, y1, y2)] for arrays of the shapes [x], [y1] and
    [y2]: none may have more than one axis, and the three are broadcast to
    one length. *)
Definition fill_between (x y1 y2 : list nat) : result unit :=
  if (1 <? length x) || (1 <? length y1) || (1 <? length y2) then Raise ValueError
  else
    m <- broadcast (hd 0 (atleast_1d x)) (hd 0 (atleast_1d y1)) ;;
    _ <- broadcast m (hd 0 (atleast_1d y2)) ;;
    Ok tt.

End Plt.

(** ** plot.py *)

(** [int(np.ceil(len_m / 100))]. *)
Definition halfwidth (len_m : Z) : Z := (- ((- len_m) / 100))%Z.

(** The kernel width [padding * k + 1] of [smooth_reward_curve]. *)
Definition kernel_width (x : list val) (padding : Z) (a_range : option Z) : Z :=
  let len_m := match a_range with
               | Some r => r
               | None => Z.of_nat (length x)
               end in
  let k := halfwidth len_m in
  (padding * k + 1)%Z.

Definition smooth_reward_curve (x y : list val) (padding : Z) (a_range : option Z)
  : result (list val * list val) :=
  let len_m := match a_range with
               | Some r => r
               | None => Z.of_nat (length x)
               end in
  let k := halfwidth len_m in
  let xsmoo := x in
  kern <- Np.ones (padding * k + 1) ;;
  num <- Np.convolve_same y kern ;;
  kern' <- Np.ones (padding * k + 1) ;;
  den <- Np.convolve_same (Np.ones_like y) kern' ;;
  let ysmoo := zip_with vdiv num den in
  Ok (xsmoo, ysmoo).

Definition enumerate {A} (l : list A) : list (nat * A) :=
  combine (seq 0 (length l)) l.

(** One iteration of the loop of [pad]; the state is
    [(padded_xs, index, max_index)]. *)
Definition pad_step (maxlen : nat) (value : val)
  (st : list ndarray * Z * Z) (e : nat * ndarray) : list ndarray * Z * Z :=
  let '(padded_xs, index, max_index) := st in
  let '(idx, x) := e in
  if maxlen <=? len x
  then (padded_xs ++ [x], Z.of_nat idx, Z.of_nat idx)
  else
    let padding := Np.ones_times ((maxlen - len x) :: tl (shape x)) value in
    let x_padded := Np.concatenate x padding in
    (padded_xs ++ [x_padded], index, max_index).

Definition pad (xs : list ndarray) (value : val) : result (ndarray * Z * Z) :=
  maxlen <- Np.max (map len xs) ;;
  let '(padded_xs, index, max_index) :=
    fold_left (pad_step maxlen value) (enumerate xs) ([], (-1)%Z, 0%Z) in
  arr <- Np.array padded_xs ;;
  Ok (arr, index, max_index).

(** One parsed CSV file: the step column and the reward column. *)
Definition frame : Type := (list val * list val)%type.

(** [load_csv_runs] after [pd.read_csv]: the smoother is applied only when
    [smoothing > 1]. *)
Definition load_csv_runs (frames : list frame) (smoothing padding : Z)
  (max_range : option Z) : result (list (list val) * list (list val)) :=
  fold_left
    (fun acc (f : frame) =>
       '(xs, ys) <- acc ;;
       '(x, y) <- (if (1 <? smoothing)%Z
                   then smooth_reward_curve (fst f) (snd f) padding max_range
                   else Ok (fst f, snd f)) ;;
       Ok (xs ++ [x], ys ++ [y]))
    frames (Ok ([], [])).

(** The curve drawn by [plot_with_iqr]: the x-sequence [xs[index]] and the
    three y-sequences handed to [plt.plot] and [plt.fill_between]. *)
Record SummaryCurve : Type :=
  mk_curve { curve_x : ndarray; curve_median : ndarray; curve_q25 : ndarray; curve_q75 : ndarray }.

(** [plot_with_iqr]: the two renderer calls can refuse the arrays; when both
    accept them, the curve that was drawn is returned. *)
Definition plot_with_iqr (xs ys : list ndarray) : result SummaryCurve :=
  '(xs', index, _) <- pad xs NaN ;;
  '(ys', _, _) <- pad ys NaN ;;
  median <- Np.nanmedian ys' ;;
  q25 <- Np.nanpercentile ys' (of_nat 25) ;;
  q75 <- Np.nanpercentile ys' (of_nat 75) ;;
  x_line <- Np.getitem xs' index ;;
  _ <- Plt.plot (shape x_line) (shape median) ;;
  x_band <- Np.getitem xs' index ;;
  _ <- Plt.fill_between (shape x_band) (shape q25) (shape q75) ;;
  Ok (mk_curve x_line median q25 q75).

(** One iteration of the loop of [main]: the runs of a group are loaded and
    their summary curve is drawn. *)
Definition plot_group (frames : list frame) (smoothing padding : Z)
  (max_range : option Z) : result SummaryCurve :=
  '(xs, ys) <- load_csv_runs frames smoothing padding max_range ;;
  plot_with_iqr (map arr1 xs) (map arr1 ys).

(** ** The loop of [pad] *)

(** The row appended by one iteration of the loop of [pad]. *)
Definition pad_row (maxlen : nat) (value : val) (x : ndarray) : ndarray :=
  if maxlen <=? len x then x
  else Np.concatenate x (Np.ones_times ((maxlen - len x) :: tl (shape x)) value).

(** The loop invariant of [pad] after the sequences [xs]. *)
Definition pad_inv (maxlen : nat) (value : val) (xs : list ndarray)
  (st : list ndarray * Z * Z) : Prop :=
  let '(padded_xs, index, max_index) := st in
  padded_xs = map (pad_row maxlen value) xs /\
  ((index = (-1)%Z /\ max_index = 0%Z /\
    forall x, In x xs -> len x < maxlen) \/
   (exists i x, index = Z.of_nat i /\ max_index = Z.of_nat i /\
      nth_error xs i = Some x /\ maxlen <= len x /\
      forall j x', i < j -> nth_error xs j = Some x' -> len x' < maxlen)).

(** ** The specification's notions *)

(** [L]: the maximum length among the inputs. *)
Definition max_len (xs : list ndarray) : nat := fold_right Nat.max 0 (map len xs).

(** The first position of [l] that satisfies [p] ([length l] if none). *)
Fixpoint find_first {A} (p : A -> bool) (l : list A) : nat :=
  match l with
  | [] => 0
  | a :: l' => if p a then 0 else S (find_first p l')
  end.

(** "index of the first sequence achieving length L". *)
Definition first_longest (xs : list ndarray) : nat :=
  find_first (fun x => len x =? max_len xs) xs.

(** [i] is the last position of a sequence of length [L]. *)
Definition is_last_longest (xs : list ndarray) (i : nat) : Prop :=
  (exists x, nth_error xs i = Some x /\ len x = max_len xs) /\
  (forall j x, i < j -> nth_error xs j = Some x -> len x < max_len xs).

(** An array whose leading axis is followed by the trailing shape [t]. *)
Definition has_trailing (t : list nat) (x : ndarray) : Prop :=
  shape x = len x :: t /\ length (data x) = len x * prod t.

(** The padded row the specification describes: the original entries, then
    the sentinel up to length [L] along the leading axis. *)
Definition padded_row (L : nat) (t : list nat) (value : val) (x : ndarray) : ndarray :=
  mk_nd (L :: t) (data x ++ repeat value ((L - len x) * prod t)).

(** The smoothed y of a call of the smoother, or its exception. *)
Definition smoothed_y (r : result (list val * list val)) : result (list val) :=
  '(_, ysmoo) <- r ;; Ok ysmoo.

(** The error kinds of the specification. *)
Inductive error_kind : Type :=
| InvalidWindow
| LengthMismatch
| EmptyInput
| ShapeMismatch.

(** [a <= b] for two values that are not the sentinel. *)
Definition vle (a b : val) : Prop :=
  match a, b with
  | Num p, Num q => (p <= q)%Qc
  | _, _ => False
  end.

(** [s] lists the entries of [col] that are not the sentinel, in ascending
    order. *)
Definition ascending_valid (col s : list val) : Prop :=
  Permutation s (filter (fun v => negb (isnan v)) col) /\ Sorted vle s.

(** A statistic of the entries that are not the sentinel, given in ascending
    order; the sentinel when there is none. *)
Definition stat_or_sentinel (f : list val -> val) (s : list val) : val :=
  match s with
  | [] => NaN
  | _ :: _ => f s
  end.

(** The median of an ascending sequence: the middle entry, or the average of
    the two middle entries when the count is even. *)
Definition spec_median (s : list val) : val :=
  let n := length s in
  if Nat.even n
  then vdiv (vadd (nth (n / 2 - 1) s NaN) (nth (n / 2) s NaN)) (Num (of_nat 2))
  else nth (n / 2) s NaN.

(** Linear interpolation in an ascending sequence at the fractional rank
    [h]: between the order statistics at the floor and at the ceiling of
    [h]. *)
Definition interpolate (h : Qc) (s : list val) : val :=
  let lo := Z.to_nat (Qfloor (this h)) in
  let hi := Z.to_nat (Qceiling (this h)) in
  let frac := (h - of_Z (Qfloor (this h)))%Qc in
  vadd (nth lo s NaN) (vmul (Num frac) (vsub (nth hi s NaN) (nth lo s NaN))).

(** The [p]-th percentile of an ascending sequence of [n] values: linear
    interpolation at the rank [(n - 1) p / 100]. *)
Definition spec_percentile (p : Qc) (s : list val) : val :=
  interpolate ((of_nat (length s) - 1) * p / of_nat 100)%Qc s.

(** Column [j] of a block given by its rows. *)
Definition column (rows : list (list val)) (j : nat) : list val :=
  map (fun r => nth j r NaN) rows.

(** The values at position [j] of the runs that reach position [j]. *)
Definition reaching (runs : list (list val)) (j : nat) : list val :=
  flat_map (fun r => match nth_error r j with
                     | Some v => [v]
                     | None => []
                     end) runs.

(** ** The statistics as the code computes them *)

(** The entries of a column that are not not-a-number, as numpy's sort
    arranges them, and a statistic computed from them.  They serve the
    proofs; that the arrangement is the ascending one is
    [valid_sorted_ascending]. *)
Definition valid_sorted (col : list val) : list val :=
  Np.sort (filter (fun v => negb (isnan v)) col).

Definition column_stat (f : list val -> val) (col : list val) : val :=
  match valid_sorted col with
  | [] => NaN
  | (_ :: _) as s => f s
  end.

(** ** Notions used by the further properties *)

(** A value that is not not-a-number. *)
Definition is_num (v : val) : Prop := isnan v = false.

(** A finite value between [lo] and [hi]. *)
Definition in_range (lo hi : Qc) (v : val) : Prop :=
  match v with
  | Num q => (lo <= q)%Qc /\ (q <= hi)%Qc
  | NaN => False
  end.

(** [l[a:b]] for [0 <= a]. *)
Definition slice {A} (l : list A) (a b : nat) : list A := firstn (b - a) (skipn a l).

(** The longest of the given sequences. *)
Definition max_length (ls : list (list val)) : nat :=
  fold_right Nat.max 0 (map (@length val) ls).

(** What [load_csv_runs] appends for one file, and one iteration of its
    loop. *)
Definition load_frame (smoothing padding : Z) (max_range : option Z) (f : frame)
  : result (list val * list val) :=
  if (1 <? smoothing)%Z
  then smooth_reward_curve (fst f) (snd f) padding max_range
  else Ok (fst f, snd f).

Definition load_step (smoothing padding : Z) (max_range : option Z)
  (acc : result (list (list val) * list (list val))) (f : frame)
  : result (list (list val) * list (list val)) :=
  '(xs, ys) <- acc ;;
  '(x, y) <- load_frame smoothing padding max_range f ;;
  Ok (xs ++ [x], ys ++ [y]).

(** Linear interpolation at the fractional rank [h] in a sequence of
    rationals. *)
Definition qinterp (h : Qc) (qs : list Qc) : Qc :=
  let lo := Z.to_nat (Qfloor (this h)) in
  let hi := Z.to_nat (Qceiling (this h)) in
  (nth lo qs 0 + (h - of_Z (Qfloor (this h))) * (nth hi qs 0 - nth lo qs 0))%Qc.

(** ** The loop of [main] *)

(** [l[i]] for a list and a non-negative index. *)
Definition list_getitem {A} (l : list A) (i : nat) : result A :=
  match nth_error l i with
  | Some a => Ok a
  | None => Raise IndexError
  end.

(** What one group hands to the renderer: its curve, its legend label and
    its colour. *)
Definition drawing : Type := (SummaryCurve * String.string * String.string)%type.

(** One iteration of the loop of [main] over the groups, after the files of
    the group have been read: the runs are loaded, then the label
    [args.labels[i]] and the colour [args.colors[i % len(args.colors)]] are
    looked up, then the curve is drawn.  [--colors] takes at least one
    value, so the colours are given as a first colour and the others. *)
Definition main_step (smoothing padding : Z) (max_range : option Z)
  (labels : list String.string) (color0 : String.string) (colors : list String.string)
  (acc : result (list drawing)) (e : nat * list frame) : result (list drawing) :=
  drawn <- acc ;;
  let '(i, group) := e in
  '(xs, ys) <- load_csv_runs group smoothing padding max_range ;;
  label <- list_getitem labels i ;;
  color <- list_getitem (color0 :: colors) (i mod length (color0 :: colors)) ;;
  curve <- plot_with_iqr (map arr1 xs) (map arr1 ys) ;;
  Ok (drawn ++ [(curve, label, color)]).

Definition main_loop (groups : list (list frame)) (smoothing padding : Z)
  (max_range : option Z) (labels : list String.string) (color0 : String.string)
  (colors : list String.string) : result (list drawing) :=
  fold_left (main_step smoothing padding max_range labels color0 colors)
    (enumerate groups) (Ok []).

(** ** The code over binary64 *)

(** The definitions above, repeated with the arithmetic of numpy's
    [float64].  What does not touch a number ([Np.max], [Np.overlap],
    [Np.shape_eqb], [halfwidth], [enumerate], the renderer) is shared. *)

Module F64.

(** A numpy [float64]: an IEEE 754 binary64 number. *)
Definition float : Type := SpecFloat.spec_float.

Definition prec : Z := 53.
Definition emax : Z := 1024.

Definition nan : float := SpecFloat.S754_nan.
Definition inf : float := SpecFloat.S754_infinity false.

(** The float of an integer, rounded to nearest even (exact up to 2^53). *)
Definition of_int (z : Z) : float := SpecFloat.binary_normalize prec emax z 0 false.

Definition zero : float := of_int 0.
Definition one : float := of_int 1.

Definition add : float -> float -> float := SpecFloat.SFadd prec emax.
Definition sub : float -> float -> float := SpecFloat.SFsub prec emax.
Definition mul : float -> float -> float := SpecFloat.SFmul prec emax.
Definition div : float -> float -> float := SpecFloat.SFdiv prec emax.

(** The float nearest to a rational with numerator and denominator up to
    2^53 (the division is correctly rounded).  The ranks and weights of the
    25th and 75th percentiles are multiples of 1/4 and convert exactly. *)
Definition of_rat (q : Qc) : float := div (of_int (Qnum q)) (of_int (Zpos (Qden q))).

Definition isnan (v : float) : bool :=
  match v with
  | SpecFloat.S754_nan => true
  | _ => false
  end.

(** Order used by numpy's sort and partition: not-a-number goes last. *)
Definition leb (a b : float) : bool :=
  match a, b with
  | _, SpecFloat.S754_nan => true
  | SpecFloat.S754_nan, _ => false
  | _, _ => SpecFloat.SFleb a b
  end.

Record ndarray : Type := mk_nd { shape : list nat; data : list float }.

Definition arr1 (l : list float) : ndarray := mk_nd [length l] l.

Definition len (x : ndarray) : nat := hd 0 (shape x).

Module Np.

(** [tmp = 0; for i: tmp += u[i]], the accumulation of a dot product, from
    left to right.  numpy may add the products in another order (BLAS,
    unrolled loops); the results stated over binary64 below are the same for
    every order. *)
Definition vsum (l : list float) : float := fold_left add l zero.

Definition ones (m : Z) : result (list float) :=
  if (m <? 0)%Z then Raise ValueError
  else Ok (repeat one (Z.to_nat m)).

Definition ones_like (y : list float) : list float := map (fun _ => one) y.

Definition correlate_same (a v : list float) : list float :=
  let n1 := length a in
  let n2 := length v in
  let n_left := n2 / 2 in
  map (fun k =>
         vsum (map (fun i => mul (nth (k + i - n_left) a zero) (nth i v zero))
                   (Np.overlap n1 n2 n_left k)))
      (seq 0 n1).

Definition convolve_same (a v : list float) : result (list float) :=
  let '(a, v) := if length a <? length v then (v, a) else (a, v) in
  match a, v with
  | [], _ => Raise ValueError
  | _, [] => Raise ValueError
  | _, _ => Ok (correlate_same a (rev v))
  end.

Definition ones_times (s : list nat) (value : float) : ndarray :=
  mk_nd s (map (fun one => mul one value) (repeat one (prod s))).

Definition concatenate (x p : ndarray) : ndarray :=
  mk_nd ((len x + len p) :: tl (shape x)) (data x ++ data p).

Definition array (rows : list ndarray) : result ndarray :=
  match rows with
  | [] => Ok (mk_nd [0] [])
  | r :: _ =>
      if forallb (fun r' => Np.shape_eqb (shape r') (shape r)) rows
      then Ok (mk_nd (length rows :: shape r) (concat (map data rows)))
      else Raise ValueError
  end.

Definition getitem (a : ndarray) (i : Z) : result ndarray :=
  match shape a with
  | [] => Raise IndexError
  | n :: rest =>
      let i' := if (i <? 0)%Z then (i + Z.of_nat n)%Z else i in
      if ((0 <=? i') && (i' <? Z.of_nat n))%Z
      then Ok (mk_nd rest (firstn (prod rest) (skipn (Z.to_nat i' * prod rest) (data a))))
      else Raise IndexError
  end.

Fixpoint insert (v : float) (l : list float) : list float :=
  match l with
  | [] => [v]
  | w :: l' => if leb v w then v :: l else w :: insert v l'
  end.

Fixpoint sort (l : list float) : list float :=
  match l with
  | [] => []
  | v :: l' => insert v (sort l')
  end.

Definition remove_nan (l : list float) : list float :=
  filter (fun v => negb (isnan v)) l.

Definition mean (l : list float) : float :=
  div (vsum l) (of_int (Z.of_nat (length l))).

Definition median (l : list float) : float :=
  let part := sort l in
  let sz := length l in
  let index := sz / 2 in
  if Nat.odd sz
  then mean (firstn 1 (skipn index part))
  else mean (firstn 2 (skipn (index - 1) part)).

Definition nanmedian_1d (arr1d : list float) : float :=
  match remove_nan arr1d with
  | [] => nan
  | (_ :: _) as parsed => median parsed
  end.

Definition lerp (a b : float) (t : Qc) : float :=
  let diff_b_a := sub b a in
  if Qle_bool (1 # 2) (this t)
  then sub b (mul diff_b_a (of_rat (1 - t)%Qc))
  else add a (mul diff_b_a (of_rat t)).

Definition item (arr : list float) (i : Z) : float :=
  nth (Z.to_nat (if (i <? 0)%Z then (i + Z.of_nat (length arr))%Z else i)) arr nan.

Definition quantile (arr : list float) (q : Qc) : float :=
  let values_count := length arr in
  let virtual_index := ((of_nat values_count - 1) * q)%Qc in
  let above := Qle_bool (this (of_nat values_count - 1)%Qc) (this virtual_index) in
  let previous_index := if above then (-1)%Z else Qfloor (this virtual_index) in
  let next_index := if above then (-1)%Z else (Qfloor (this virtual_index) + 1)%Z in
  let part := sort arr in
  let gamma := (virtual_index - of_Z previous_index)%Qc in
  lerp (item part previous_index) (item part next_index) gamma.

Definition nanpercentile_1d (q : Qc) (arr1d : list float) : float :=
  match remove_nan arr1d with
  | [] => nan
  | (_ :: _) as parsed => quantile parsed (q / of_nat 100)%Qc
  end.

Definition slice0 (n : nat) (rest : list nat) (d : list float) (p : nat) : list float :=
  map (fun i => nth (i * prod rest + p) d nan) (seq 0 n).

Definition apply_along_axis0 (f : list float -> float) (a : ndarray) : result ndarray :=
  match shape a with
  | [] => Raise AxisError
  | n :: rest => Ok (mk_nd rest (map (fun p => f (slice0 n rest (data a) p)) (seq 0 (prod rest))))
  end.

Definition ma_median_1d (col : list float) : float :=
  let asorted := sort (remove_nan col) in
  let counts := length asorted in
  let h := counts / 2 in
  if counts =? 0 then nan
  else
    let high := nth h asorted nan in
    let low := if Nat.odd counts then high else nth (h - 1) asorted nan in
    div (add low high) (of_int 2).

Definition nanmedian (a : ndarray) : result ndarray :=
  if len a <? 600
  then apply_along_axis0 ma_median_1d a
  else apply_along_axis0 nanmedian_1d a.

Definition nanpercentile (a : ndarray) (q : Qc) : result ndarray :=
  apply_along_axis0 (nanpercentile_1d q) a.

End Np.

Definition smooth_reward_curve (x y : list float) (padding : Z) (a_range : option Z)
  : result (list float * list float) :=
  let len_m := match a_range with
               | Some r => r
               | None => Z.of_nat (length x)
               end in
  let k := halfwidth len_m in
  let xsmoo := x in
  kern <- Np.ones (padding * k + 1) ;;
  num <- Np.convolve_same y kern ;;
  kern' <- Np.ones (padding * k + 1) ;;
  den <- Np.convolve_same (Np.ones_like y) kern' ;;
  let ysmoo := zip_with div num den in
  Ok (xsmoo, ysmoo).

Definition kernel_width (x : list float) (padding : Z) (a_range : option Z) : Z :=
  let len_m := match a_range with
               | Some r => r
               | None => Z.of_nat (length x)
               end in
  let k := halfwidth len_m in
  (padding * k + 1)%Z.

Definition pad_step (maxlen : nat) (value : float)
  (st : list ndarray * Z * Z) (e : nat * ndarray) : list ndarray * Z * Z :=
  let '(padded_xs, index, max_index) := st in
  let '(idx, x) := e in
  if maxlen <=? len x
  then (padded_xs ++ [x], Z.of_nat idx, Z.of_nat idx)
  else
    let padding := Np.ones_times ((maxlen - len x) :: tl (shape x)) value in
    let x_padded := Np.concatenate x padding in
    (padded_xs ++ [x_padded], index, max_index).

Definition pad (xs : list ndarray) (value : float) : result (ndarray * Z * Z) :=
  maxlen <- Np.max (map len xs) ;;
  let '(padded_xs, index, max_index) :=
    fold_left (pad_step maxlen value) (enumerate xs) ([], (-1)%Z, 0%Z) in
  arr <- Np.array padded_xs ;;
  Ok (arr, index, max_index).

Definition frame : Type := (list float * list float)%type.

Definition load_csv_runs (frames : list frame) (smoothing padding : Z)
  (max_range : option Z) : result (list (list float) * list (list float)) :=
  fold_left
    (fun acc (f : frame) =>
       '(xs, ys) <- acc ;;
       '(x, y) <- (if (1 <? smoothing)%Z
                   then smooth_reward_curve (fst f) (snd f) padding max_range
                   else Ok (fst f, snd f)) ;;
       Ok (xs ++ [x], ys ++ [y]))
    frames (Ok ([], [])).

Record SummaryCurve : Type :=
  mk_curve { curve_x : ndarray; curve_median : ndarray; curve_q25 : ndarray; curve_q75 : ndarray }.

Definition plot_with_iqr (xs ys : list ndarray) : result SummaryCurve :=
  '(xs', index, _) <- pad xs nan ;;
  '(ys', _, _) <- pad ys nan ;;
  median <- Np.nanmedian ys' ;;
  q25 <- Np.nanpercentile ys' (of_nat 25) ;;
  q75 <- Np.nanpercentile ys' (of_nat 75) ;;
  x_line <- Np.getitem xs' index ;;
  _ <- Plt.plot (shape x_line) (shape median) ;;
  x_band <- Np.getitem xs' index ;;
  _ <- Plt.fill_between (shape x_band) (shape q25) (shape q75) ;;
  Ok (mk_curve x_line median q25 q75).

Definition plot_group (frames : list frame) (smoothing padding : Z)
  (max_range : option Z) : result SummaryCurve :=
  '(xs, ys) <- load_csv_runs frames smoothing padding max_range ;;
  plot_with_iqr (map arr1 xs) (map arr1 ys).

End F64.

(** ** Values *)

Lemma vmul_one_l (v : val) : vmul vone v = v.
Proof.
  destruct v as [|q]; simpl; [reflexivity|].
  now rewrite Qcmult_1_l.
Qed.

Lemma vmul_one_r (v : val) : vmul v vone = v.
Proof.
  destruct v as [|q]; simpl; [reflexivity|].
  now rewrite Qcmult_1_r.
Qed.

Lemma vadd_zero_l (v : val) : vadd vzero v = v.
Proof.
  destruct v as [|q]; simpl; [reflexivity|].
  now rewrite Qcplus_0_l.
Qed.

Ltac qc_discr := let E := fresh "E" in intro E; apply (f_equal this) in E; discriminate E.

Lemma of_nat_S (n : nat) : of_nat (S n) = (of_nat n + 1)%Qc.
Proof.
  unfold of_nat. apply Qc_is_canon.
  unfold Qcplus. cbn [this Q2Qc].
  rewrite !Qred_correct.
  rewrite Nat2Z.inj_succ. unfold Z.succ. rewrite inject_Z_plus.
  reflexivity.
Qed.

Lemma of_nat_0 : of_nat 0 = 0%Qc.
Proof. apply Qc_is_canon. reflexivity. Qed.

Lemma of_nat_pos (n : nat) : 0 < n -> of_nat n <> 0%Qc.
Proof.
  intros Hn E. unfold of_nat in E.
  apply (f_equal this) in E. cbn [this Q2Qc] in E.
  assert (H : (Qred (inject_Z (Z.of_nat n)) == 0)%Q) by (rewrite E; reflexivity).
  rewrite Qred_correct in H. unfold Qeq in H. simpl in H. lia.
Qed.

Lemma vdiv_one (v : val) : vdiv v vone = v.
Proof.
  destruct v as [|q]; simpl; [reflexivity|].
  destruct (Qc_eq_dec 1 0) as [E|_]; [discriminate E|].
  f_equal. field. qc_discr.
Qed.

(** ** Convolution *)

Lemma ones_ok (m : Z) : (0 <= m)%Z -> Np.ones m = Ok (repeat vone (Z.to_nat m)).
Proof.
  intros Hm. unfold Np.ones.
  destruct (Z.ltb_spec m 0); [lia | reflexivity].
Qed.

Lemma ones_neg (m : Z) : (m < 0)%Z -> Np.ones m = Raise ValueError.
Proof.
  intros Hm. unfold Np.ones.
  destruct (Z.ltb_spec m 0); [reflexivity | lia].
Qed.

Lemma correlate_same_length (a v : list val) :
  length (Np.correlate_same a v) = length a.
Proof. unfold Np.correlate_same. now rewrite length_map, length_seq. Qed.

Lemma convolve_same_ok (a v : list val) :
  a <> [] -> v <> [] ->
  Np.convolve_same a v =
    Ok (if length a <? length v
        then Np.correlate_same v (rev a)
        else Np.correlate_same a (rev v)).
Proof.
  intros Ha Hv. unfold Np.convolve_same.
  destruct (length a <? length v); destruct a, v; congruence.
Qed.

Lemma convolve_same_raise (a v : list val) :
  a = [] \/ v = [] -> Np.convolve_same a v = Raise ValueError.
Proof.
  unfold Np.convolve_same.
  intros [-> | ->].
  - destruct v; reflexivity.
  - destruct a; reflexivity.
Qed.

Lemma convolve_same_length (a v r : list val) :
  Np.convolve_same a v = Ok r -> length r = Nat.max (length a) (length v).
Proof.
  intros H.
  assert (Ha : a <> []).
  { intros ->. rewrite convolve_same_raise in H by auto. discriminate. }
  assert (Hv : v <> []).
  { intros ->. rewrite convolve_same_raise in H by auto. discriminate. }
  rewrite convolve_same_ok in H by assumption.
  injection H as <-.
  destruct (Nat.ltb_spec (length a) (length v));
    rewrite correlate_same_length; lia.
Qed.

Lemma zip_with_length {A B C} (f : A -> B -> C) (l : list A) (m : list B) :
  length (zip_with f l m) = Nat.min (length l) (length m).
Proof.
  revert m. induction l as [|a l IH]; intros [|b m]; simpl; auto.
Qed.

Lemma ones_like_length (y : list val) : length (Np.ones_like y) = length y.
Proof. apply length_map. Qed.

Lemma ones_like_repeat (y : list val) : Np.ones_like y = repeat vone (length y).
Proof. induction y; simpl; congruence. Qed.

(** ** The smoother *)

Section Smoother.

Variables (x : list val) (padding : Z) (a_range : option Z).

Local Abbreviation width := (kernel_width x padding a_range).

(** The smoother is a function of [y] and of the kernel width. *)
Lemma smooth_unfold (y : list val) :
  smooth_reward_curve x y padding a_range =
    (kern <- Np.ones width ;;
     num <- Np.convolve_same y kern ;;
     kern' <- Np.ones width ;;
     den <- Np.convolve_same (Np.ones_like y) kern' ;;
     Ok (x, zip_with vdiv num den)).
Proof. reflexivity. Qed.

Lemma smooth_ok (y : list val) :
  (1 <= width)%Z -> y <> [] ->
  exists num den,
    Np.convolve_same y (repeat vone (Z.to_nat width)) = Ok num /\
    Np.convolve_same (Np.ones_like y) (repeat vone (Z.to_nat width)) = Ok den /\
    smooth_reward_curve x y padding a_range = Ok (x, zip_with vdiv num den).
Proof.
  intros Hw Hy. rewrite smooth_unfold.
  set (w := width) in *.
  rewrite ones_ok by lia. simpl.
  assert (Hk : repeat vone (Z.to_nat w) <> []).
  { destruct (Z.to_nat w) eqn:E; [lia | discriminate]. }
  assert (Ho : Np.ones_like y <> []) by (destruct y; [congruence | discriminate]).
  rewrite (convolve_same_ok Hy Hk), (convolve_same_ok Ho Hk).
  do 2 eexists. repeat split; reflexivity.
Qed.

Lemma smooth_raise (y : list val) :
  (width <= 0)%Z \/ y = [] ->
  smooth_reward_curve x y padding a_range = Raise ValueError.
Proof.
  intros H. rewrite smooth_unfold.
  set (w := width) in *.
  destruct (Z.ltb_spec w 0) as [Hneg|Hpos].
  - now rewrite ones_neg.
  - rewrite ones_ok by assumption. simpl.
    rewrite convolve_same_raise; [reflexivity|].
    destruct H as [H| ->]; [right | now left].
    replace w with 0%Z by lia. reflexivity.
Qed.

(** The smoothed y is as long as the longer of [y] and the kernel. *)
Lemma smooth_length (y xs ys : list val) :
  smooth_reward_curve x y padding a_range = Ok (xs, ys) ->
  xs = x /\
  length ys = Nat.max (length y) (Z.to_nat width).
Proof.
  intros H.
  destruct (Z.leb_spec width 0) as [Hw|Hw].
  { rewrite smooth_raise in H by auto. discriminate. }
  assert (Hy : y <> []).
  { intros ->. rewrite smooth_raise in H by auto. discriminate. }
  destruct (@smooth_ok y) as (num & den & Hn & Hd & E); [lia | congruence |].
  rewrite E in H. injection H as <- <-. split; [reflexivity|].
  rewrite zip_with_length.
  apply convolve_same_length in Hn, Hd.
  rewrite Hn, Hd, ones_like_length, repeat_length. lia.
Qed.

End Smoother.

Lemma vsum_acc_num (q acc : Qc) (m : nat) :
  fold_left vadd (repeat (Num q) m) (Num acc) = Num (acc + of_nat m * q)%Qc.
Proof.
  revert acc. induction m as [|m IH]; intros acc; simpl.
  - f_equal. rewrite of_nat_0. ring.
  - rewrite IH. f_equal. rewrite of_nat_S. ring.
Qed.

Lemma vsum_acc_nan (l : list val) : fold_left vadd l NaN = NaN.
Proof. induction l; simpl; auto. Qed.

Lemma vsum_repeat_num (q : Qc) (m : nat) :
  Np.vsum (repeat (Num q) m) = Num (of_nat m * q)%Qc.
Proof.
  unfold Np.vsum, vzero. rewrite vsum_acc_num. f_equal. ring.
Qed.

Lemma vsum_repeat_nan (m : nat) : 0 < m -> Np.vsum (repeat NaN m) = NaN.
Proof.
  destruct m; [lia|]. intros _. unfold Np.vsum. simpl. apply vsum_acc_nan.
Qed.

(** The mean of [m >= 1] copies of a value is that value. *)
Lemma mean_of_copies (c : val) (m : nat) :
  0 < m -> vdiv (Np.vsum (repeat c m)) (Num (of_nat m)) = c.
Proof.
  intros Hm. destruct c as [|q].
  - now rewrite vsum_repeat_nan.
  - rewrite vsum_repeat_num. simpl.
    destruct (Qc_eq_dec (of_nat m) 0) as [E|NE].
    + now apply of_nat_pos in E.
    + f_equal. field. assumption.
Qed.

Lemma zip_with_map {A B C D} (f : B -> C -> D) (g : A -> B) (h : A -> C) (l : list A) :
  zip_with f (map g l) (map h l) = map (fun a => f (g a) (h a)) l.
Proof. induction l; simpl; congruence. Qed.

Lemma map_nth_seq {A} (l : list A) (d : A) :
  map (fun k => nth k l d) (seq 0 (length l)) = l.
Proof.
  apply nth_ext with (d := d) (d' := d).
  - now rewrite length_map, length_seq.
  - intros n Hn. rewrite length_map, length_seq in Hn.
    rewrite (nth_indep _ d (nth 0 l d)) by (now rewrite length_map, length_seq).
    rewrite (map_nth (fun k => nth k l d)), seq_nth by assumption.
    reflexivity.
Qed.

Lemma overlap_In (n1 n2 n_left k i : nat) :
  In i (Np.overlap n1 n2 n_left k) <->
  i < n2 /\ n_left <= k + i /\ k + i - n_left < n1.
Proof.
  unfold Np.overlap. rewrite filter_In, in_seq, andb_true_iff.
  rewrite Nat.leb_le, Nat.ltb_lt. lia.
Qed.

(** Every output position of a 'same' correlation has a contributor. *)
Lemma count_conv_pos (n1 n2 k : nat) :
  0 < n2 -> k < n1 -> 0 < length (Np.overlap n1 n2 (n2 / 2) k).
Proof.
  intros Hn2 Hk.
  assert (Hh : n2 / 2 < n2) by (apply Nat.div_lt; lia).
  assert (Hin : In (n2 / 2 - k) (Np.overlap n1 n2 (n2 / 2) k)).
  { apply overlap_In. lia. }
  destruct (Np.overlap n1 n2 (n2 / 2) k); [destruct Hin | simpl; lia].
Qed.

(** With a kernel no longer than the signal, the smoothed value at [k] is
    the sum of [y] over the window around [k], cut at the borders, divided
    by the number of positions of the window that fall inside [y]. *)
Lemma smooth_window_mean (x y : list val) (padding : Z) (a_range : option Z) :
  let w := Z.to_nat (kernel_width x padding a_range) in
  1 <= w <= length y ->
  smooth_reward_curve x y padding a_range =
    Ok (x, map (fun k =>
                  let ov := Np.overlap (length y) w (w / 2) k in
                  vdiv (Np.vsum (map (fun i => nth (k + i - w / 2) y vzero) ov))
                       (Num (of_nat (length ov))))
               (seq 0 (length y))).
Proof.
  intros w Hw.
  assert (Hy : y <> []) by (intros ->; simpl in Hw; lia).
  destruct (@smooth_ok x padding a_range y) as (num & den & Hn & Hd & E);
    [lia | assumption |].
  fold w in Hn, Hd.
  assert (Hk : repeat vone w <> []) by (destruct w; [lia | discriminate]).
  assert (Ho : Np.ones_like y <> []) by (destruct y; [congruence | discriminate]).
  rewrite convolve_same_ok in Hn, Hd by assumption.
  rewrite ones_like_length, repeat_length in *.
  destruct (Nat.ltb_spec (length y) w) as [Hlt|_]; [lia|].
  injection Hn as <-. injection Hd as <-.
  rewrite E. f_equal. f_equal.
  unfold Np.correlate_same.
  rewrite rev_repeat, ones_like_length, repeat_length, zip_with_map.
  apply map_ext_in. intros k Hkin. apply in_seq in Hkin. cbv zeta.
  f_equal.
  - f_equal. apply map_ext_in. intros i Hi. apply overlap_In in Hi.
    rewrite (nth_repeat_lt vone vzero) by lia. apply vmul_one_r.
  - rewrite (map_ext_in _ (fun _ => vone)).
    + rewrite map_const. unfold vone at 1. rewrite vsum_repeat_num.
      f_equal. ring.
    + intros i Hi. apply overlap_In in Hi.
      rewrite ones_like_repeat.
      rewrite !(nth_repeat_lt vone vzero) by lia. apply vmul_one_l.
Qed.

Lemma halfwidth_spec (len_m : Z) :
  (100 * (halfwidth len_m - 1) < len_m <= 100 * halfwidth len_m)%Z.
Proof.
  unfold halfwidth.
  pose proof (Z.div_mod (- len_m) 100 ltac:(lia)) as E.
  pose proof (Z.mod_pos_bound (- len_m) 100 ltac:(lia)) as B.
  lia.
Qed.

(** A constant signal under a kernel no longer than the signal. *)
Lemma smooth_repeat (x : list val) (c : val) (n : nat) (padding : Z) (a_range : option Z) :
  1 <= Z.to_nat (kernel_width x padding a_range) <= n ->
  smooth_reward_curve x (repeat c n) padding a_range = Ok (x, repeat c n).
Proof.
  intros Hw.
  rewrite smooth_window_mean by (rewrite repeat_length; exact Hw).
  f_equal. f_equal. rewrite repeat_length.
  transitivity (map (fun _ : nat => c) (seq 0 n));
    [| now rewrite map_const, length_seq].
  apply map_ext_in. intros k Hk. apply in_seq in Hk. cbv zeta.
  set (w := Z.to_nat (kernel_width x padding a_range)) in *.
  rewrite (map_ext_in _ (fun _ => c)).
  - rewrite map_const. apply mean_of_copies. apply count_conv_pos; lia.
  - intros i Hi. apply overlap_In in Hi. apply nth_repeat_lt. lia.
Qed.

(** A kernel of width one leaves the signal as it is. *)
Lemma smooth_width_one (x y : list val) (padding : Z) (a_range : option Z) :
  kernel_width x padding a_range = 1%Z -> y <> [] ->
  smooth_reward_curve x y padding a_range = Ok (x, y).
Proof.
  intros Hw Hy.
  assert (Hlen : 0 < length y) by (destruct y; [congruence | simpl; lia]).
  rewrite smooth_window_mean by (rewrite Hw; simpl; lia).
  rewrite Hw. f_equal. f_equal.
  transitivity (map (fun k => nth k y vzero) (seq 0 (length y)));
    [| apply map_nth_seq].
  apply map_ext_in. intros k Hk. apply in_seq in Hk. cbv zeta.
  assert (Ho : Np.overlap (length y) (Z.to_nat 1) (Z.to_nat 1 / 2) k = [0]).
  { unfold Np.overlap. simpl. rewrite Nat.add_0_r, Nat.sub_0_r.
    destruct (Nat.ltb_spec k (length y)); [reflexivity | lia]. }
  rewrite Ho. simpl map. rewrite Nat.add_0_r, Nat.sub_0_r.
  apply (mean_of_copies (nth k y vzero) (m := 1)). lia.
Qed.

(** ** Properties of the smoother *)

(** C2 (the code departs from the claim).  The smoothed y is as long as the
    longer of [y] and the kernel ([smooth_length]), so a run shorter than the
    kernel comes back longer than it went in: three samples smoothed with
    [padding = 10] and no reference length meet a kernel of width 11 and give
    11 values, paired with the 3 unchanged x values. *)
Theorem smooth_short_run_length :
  let x := [lit 1; lit 2; lit 3] in
  let y := [lit 1; lit 2; lit 3] in
  exists ysmoo,
    smooth_reward_curve x y 10 None = Ok (x, ysmoo) /\
    length y = 3 /\ length ysmoo = 11.
Proof.
  intros x y.
  destruct (@smooth_ok x 10%Z None y) as (num & den & _ & _ & E);
    [vm_compute; discriminate | discriminate |].
  eexists. split; [exact E|]. split; [reflexivity|].
  apply smooth_length in E. destruct E as [_ ->]. reflexivity.
Qed.

(** C3 as stated fails: a call with [padding = 0], a call with a reference
    length of [0], and a call whose x and y differ in length (three steps,
    two rewards, window of width 2) all return. *)
Lemma smooth_accepts_invalid_window :
  let x := [lit 1; lit 2] in
  let y := [lit 5; lit 7] in
  smooth_reward_curve x y 0 None = Ok (x, y) /\
  smooth_reward_curve x y 1 (Some 0%Z) = Ok (x, y) /\
  exists ysmoo,
    smooth_reward_curve [lit 1; lit 2; lit 3] y 1 None = Ok ([lit 1; lit 2; lit 3], ysmoo) /\
    length ysmoo = 2.
Proof.
  intros x y. split; [|split].
  - apply smooth_width_one; [reflexivity | discriminate].
  - apply smooth_width_one; [reflexivity | discriminate].
  - destruct (@smooth_ok [lit 1; lit 2; lit 3] 1%Z None y) as (? & ? & _ & _ & E);
      [vm_compute; discriminate | discriminate |].
    eexists. split; [exact E|].
    apply smooth_length in E. destruct E as [_ ->]. reflexivity.
Qed.

(** C3 (amended).  The smoother validates nothing itself.  It raises, with
    numpy's [ValueError], exactly when the kernel width [padding * k + 1] is
    not positive or [y] is empty, and returns in every other case, whatever
    the lengths of [x] and [y]. *)
Theorem smooth_failure_cases (x y : list val) (padding : Z) (a_range : option Z) :
  (smooth_reward_curve x y padding a_range = Raise ValueError <->
   (kernel_width x padding a_range <= 0)%Z \/ y = []) /\
  ((exists ysmoo, smooth_reward_curve x y padding a_range = Ok (x, ysmoo)) <->
   (1 <= kernel_width x padding a_range)%Z /\ y <> []).
Proof.
  assert (Hdec : ((kernel_width x padding a_range <= 0)%Z \/ y = []) \/
                 ((1 <= kernel_width x padding a_range)%Z /\ y <> [])).
  { destruct y; [left; now right|].
    destruct (Z.leb_spec (kernel_width x padding a_range) 0);
      [left; now left | right; split; [lia | discriminate]]. }
  split; split.
  - intros E. destruct Hdec as [H|[Hw Hy]]; [exact H|].
    destruct (smooth_ok x padding a_range Hw Hy) as (? & ? & _ & _ & E').
    congruence.
  - apply smooth_raise.
  - intros [ys E]. destruct Hdec as [H|H]; [|exact H].
    rewrite smooth_raise in E by exact H. discriminate.
  - intros [Hw Hy].
    destruct (smooth_ok x padding a_range Hw Hy) as (? & ? & _ & _ & E').
    eauto.
Qed.

(** C5 as stated fails for numpy's floats.  Three samples 0.1 (the float
    7205759403792794 / 2^56) smoothed with a window of width 3 give, at the
    interior position, (0.1 + 0.1 + 0.1) / 3, which is rounded twice and
    comes out as 7205759403792795 / 2^56 (0.10000000000000002); the two
    border positions, where two samples are averaged, give 0.1. *)
Lemma smooth_constant_signal_rounded :
  let c := F64.div (F64.of_int 1) (F64.of_int 10) in
  let c' := SpecFloat.S754_finite false 7205759403792795 (-56) in
  let x := [F64.of_int 0; F64.of_int 1; F64.of_int 2] in
  c = SpecFloat.S754_finite false 7205759403792794 (-56) /\
  F64.smooth_reward_curve x [c; c; c] 2 None = Ok (x, [c; c'; c]) /\
  c' <> c.
Proof.
  intros c c' x. split; [vm_compute; reflexivity|].
  split; [vm_compute; reflexivity|].
  vm_compute. discriminate.
Qed.

(** C5 (amended).  In exact arithmetic a constant signal at least as long as
    the window is returned unchanged, border positions included: each value
    is the window sum divided by the number of contributing positions. *)
Theorem smooth_constant_signal (x : list val) (c : val) (n : nat)
  (padding : Z) (a_range : option Z) :
  (1 <= kernel_width x padding a_range)%Z ->
  Z.to_nat (kernel_width x padding a_range) <= n ->
  smooth_reward_curve x (repeat c n) padding a_range = Ok (x, repeat c n).
Proof.
  intros Hw Hn. apply smooth_repeat. lia.
Qed.

Lemma smooth_constant_signal_witness :
  let c := Num (Q2Qc (1 # 10)) in
  smooth_reward_curve [lit 0; lit 1; lit 2] (repeat c 3) 2 None
  = Ok ([lit 0; lit 1; lit 2], repeat c 3).
Proof.
  apply (@smooth_constant_signal [lit 0; lit 1; lit 2] (Num (Q2Qc (1 # 10))) 3 2%Z None).
  - vm_compute. discriminate.
  - vm_compute. lia.
Defined.

(** C8 as stated fails: with [padding = 1] the window width is [k + 1] and
    grows with the reference length.  At reference length 100 the values
    change, and no bound makes the smoother the identity beyond it. *)
Lemma smooth_not_identity_large_reference :
  smooth_reward_curve [lit 1; lit 2; lit 3] [lit 1; lit 2; lit 3] 1 (Some 100%Z)
    <> Ok ([lit 1; lit 2; lit 3], [lit 1; lit 2; lit 3]) /\
  ~ (exists R0 : Z, forall R : Z, (R0 <= R)%Z ->
       forall x y ysmoo,
         smooth_reward_curve x y 1 (Some R) = Ok (x, ysmoo) -> ysmoo = y).
Proof.
  split.
  - intros E.
    apply (f_equal (fun r => match r with
                             | Ok (_, [_; Num q; _]) => Qnum (this q)
                             | _ => 0%Z
                             end)) in E.
    vm_compute in E. discriminate E.
  - intros [R0 H].
    set (R := Z.max R0 100).
    assert (HR : (R0 <= R /\ 100 <= R)%Z) by (unfold R; lia).
    clearbody R.
    pose proof (halfwidth_spec R) as Hk.
    assert (Hw : (2 <= kernel_width [] 1 (Some R))%Z).
    { unfold kernel_width. cbv beta iota zeta. lia. }
    destruct (@smooth_ok [] 1%Z (Some R) [vone]) as (? & ? & _ & _ & E);
      [lia | discriminate |].
    pose proof (H R ltac:(lia) _ _ _ E) as Eid.
    apply smooth_length in E. destruct E as [_ E].
    rewrite Eid in E. change (length [vone]) with 1 in E. lia.
Qed.

(** C8 (amended).  When the window width [padding * k + 1] is 1, which for
    [padding = 1] means [k = ceil(reference_length / 100) = 0], the smoother
    is the identity on a non-empty [y]. *)
Theorem smooth_identity_width_one (x y : list val) (padding : Z) (a_range : option Z) :
  kernel_width x padding a_range = 1%Z -> y <> [] ->
  smooth_reward_curve x y padding a_range = Ok (x, y).
Proof. apply smooth_width_one. Qed.

Lemma smooth_identity_width_one_witness :
  smooth_reward_curve [lit 1; lit 2] [lit 5; NaN] 1 (Some 0%Z)
  = Ok ([lit 1; lit 2], [lit 5; NaN]).
Proof.
  apply (@smooth_identity_width_one [lit 1; lit 2] [lit 5; NaN] 1%Z (Some 0%Z)).
  - reflexivity.
  - discriminate.
Defined.

(** C10.  With a reference length supplied, the smoothed y (or the exception
    raised) is the same for any two x inputs. *)
Theorem smooth_y_independent_of_x (x x' y : list val) (padding r : Z) :
  smoothed_y (smooth_reward_curve x y padding (Some r)) =
  smoothed_y (smooth_reward_curve x' y padding (Some r)).
Proof.
  rewrite !smooth_unfold.
  change (kernel_width x' padding (Some r)) with (kernel_width x padding (Some r)).
  destruct (Np.ones _); [|reflexivity]. simpl.
  destruct (Np.convolve_same y _); [|reflexivity]. simpl.
  destruct (Np.convolve_same _ _); reflexivity.
Qed.

(** Without a reference length, [x] matters through its length only. *)
Lemma smooth_y_depends_on_length_of_x (x x' y : list val) (padding : Z) :
  length x = length x' ->
  smoothed_y (smooth_reward_curve x y padding None) =
  smoothed_y (smooth_reward_curve x' y padding None).
Proof.
  intros E. rewrite !smooth_unfold.
  replace (kernel_width x' padding None) with (kernel_width x padding None)
    by (unfold kernel_width; now rewrite E).
  destruct (Np.ones _); [|reflexivity]. simpl.
  destruct (Np.convolve_same y _); [|reflexivity]. simpl.
  destruct (Np.convolve_same _ _); reflexivity.
Qed.

(** ** The aligner *)

Lemma combine_seq_snoc {A} (l : list A) (a : A) (s : nat) :
  combine (seq s (length (l ++ [a]))) (l ++ [a])
  = combine (seq s (length l)) l ++ [(s + length l, a)].
Proof.
  revert s. induction l as [|b l IH]; intros s; simpl.
  - now rewrite Nat.add_0_r.
  - f_equal. rewrite IH. do 3 f_equal. lia.
Qed.

Lemma enumerate_snoc {A} (l : list A) (a : A) :
  enumerate (l ++ [a]) = enumerate l ++ [(length l, a)].
Proof. unfold enumerate. now rewrite combine_seq_snoc. Qed.

Lemma pad_loop_inv (maxlen : nat) (value : val) (xs : list ndarray) :
  pad_inv maxlen value xs
    (fold_left (pad_step maxlen value) (enumerate xs) ([], (-1)%Z, 0%Z)).
Proof.
  induction xs as [|x xs IH] using rev_ind.
  - simpl. split; [reflexivity|]. left. repeat split. intros x [].
  - rewrite enumerate_snoc, fold_left_app. simpl.
    destruct (fold_left _ (enumerate xs) _) as [[padded index] max_index].
    destruct IH as [-> IH]. unfold pad_step, pad_inv.
    destruct (Nat.leb_spec maxlen (len x)) as [Hge|Hlt].
    + split.
      { rewrite map_app. simpl. unfold pad_row.
        destruct (Nat.leb_spec maxlen (len x)); [reflexivity | lia]. }
      right. exists (length xs), x. repeat split; try assumption.
      * rewrite nth_error_app2 by lia. now rewrite Nat.sub_diag.
      * intros j x' Hj E.
        assert (nth_error (xs ++ [x]) j = None).
        { apply nth_error_None. rewrite length_app. simpl. lia. }
        congruence.
    + split.
      { rewrite map_app. simpl. unfold pad_row.
        destruct (Nat.leb_spec maxlen (len x)); [lia | reflexivity]. }
      destruct IH as [(-> & -> & Hall) | (i & x0 & -> & -> & Hi & Hlen & Hlast)].
      * left. repeat split. intros x' Hin. apply in_app_or in Hin.
        destruct Hin as [Hin|[<-|[]]]; auto.
      * right. exists i, x0. repeat split; try assumption.
        { rewrite nth_error_app1; [assumption|].
          apply nth_error_Some. congruence. }
        intros j x' Hj E.
        destruct (Nat.lt_ge_cases j (length xs)) as [Hjl|Hjl].
        { rewrite nth_error_app1 in E by assumption. eauto. }
        rewrite nth_error_app2 in E by assumption.
        destruct (j - length xs) as [|[|?]]; simpl in E; congruence.
Qed.

Lemma max_len_ge (xs : list ndarray) (x : ndarray) :
  In x xs -> len x <= max_len xs.
Proof.
  unfold max_len. induction xs as [|y xs IH]; simpl; [intros []|].
  intros [->|Hin]; [lia|]. specialize (IH Hin). lia.
Qed.

Lemma max_len_attained (xs : list ndarray) :
  xs <> [] -> exists x, In x xs /\ len x = max_len xs.
Proof.
  unfold max_len. induction xs as [|y xs IH]; [congruence|]. intros _.
  destruct xs as [|z xs].
  - exists y. simpl. split; [auto | lia].
  - destruct IH as (x & Hin & E); [discriminate|].
    change (fold_right Nat.max 0 (map len (y :: z :: xs)))
      with (Nat.max (len y) (fold_right Nat.max 0 (map len (z :: xs)))).
    destruct (Nat.le_ge_cases (len y) (fold_right Nat.max 0 (map len (z :: xs)))).
    + exists x. split; [now right | lia].
    + exists y. split; [now left | lia].
Qed.

(** For arrays with trailing shape [t] no longer than [L], the row appended
    by the loop is the row the specification describes. *)
Lemma pad_row_padded_row (L : nat) (t : list nat) (value : val) (x : ndarray) :
  has_trailing t x -> len x <= L ->
  pad_row L value x = padded_row L t value x.
Proof.
  intros [Hs Hd] Hle. unfold pad_row, padded_row.
  destruct (Nat.leb_spec L (len x)) as [Hge|Hlt].
  - assert (E : len x = L) by lia. rewrite <- E at 1 2.
    rewrite Nat.sub_diag. simpl. rewrite app_nil_r.
    destruct x as [s d]. simpl in *. now rewrite Hs.
  - unfold Np.concatenate, Np.ones_times. simpl.
    rewrite Hs. simpl. f_equal; [f_equal; unfold len; rewrite Hs; simpl; lia|].
    f_equal. rewrite map_repeat, vmul_one_l. reflexivity.
Qed.

Lemma padded_row_data_length (L : nat) (t : list nat) (value : val) (x : ndarray) :
  has_trailing t x -> len x <= L ->
  length (data (padded_row L t value x)) = L * prod t.
Proof.
  intros [_ Hd] Hle. simpl. rewrite length_app, repeat_length, Hd. nia.
Qed.

Lemma array_same_shape (s : list nat) (rows : list ndarray) :
  rows <> [] -> Forall (fun r => shape r = s) rows ->
  Np.array rows = Ok (mk_nd (length rows :: s) (concat (map data rows))).
Proof.
  intros Hne Hall. unfold Np.array.
  destruct rows as [|r rows]; [congruence|].
  assert (Hr : shape r = s) by (now inversion Hall).
  replace (forallb _ (r :: rows)) with true; [now rewrite Hr|].
  symmetry. apply forallb_forall. intros r' Hin.
  rewrite Forall_forall in Hall. rewrite (Hall _ Hin), Hr.
  unfold Np.shape_eqb. destruct (list_eq_dec Nat.eq_dec s s); congruence.
Qed.

(** Row [i] of a block whose rows all have [P] elements. *)
Lemma concat_row {A} (P : nat) (rows : list (list A)) (i : nat) (r : list A) :
  Forall (fun r => length r = P) rows ->
  nth_error rows i = Some r ->
  firstn P (skipn (i * P) (concat rows)) = r.
Proof.
  intros Hall. revert i. induction Hall as [|r0 rows Hr0 Hall IH]; intros i E.
  - destruct i; discriminate.
  - destruct i as [|i]; simpl in E |- *.
    + injection E as <-. rewrite firstn_app, Hr0, Nat.sub_diag. simpl.
      rewrite app_nil_r. apply firstn_all2. lia.
    + rewrite skipn_app, Hr0.
      replace (P + i * P - P) with (i * P) by lia.
      rewrite skipn_all2 by lia. simpl. now apply IH.
Qed.

Lemma getitem_row (s : list nat) (rows : list (list val)) (i : nat) (r : list val) :
  Forall (fun r => length r = prod s) rows ->
  nth_error rows i = Some r ->
  Np.getitem (mk_nd (length rows :: s) (concat rows)) (Z.of_nat i) = Ok (mk_nd s r).
Proof.
  intros Hall E.
  assert (Hi : i < length rows) by (apply nth_error_Some; congruence).
  unfold Np.getitem. simpl shape. cbv beta iota zeta.
  destruct (Z.ltb_spec (Z.of_nat i) 0) as [Hneg|_]; [lia|].
  destruct (Z.leb_spec 0 (Z.of_nat i)) as [_|Hneg]; [|lia].
  destruct (Z.ltb_spec (Z.of_nat i) (Z.of_nat (length rows))) as [_|Hge]; [|lia].
  simpl. rewrite Nat2Z.id. now rewrite (concat_row i Hall E).
Qed.

(** What [pad] returns on a non-empty collection of arrays that share their
    trailing shape. *)
Lemma pad_spec (xs : list ndarray) (value : val) (t : list nat) :
  xs <> [] -> Forall (has_trailing t) xs ->
  exists i,
    is_last_longest xs i /\
    pad xs value =
      Ok (mk_nd (length xs :: max_len xs :: t)
                (concat (map (fun x => data (padded_row (max_len xs) t value x)) xs)),
          Z.of_nat i, Z.of_nat i).
Proof.
  intros Hne Hall. unfold pad.
  assert (Hmax : Np.max (map len xs) = Ok (max_len xs)).
  { destruct xs; [congruence | reflexivity]. }
  rewrite Hmax. simpl bind.
  pose proof (pad_loop_inv (max_len xs) value xs) as Hinv.
  destruct (fold_left _ _ _) as [[padded index] max_index].
  destruct Hinv as [-> Hidx].
  destruct Hidx as [(_ & _ & Hlt) | (i & x & -> & -> & Hi & Hlen & Hlast)].
  { destruct (max_len_attained Hne) as (x & Hin & E).
    specialize (Hlt x Hin). lia. }
  exists i. split.
  { split; [|exact Hlast]. exists x. split; [exact Hi|].
    pose proof (max_len_ge xs x (nth_error_In _ _ Hi)). lia. }
  rewrite (map_ext_in _ (padded_row (max_len xs) t value)).
  2:{ intros y Hin. rewrite Forall_forall in Hall.
      apply pad_row_padded_row; [now apply Hall | now apply max_len_ge]. }
  rewrite (@array_same_shape (max_len xs :: t)).
  - now rewrite length_map, map_map.
  - destruct xs; [congruence | discriminate].
  - apply Forall_forall. intros r Hin. apply in_map_iff in Hin.
    now destruct Hin as (y & <- & _).
Qed.

Lemma padded_rows_length (xs : list ndarray) (value : val) (t : list nat) :
  Forall (has_trailing t) xs ->
  Forall (fun r => length r = prod (max_len xs :: t))
    (map (fun x => data (padded_row (max_len xs) t value x)) xs).
Proof.
  intros Hall. apply Forall_forall. intros r Hin.
  apply in_map_iff in Hin. destruct Hin as (x & <- & Hin).
  rewrite Forall_forall in Hall.
  apply padded_row_data_length; [now apply Hall | now apply max_len_ge].
Qed.

(** The renderer accepts a line and a band over sequences of one length. *)
Lemma render_ok (n : nat) :
  Plt.plot [n] [n] = Ok tt /\ Plt.fill_between [n] [n] [n] = Ok tt.
Proof.
  unfold Plt.plot, Plt.fill_between, Plt.broadcast.
  cbn [Plt.atleast_1d Plt.ncols hd length].
  rewrite Nat.eqb_refl. split; [reflexivity|].
  cbn [Nat.ltb Nat.leb orb bind]. now rewrite Nat.eqb_refl.
Qed.

(** It refuses a line whose x and y differ in their first dimension. *)
Lemma plot_mismatch (n n' : nat) (t t' : list nat) :
  n <> n' -> Plt.plot (n :: t) (n' :: t') = Raise ValueError.
Proof.
  intros Hn. unfold Plt.plot. cbn [Plt.atleast_1d hd].
  destruct (Nat.eqb_spec n n'); [contradiction | reflexivity].
Qed.

(** It refuses a band over arrays of more than one axis. *)
Lemma fill_between_not_1d (x y1 y2 : list nat) :
  1 < length y1 -> Plt.fill_between x y1 y2 = Raise ValueError.
Proof.
  intros H. unfold Plt.fill_between.
  destruct (Nat.ltb_spec 1 (length y1)) as [_|H']; [|lia].
  now rewrite orb_true_r.
Qed.

(** The renderer raises nothing but [ValueError]. *)
Lemma plot_cases (x y : list nat) :
  Plt.plot x y = Ok tt \/ Plt.plot x y = Raise ValueError.
Proof.
  unfold Plt.plot.
  destruct (negb _); [now right|].
  destruct (_ || _); [now right|].
  destruct (_ && _); [now right | now left].
Qed.

Lemma fill_between_cases (x y1 y2 : list nat) :
  Plt.fill_between x y1 y2 = Ok tt \/ Plt.fill_between x y1 y2 = Raise ValueError.
Proof.
  unfold Plt.fill_between, Plt.broadcast.
  destruct (_ || _); [now right|].
  repeat match goal with
         | |- context [if ?b then _ else _] => destruct b; cbn [bind]
         end; auto.
Qed.

(** The curve of [plot_with_iqr] from the results of its steps. *)
Lemma plot_with_iqr_steps (xs ys : list ndarray) (bx by_ : ndarray)
  (i mi j mj : Z) (m q1 q3 xl : ndarray) (n : nat) :
  pad xs NaN = Ok (bx, i, mi) ->
  pad ys NaN = Ok (by_, j, mj) ->
  Np.nanmedian by_ = Ok m ->
  Np.nanpercentile by_ (of_nat 25) = Ok q1 ->
  Np.nanpercentile by_ (of_nat 75) = Ok q3 ->
  Np.getitem bx i = Ok xl ->
  shape xl = [n] -> shape m = [n] -> shape q1 = [n] -> shape q3 = [n] ->
  plot_with_iqr xs ys = Ok (mk_curve xl m q1 q3).
Proof.
  intros E1 E2 E3 E4 E5 E6 Sx Sm S1 S3. unfold plot_with_iqr.
  rewrite E1. cbn [bind]. rewrite E2. cbn [bind].
  rewrite E3. cbn [bind]. rewrite E4. cbn [bind].
  rewrite E5. cbn [bind]. rewrite E6. cbn [bind].
  rewrite Sx, Sm, S1, S3.
  destruct (render_ok n) as [-> ->]. reflexivity.
Qed.

(** The steps of [plot_with_iqr] when [plt.plot] refuses the line. *)
Lemma plot_with_iqr_steps_refused (xs ys : list ndarray) (bx by_ : ndarray)
  (i mi j mj : Z) (m q1 q3 xl : ndarray) :
  pad xs NaN = Ok (bx, i, mi) ->
  pad ys NaN = Ok (by_, j, mj) ->
  Np.nanmedian by_ = Ok m ->
  Np.nanpercentile by_ (of_nat 25) = Ok q1 ->
  Np.nanpercentile by_ (of_nat 75) = Ok q3 ->
  Np.getitem bx i = Ok xl ->
  Plt.plot (shape xl) (shape m) = Raise ValueError ->
  plot_with_iqr xs ys = Raise ValueError.
Proof.
  intros E1 E2 E3 E4 E5 E6 Ep. unfold plot_with_iqr.
  rewrite E1. cbn [bind]. rewrite E2. cbn [bind].
  rewrite E3. cbn [bind]. rewrite E4. cbn [bind].
  rewrite E5. cbn [bind]. rewrite E6. cbn [bind].
  now rewrite Ep.
Qed.

(** Whenever [plot_with_iqr] returns, its x-sequence is row [index] of the
    padded x block. *)
Lemma plot_with_iqr_curve_x (xs ys : list ndarray) (bx : ndarray) (i mi : Z)
  (xl : ndarray) (c : SummaryCurve) :
  pad xs NaN = Ok (bx, i, mi) ->
  Np.getitem bx i = Ok xl ->
  plot_with_iqr xs ys = Ok c -> curve_x c = xl.
Proof.
  intros Ep Eg E. unfold plot_with_iqr in E.
  rewrite Ep in E. cbn [bind] in E.
  destruct (pad ys NaN) as [[[ys' ?] ?]|]; cbn [bind] in E; [|discriminate].
  destruct (Np.nanmedian ys'); cbn [bind] in E; [|discriminate].
  destruct (Np.nanpercentile ys' (of_nat 25)); cbn [bind] in E; [|discriminate].
  destruct (Np.nanpercentile ys' (of_nat 75)); cbn [bind] in E; [|discriminate].
  rewrite Eg in E. cbn [bind] in E.
  destruct (Plt.plot _ _); cbn [bind] in E; [|discriminate].
  destruct (Plt.fill_between _ _ _); cbn [bind] in E; [|discriminate].
  injection E as <-. reflexivity.
Qed.

Lemma apply_along_axis0_shape (f : list val -> val) (n : nat) (rest : list nat) (d : list val) :
  exists r, Np.apply_along_axis0 f (mk_nd (n :: rest) d) = Ok r /\ shape r = rest.
Proof. unfold Np.apply_along_axis0. simpl. eauto. Qed.

Lemma nanmedian_shape (n : nat) (rest : list nat) (d : list val) :
  exists r, Np.nanmedian (mk_nd (n :: rest) d) = Ok r /\ shape r = rest.
Proof.
  unfold Np.nanmedian. destruct (_ <? 600); apply apply_along_axis0_shape.
Qed.

(** ** Properties of the aligner *)

(** C1 as stated fails: of two sequences of the same, maximal length the
    loop keeps the index of the second, and the curve takes its x-sequence
    from that run. *)
Lemma pad_index_not_first :
  let xs := [arr1 [lit 1; lit 2]; arr1 [lit 3; lit 4]] in
  first_longest xs = 0 /\
  (exists arr, pad xs NaN = Ok (arr, 1%Z, 1%Z)) /\
  (exists c, plot_with_iqr xs xs = Ok c /\ curve_x c = arr1 [lit 3; lit 4]).
Proof.
  intros xs. split; [reflexivity|]. split.
  - eexists. vm_compute. reflexivity.
  - eexists. split; vm_compute; reflexivity.
Qed.

(** C1 (amended).  On a non-empty collection the returned index is the index
    of the last sequence whose length is the maximum [L]; that row of the
    padded block is the sequence itself.  Whenever [plot_with_iqr] returns,
    that sequence is the x-sequence of its curve; and it does return for
    plain sequences when the longest x and the longest y have one length
    (otherwise the renderer refuses them). *)
Theorem pad_index_last_longest (xs : list ndarray) (t : list nat) :
  xs <> [] -> Forall (has_trailing t) xs ->
  exists i x,
    nth_error xs i = Some x /\
    is_last_longest xs i /\
    (forall value, exists arr,
        pad xs value = Ok (arr, Z.of_nat i, Z.of_nat i) /\
        Np.getitem arr (Z.of_nat i) = Ok x) /\
    (forall ys c, plot_with_iqr xs ys = Ok c -> curve_x c = x) /\
    (t = [] ->
     forall ys, ys <> [] -> Forall (has_trailing []) ys ->
       (max_len ys = max_len xs ->
        exists c, plot_with_iqr xs ys = Ok c /\ curve_x c = x) /\
       (max_len ys <> max_len xs ->
        plot_with_iqr xs ys = Raise ValueError)).
Proof.
  intros Hne Hall.
  destruct (pad_spec NaN Hne Hall) as (i & Hlast & _).
  pose proof Hlast as [(x & Hi & Hlen) _].
  exists i, x. split; [exact Hi|]. split; [exact Hlast|].
  assert (Hshape : shape x = max_len xs :: t).
  { rewrite Forall_forall in Hall.
    destruct (Hall x (nth_error_In _ _ Hi)) as [Hs _]. now rewrite Hs, Hlen. }
  assert (Hrow : forall value, padded_row (max_len xs) t value x = x).
  { intros value. rewrite Forall_forall in Hall.
    destruct (Hall x (nth_error_In _ _ Hi)) as [Hs Hd].
    unfold padded_row. rewrite Hlen, Nat.sub_diag. simpl. rewrite app_nil_r.
    destruct x as [s d]. simpl in *. now rewrite Hs, Hlen. }
  assert (Hpad : forall value, exists arr,
             pad xs value = Ok (arr, Z.of_nat i, Z.of_nat i) /\
             Np.getitem arr (Z.of_nat i) = Ok x).
  { intros value.
    destruct (pad_spec value Hne Hall) as (i' & Hlast' & E).
    assert (i' = i).
    { destruct Hlast as [(x1 & H1 & L1) N1], Hlast' as [(x2 & H2 & L2) N2].
      destruct (Nat.lt_trichotomy i i') as [Hlt|[Heq|Hlt]]; [|auto|].
      - specialize (N1 _ _ Hlt H2). lia.
      - specialize (N2 _ _ Hlt H1). lia. }
    subst i'. eexists. split; [exact E|].
    pose proof (@getitem_row (max_len xs :: t) _ i
                  (data (padded_row (max_len xs) t value x))
                  (padded_rows_length value Hall)) as G.
    rewrite length_map in G. rewrite G by (now rewrite nth_error_map, Hi).
    transitivity (Ok (padded_row (max_len xs) t value x));
      [reflexivity | now rewrite Hrow]. }
  split; [exact Hpad|].
  destruct (Hpad NaN) as (arr & Ep & Eg).
  split.
  { intros ys c E. eapply plot_with_iqr_curve_x; eassumption. }
  intros -> ys Hney Hally.
  destruct (pad_spec NaN Hney Hally) as (j & _ & Ey).
  destruct (nanmedian_shape (length ys) [max_len ys]
              (concat (map (fun y => data (padded_row (max_len ys) [] NaN y)) ys)))
    as (m & Em & Sm).
  destruct (apply_along_axis0_shape (Np.nanpercentile_1d (of_nat 25)) (length ys)
              [max_len ys]
              (concat (map (fun y => data (padded_row (max_len ys) [] NaN y)) ys)))
    as (q1 & E1 & S1).
  destruct (apply_along_axis0_shape (Np.nanpercentile_1d (of_nat 75)) (length ys)
              [max_len ys]
              (concat (map (fun y => data (padded_row (max_len ys) [] NaN y)) ys)))
    as (q3 & E3 & S3).
  split.
  - intros Hsame. exists (mk_curve x m q1 q3). split; [|reflexivity].
    eapply (@plot_with_iqr_steps xs ys _ _ _ _ _ _ m q1 q3 x (max_len xs));
      [exact Ep | exact Ey | exact Em | exact E1 | exact E3 | exact Eg
      | exact Hshape | | | ]; congruence.
  - intros Hdiff.
    eapply plot_with_iqr_steps_refused;
      [exact Ep | exact Ey | exact Em | exact E1 | exact E3 | exact Eg |].
    rewrite Hshape, Sm. apply plot_mismatch. congruence.
Qed.

Lemma pad_index_last_longest_witness :
  let xs := [arr1 [lit 1; lit 2]; arr1 [lit 3]; arr1 [lit 4; lit 5]; arr1 []] in
  exists i x,
    nth_error xs i = Some x /\
    is_last_longest xs i /\
    (forall value, exists arr,
        pad xs value = Ok (arr, Z.of_nat i, Z.of_nat i) /\
        Np.getitem arr (Z.of_nat i) = Ok x) /\
    (forall ys c, plot_with_iqr xs ys = Ok c -> curve_x c = x) /\
    (@nil nat = [] ->
     forall ys, ys <> [] -> Forall (has_trailing []) ys ->
       (max_len ys = max_len xs ->
        exists c, plot_with_iqr xs ys = Ok c /\ curve_x c = x) /\
       (max_len ys <> max_len xs ->
        plot_with_iqr xs ys = Raise ValueError)).
Proof.
  apply (@pad_index_last_longest
           [arr1 [lit 1; lit 2]; arr1 [lit 3]; arr1 [lit 4; lit 5]; arr1 []] []).
  - discriminate.
  - repeat constructor.
Defined.

(** C4 as stated fails: the code has no error kind for an empty collection.
    [pad] does not test for one; what is raised is numpy's [ValueError],
    the exception that [pad] also raises for a collection that is not empty
    but whose arrays differ in trailing shape, and that [plot_with_iqr]
    raises for blocks that do not fit (the specification's [ShapeMismatch]).
    So no reading of the code's exceptions as the specification's error
    kinds reports [EmptyInput] for the one and [ShapeMismatch] for the
    other. *)
Lemma pad_empty_input_has_no_kind :
  let ragged := [arr1 [lit 1]; mk_nd [1; 2] [lit 1; lit 2]] in
  let line := [arr1 [lit 1]] in
  let band := [arr1 [lit 1; lit 2]] in
  pad [] NaN = Raise ValueError /\
  pad ragged NaN = Raise ValueError /\
  plot_with_iqr line band = Raise ValueError /\
  ~ (exists kind_of : exn -> error_kind,
       (forall e, pad [] NaN = Raise e -> kind_of e = EmptyInput) /\
       (forall e, plot_with_iqr line band = Raise e -> kind_of e = ShapeMismatch)).
Proof.
  intros ragged line band.
  assert (E : plot_with_iqr line band = Raise ValueError)
    by (vm_compute; reflexivity).
  split; [reflexivity|]. split; [vm_compute; reflexivity|]. split; [exact E|].
  intros (kind_of & H1 & H2).
  specialize (H1 ValueError eq_refl). specialize (H2 ValueError E).
  congruence.
Qed.

Lemma pad_cases (xs : list ndarray) (value : val) :
  (exists r, pad xs value = Ok r) \/ pad xs value = Raise ValueError.
Proof.
  unfold pad. destruct xs as [|x xs]; [now right|].
  cbn [map Np.max bind].
  destruct (fold_left _ _ _) as [[padded index] max_index].
  unfold Np.array. destruct padded as [|r padded]; [left; eexists; reflexivity|].
  destruct (forallb _ _); cbn [bind]; [left; eexists; reflexivity | now right].
Qed.

(** C4 (amended).  On an empty collection [pad] fails with [ValueError]: it
    is [np.max] of the empty list of lengths that raises, before anything
    else is done.  [ValueError] is the only exception [pad] raises, and a
    collection that is not empty can raise it too. *)
Theorem pad_empty_input (value : val) :
  Np.max (map len []) = Raise ValueError /\
  pad [] value = Raise ValueError /\
  (forall xs, (exists r, pad xs value = Ok r) \/ pad xs value = Raise ValueError) /\
  (exists xs, xs <> [] /\ pad xs value = Raise ValueError).
Proof.
  split; [reflexivity|]. split; [reflexivity|].
  split; [intros xs; apply pad_cases|].
  exists [arr1 [lit 1]; mk_nd [1; 2] [lit 1; lit 2]].
  split; [discriminate | reflexivity].
Qed.

(** C6.  For a non-empty collection of [N] arrays with trailing shape [t]
    ([t = []] for plain sequences) the padded block has shape [N; L] followed
    by [t], [L] the maximum length, and row [i] holds the entries of the
    [i]-th input followed by the sentinel: only the leading axis grows. *)
Theorem pad_block_rows (xs : list ndarray) (value : val) (t : list nat) :
  xs <> [] -> Forall (has_trailing t) xs ->
  exists arr index max_index,
    pad xs value = Ok (arr, index, max_index) /\
    shape arr = length xs :: max_len xs :: t /\
    forall i x, nth_error xs i = Some x ->
      Np.getitem arr (Z.of_nat i)
      = Ok (mk_nd (max_len xs :: t)
                  (data x ++ repeat value ((max_len xs - len x) * prod t))).
Proof.
  intros Hne Hall.
  destruct (pad_spec value Hne Hall) as (k & _ & E).
  do 3 eexists. split; [exact E|]. split; [reflexivity|].
  intros i x Hi.
  pose proof (@getitem_row (max_len xs :: t) _ i
                (data (padded_row (max_len xs) t value x))
                (padded_rows_length value Hall)) as G.
  rewrite length_map in G. apply G. now rewrite nth_error_map, Hi.
Qed.

Lemma pad_block_rows_witness :
  let xs := [mk_nd [1; 2] [lit 1; lit 2];
             mk_nd [3; 2] [lit 3; lit 4; lit 5; lit 6; lit 7; lit 8]] in
  exists arr index max_index,
    pad xs NaN = Ok (arr, index, max_index) /\
    shape arr = [2; 3; 2] /\
    forall i x, nth_error xs i = Some x ->
      Np.getitem arr (Z.of_nat i)
      = Ok (mk_nd [3; 2] (data x ++ repeat NaN ((3 - len x) * 2))).
Proof.
  apply (@pad_block_rows
           [mk_nd [1; 2] [lit 1; lit 2];
            mk_nd [3; 2] [lit 3; lit 4; lit 5; lit 6; lit 7; lit 8]] NaN [2]).
  - discriminate.
  - repeat constructor.
Defined.

(** ** Sorting and the statistics of one column *)

Lemma vleb_total (a b : val) : vleb a b = true \/ vleb b a = true.
Proof.
  destruct a as [|p], b as [|q]; simpl; auto.
  destruct (Qle_bool (this p) (this q)) eqn:E; [now left | right].
  apply Qle_bool_iff. apply Qlt_le_weak. apply Qnot_le_lt.
  intros H. apply Qle_bool_iff in H. congruence.
Qed.

Lemma insert_perm (v : val) (l : list val) : Permutation (v :: l) (Np.insert v l).
Proof.
  induction l as [|w l IH]; simpl; [reflexivity|].
  destruct (vleb v w); [reflexivity|].
  rewrite perm_swap. now constructor.
Qed.

(** The order statistics are those of the values that were given. *)
Lemma sort_perm (l : list val) : Permutation l (Np.sort l).
Proof.
  induction l as [|v l IH]; simpl; [constructor|].
  rewrite <- insert_perm. now constructor.
Qed.

Lemma insert_sorted (v : val) (l : list val) :
  Sorted (fun a b => vleb a b = true) l ->
  Sorted (fun a b => vleb a b = true) (Np.insert v l).
Proof.
  induction 1 as [|w l Hs IH Hd]; simpl.
  - repeat constructor.
  - destruct (vleb v w) eqn:E.
    + repeat constructor; assumption.
    + constructor; [assumption|].
      destruct (vleb_total v w) as [H|H]; [congruence|].
      destruct l as [|u l]; simpl.
      * now constructor.
      * inversion Hd; subst. destruct (vleb v u); now constructor.
Qed.

Lemma sort_sorted (l : list val) : Sorted (fun a b => vleb a b = true) (Np.sort l).
Proof.
  induction l as [|v l IH]; simpl; [constructor|].
  now apply insert_sorted.
Qed.

Lemma insert_length (v : val) (l : list val) :
  length (Np.insert v l) = S (length l).
Proof.
  induction l as [|w l IH]; simpl; [reflexivity|].
  destruct (vleb v w); simpl; congruence.
Qed.

Lemma sort_length (l : list val) : length (Np.sort l) = length l.
Proof.
  induction l as [|v l IH]; simpl; [reflexivity|].
  now rewrite insert_length, IH.
Qed.

Lemma insert_Forall (P : val -> Prop) (v : val) (l : list val) :
  P v -> Forall P l -> Forall P (Np.insert v l).
Proof.
  intros Hv Hl. induction Hl as [|w l Hw Hl IH]; simpl.
  - auto.
  - destruct (vleb v w); auto.
Qed.

Lemma sort_Forall (P : val -> Prop) (l : list val) :
  Forall P l -> Forall P (Np.sort l).
Proof.
  induction 1 as [|v l Hv Hl IH]; simpl; [constructor|].
  now apply insert_Forall.
Qed.

Lemma remove_nan_Forall (l : list val) :
  Forall (fun v => isnan v = false) (Np.remove_nan l).
Proof.
  apply Forall_forall. intros v Hin. apply filter_In in Hin.
  destruct Hin as [_ H]. now apply negb_true_iff in H.
Qed.

Lemma nth_num (s : list val) (i : nat) :
  Forall (fun v => isnan v = false) s -> i < length s ->
  exists q, nth i s NaN = Num q.
Proof.
  intros Hall Hi.
  rewrite Forall_forall in Hall.
  specialize (Hall (nth i s NaN) (nth_In s NaN Hi)).
  destruct (nth i s NaN) as [|q]; [discriminate | eauto].
Qed.

Lemma firstn_1_skipn {A} (i : nat) (l : list A) (d : A) :
  i < length l -> firstn 1 (skipn i l) = [nth i l d].
Proof.
  revert i. induction l as [|a l IH]; intros i Hi; simpl in Hi; [lia|].
  destruct i as [|i]; simpl; [reflexivity|]. apply IH. lia.
Qed.

Lemma firstn_2_skipn {A} (i : nat) (l : list A) (d : A) :
  S i < length l -> firstn 2 (skipn i l) = [nth i l d; nth (S i) l d].
Proof.
  revert i. induction l as [|a l IH]; intros i Hi; simpl in Hi; [lia|].
  destruct i as [|i].
  - destruct l; simpl in *; [lia | reflexivity].
  - change (skipn (S i) (a :: l)) with (skipn i l).
    change (nth (S i) (a :: l) d) with (nth i l d).
    change (nth (S (S i)) (a :: l) d) with (nth (S i) l d).
    apply IH. lia.
Qed.

Lemma mean_one (v : val) : Np.mean [v] = v.
Proof. apply (mean_of_copies v (m := 1)). lia. Qed.

Lemma mean_two (a b : val) :
  Np.mean [a; b] = vdiv (vadd a b) (Num (of_nat 2)).
Proof. unfold Np.mean, Np.vsum. cbn [fold_left length]. now rewrite vadd_zero_l. Qed.

(** numpy's median of a non-empty array is the median of its sorted
    values. *)
Lemma median_spec (l : list val) :
  l <> [] -> Np.median l = spec_median (Np.sort l).
Proof.
  intros Hne. unfold Np.median, spec_median. rewrite sort_length.
  assert (Hlen : 0 < length l) by (destruct l; [congruence | simpl; lia]).
  rewrite <- Nat.negb_even.
  destruct (Nat.even (length l)) eqn:Ev; simpl negb; cbv iota.
  - apply Nat.even_spec in Ev. destruct Ev as [h Eh].
    assert (Hh : length l / 2 = h) by (rewrite Eh, Nat.mul_comm; apply Nat.div_mul; lia).
    rewrite Hh.
    rewrite (@firstn_2_skipn _ (h - 1) (Np.sort l) NaN) by (rewrite sort_length; lia).
    replace (S (h - 1)) with h by lia. apply mean_two.
  - rewrite (@firstn_1_skipn _ (length l / 2) (Np.sort l) NaN).
    + apply mean_one.
    + rewrite sort_length. apply Nat.div_lt; lia.
Qed.

Lemma sort_nil_iff (l : list val) : Np.sort l = [] <-> l = [].
Proof.
  split; [|now intros ->].
  intros E. apply (f_equal (@length val)) in E. rewrite sort_length in E.
  destruct l; [reflexivity | discriminate].
Qed.

(** The median of a column is computed from its entries that are not
    not-a-number, and is not-a-number when there is none. *)
Lemma nanmedian_1d_spec (col : list val) :
  Np.nanmedian_1d col = column_stat spec_median col.
Proof.
  unfold Np.nanmedian_1d, column_stat, valid_sorted.
  fold (Np.remove_nan col).
  destruct (Np.remove_nan col) as [|v parsed] eqn:E; [reflexivity|].
  rewrite median_spec by discriminate.
  destruct (Np.sort (v :: parsed)) eqn:Es; [|reflexivity].
  apply (proj1 (sort_nil_iff _)) in Es. discriminate.
Qed.

(** The masked median of a column is, in exact arithmetic, the median that
    [_nanmedian1d] computes: both ways of [np.nanmedian] give one result. *)
Lemma ma_median_1d_spec (col : list val) :
  Np.ma_median_1d col = Np.nanmedian_1d col.
Proof.
  rewrite nanmedian_1d_spec.
  unfold Np.ma_median_1d, column_stat, valid_sorted.
  fold (Np.remove_nan col).
  pose proof (sort_Forall (remove_nan_Forall col)) as Hnum.
  destruct (Np.sort (Np.remove_nan col)) as [|v s] eqn:Es; [reflexivity|].
  rewrite <- Es in *. set (srt := Np.sort (Np.remove_nan col)) in *.
  assert (Hlen : 0 < length srt) by (rewrite Es; simpl; lia).
  destruct (Nat.eqb_spec (length srt) 0) as [E0|_]; [lia|].
  unfold spec_median. rewrite <- Nat.negb_even.
  destruct (Nat.even (length srt)) eqn:Ev; simpl negb; cbv iota; [reflexivity|].
  destruct (@nth_num srt (length srt / 2) Hnum) as [q ->];
    [apply Nat.div_lt; lia|].
  simpl. destruct (Qc_eq_dec (of_nat 2) 0) as [E|_]; [discriminate E|].
  f_equal. replace (of_nat 2) with (1 + 1)%Qc by (apply Qc_is_canon; reflexivity).
  field. qc_discr.
Qed.

Lemma nanmedian_unfold (a : ndarray) :
  Np.nanmedian a = Np.apply_along_axis0 Np.nanmedian_1d a.
Proof.
  unfold Np.nanmedian. destruct (_ <? 600); [|reflexivity].
  unfold Np.apply_along_axis0. destruct (shape a) as [|n rest]; [reflexivity|].
  do 2 f_equal. apply map_ext. intros p. apply ma_median_1d_spec.
Qed.

(** ** Floors and ceilings of rationals *)

Lemma of_Z_le (a b : Z) : (of_Z a <= of_Z b)%Qc <-> (a <= b)%Z.
Proof.
  unfold Qcle, of_Z. cbn [this Q2Qc]. rewrite !Qred_correct.
  rewrite <- Zle_Qle. reflexivity.
Qed.

Lemma of_Z_lt (a b : Z) : (of_Z a < of_Z b)%Qc <-> (a < b)%Z.
Proof.
  unfold Qclt, of_Z. cbn [this Q2Qc]. rewrite !Qred_correct.
  rewrite <- Zlt_Qlt. reflexivity.
Qed.

Lemma qfloor_bounds (h : Qc) :
  (of_Z (Qfloor (this h)) <= h)%Qc /\ (h < of_Z (Qfloor (this h) + 1))%Qc.
Proof.
  unfold Qcle, Qclt, of_Z. cbn [this Q2Qc]. rewrite !Qred_correct.
  split; [apply Qfloor_le | apply Qlt_floor].
Qed.

Lemma qceiling_bounds (h : Qc) :
  (of_Z (Qceiling (this h) - 1) < h)%Qc /\ (h <= of_Z (Qceiling (this h)))%Qc.
Proof.
  unfold Qcle, Qclt, of_Z. cbn [this Q2Qc]. rewrite !Qred_correct.
  split; [apply Qceiling_lt | apply Qle_ceiling].
Qed.

Lemma of_nat_pred (n : nat) : 0 < n -> (of_nat n - 1)%Qc = of_Z (Z.of_nat n - 1).
Proof.
  intros Hn. destruct n as [|n]; [lia|].
  rewrite of_nat_S. replace (Z.of_nat (S n) - 1)%Z with (Z.of_nat n) by lia.
  unfold of_nat, of_Z. ring.
Qed.

Lemma of_Z_0 : of_Z 0 = 0%Qc.
Proof. apply Qc_is_canon. reflexivity. Qed.

Lemma lerp_num (a b g : Qc) :
  Np.lerp (Num a) (Num b) g = Num (a + g * (b - a))%Qc.
Proof.
  unfold Np.lerp. destruct (Qle_bool _ _); simpl; f_equal; ring.
Qed.

(** numpy's linear quantile is the interpolation at the rank
    [(n - 1) * quantile] in the sorted values. *)
Lemma quantile_interp (parsed : list val) (r : Qc) :
  parsed <> [] -> Forall (fun v => isnan v = false) parsed ->
  (0 <= r)%Qc -> (r <= 1)%Qc ->
  Np.quantile parsed r
  = interpolate ((of_nat (length parsed) - 1) * r)%Qc (Np.sort parsed).
Proof.
  intros Hne Hnum Hr0 Hr1.
  unfold Np.quantile, interpolate.
  assert (Hn : 0 < length parsed) by (destruct parsed; [congruence | simpl; lia]).
  pose proof (sort_Forall Hnum) as Hs.
  pose proof (sort_length parsed) as Hls.
  remember (Np.sort parsed) as s eqn:Es.
  remember (length parsed) as n eqn:En.
  rewrite (of_nat_pred Hn).
  remember (Z.of_nat n - 1)%Z as m eqn:Em.
  assert (Hm : (0 <= m)%Z) by lia.
  remember (of_Z m * r)%Qc as h eqn:Eh.
  assert (Hh0 : (0 <= h)%Qc).
  { rewrite Eh, <- (Qcmult_0_l r).
    apply Qcmult_le_compat_r; [|exact Hr0].
    rewrite <- of_Z_0. now apply (proj2 (of_Z_le _ _)). }
  assert (Hhm : (h <= of_Z m)%Qc).
  { rewrite Eh, (Qcmult_comm (of_Z m) r).
    rewrite <- (Qcmult_1_l (of_Z m)) at 2.
    apply Qcmult_le_compat_r; [exact Hr1|].
    rewrite <- of_Z_0. now apply (proj2 (of_Z_le _ _)). }
  destruct (qfloor_bounds h) as [Hf1 Hf2].
  destruct (qceiling_bounds h) as [Hc1 Hc2].
  remember (Qfloor (this h)) as fl eqn:Efl'.
  remember (Qceiling (this h)) as ce eqn:Ece'.
  assert (Hfl0 : (0 <= fl)%Z).
  { assert (H : (of_Z 0 < of_Z (fl + 1))%Qc).
    { rewrite of_Z_0. eapply Qcle_lt_trans; eassumption. }
    apply (proj1 (of_Z_lt _ _)) in H. lia. }
  assert (Hflm : (fl <= m)%Z).
  { apply (proj1 (of_Z_le _ _)). eapply Qcle_trans; eassumption. }
  assert (Hce : (fl <= ce <= fl + 1)%Z).
  { split.
    - apply (proj1 (of_Z_le _ _)). eapply Qcle_trans; eassumption.
    - assert (H : (of_Z (ce - 1) < of_Z (fl + 1))%Qc)
        by (eapply Qclt_trans; eassumption).
      apply (proj1 (of_Z_lt _ _)) in H. lia. }
  destruct (Qle_bool (this (of_Z m)) (this h)) eqn:Ab.
  - apply Qle_bool_iff in Ab. change (of_Z m <= h)%Qc in Ab.
    assert (Efl : fl = m).
    { assert (H : (of_Z m < of_Z (fl + 1))%Qc)
        by (eapply Qcle_lt_trans; eassumption).
      apply (proj1 (of_Z_lt _ _)) in H. lia. }
    assert (Ece : ce = m).
    { assert (H : (of_Z (ce - 1) < of_Z m)%Qc)
        by (eapply Qclt_le_trans; eassumption).
      apply (proj1 (of_Z_lt _ _)) in H. lia. }
    rewrite Efl, Ece.
    unfold Np.item. rewrite Hls. cbn [Z.ltb Z.compare].
    replace (Z.to_nat (-1 + Z.of_nat n)) with (n - 1) by lia.
    replace (Z.to_nat m) with (n - 1) by lia.
    destruct (@nth_num s (n - 1) Hs ltac:(lia)) as [q ->].
    rewrite lerp_num. simpl; f_equal; ring.
  - assert (Hlt : (h < of_Z m)%Qc).
    { apply Qcnot_le_lt. intros H. apply Qle_bool_iff in H. congruence. }
    assert (Hfl : (fl < m)%Z).
    { apply (proj1 (of_Z_lt _ _)). eapply Qcle_lt_trans; eassumption. }
    unfold Np.item.
    destruct (Z.ltb_spec fl 0) as [Hneg|_]; [lia|].
    destruct (Z.ltb_spec (fl + 1) 0) as [Hneg|_]; [lia|].
    replace (Z.to_nat (fl + 1)) with (Z.to_nat fl + 1) by lia.
    destruct (@nth_num s (Z.to_nat fl) Hs ltac:(lia)) as [qa Ea].
    destruct (@nth_num s (Z.to_nat fl + 1) Hs ltac:(lia)) as [qb Eb].
    rewrite Ea, Eb, lerp_num.
    assert (Hcases : ce = (fl + 1)%Z \/ ce = fl) by lia.
    destruct Hcases as [-> | ->].
    + replace (Z.to_nat (fl + 1)) with (Z.to_nat fl + 1) by lia.
      rewrite Eb. simpl; f_equal; ring.
    + assert (E0 : h = of_Z fl) by (now apply Qcle_antisym).
      rewrite Ea, E0. simpl; f_equal; ring.
Qed.

(** A percentile of a column is computed from its entries that are not
    not-a-number, and is not-a-number when there is none. *)
Lemma nanpercentile_1d_spec (p : Qc) (col : list val) :
  (0 <= p)%Qc -> (p <= of_nat 100)%Qc ->
  Np.nanpercentile_1d p col = column_stat (spec_percentile p) col.
Proof.
  intros Hp0 Hp1.
  unfold Np.nanpercentile_1d, column_stat, valid_sorted.
  fold (Np.remove_nan col).
  pose proof (remove_nan_Forall col) as Hnum.
  destruct (Np.remove_nan col) as [|v parsed] eqn:E; [reflexivity|].
  assert (H100 : (0 < of_nat 100)%Qc) by reflexivity.
  assert (Hinv : (0 <= / of_nat 100)%Qc) by (unfold Qcle; simpl; discriminate).
  rewrite quantile_interp; try assumption; try discriminate.
  - pose proof (sort_length (v :: parsed)) as Hl.
    destruct (Np.sort (v :: parsed)) as [|w s'] eqn:Es; [discriminate Hl|].
    unfold spec_percentile. rewrite Hl. f_equal.
    field. apply of_nat_pos. lia.
  - unfold Qcdiv. rewrite <- (Qcmult_0_l (/ of_nat 100)).
    now apply Qcmult_le_compat_r.
  - unfold Qcdiv.
    replace 1%Qc with (of_nat 100 * / of_nat 100)%Qc
      by (field; apply of_nat_pos; lia).
    now apply Qcmult_le_compat_r.
Qed.

(** ** Reduction of a block along its first axis *)

Lemma nth_concat_rows {A} (P : nat) (rows : list (list A)) (i j : nat) (d : A) :
  Forall (fun r => length r = P) rows -> j < P ->
  nth (i * P + j) (concat rows) d = nth j (nth i rows []) d.
Proof.
  intros Hall Hj. revert i.
  induction Hall as [|r rows Hr Hall IH]; intros i.
  - simpl. destruct (i * P + j), i, j; reflexivity.
  - destruct i as [|i]; simpl.
    + apply app_nth1. lia.
    + rewrite app_nth2 by lia. rewrite <- IH. f_equal. lia.
Qed.

Lemma nth_map_seq {B} (g : nat -> B) (n j : nat) (d : B) :
  j < n -> nth j (map g (seq 0 n)) d = g j.
Proof.
  intros Hj.
  rewrite (nth_indep _ d (g 0)) by (now rewrite length_map, length_seq).
  now rewrite map_nth, seq_nth.
Qed.

Section Block.

(** A block of rows of length [L]. *)
Variables (rows : list (list val)) (L : nat).
Hypothesis rows_length : Forall (fun r => length r = L) rows.

Lemma slice0_column (j : nat) :
  j < L -> Np.slice0 (length rows) [L] (concat rows) j = column rows j.
Proof.
  intros Hj. unfold Np.slice0, column.
  transitivity (map (fun r => nth j r NaN)
                  (map (fun i => nth i rows []) (seq 0 (length rows))));
    [| now rewrite map_nth_seq].
  rewrite map_map.
  apply map_ext. intros i.
  simpl prod. rewrite Nat.mul_1_r. now apply nth_concat_rows.
Qed.

Lemma array_rows :
  rows <> [] ->
  Np.array (map arr1 rows) = Ok (mk_nd [length rows; L] (concat rows)).
Proof.
  intros Hne.
  rewrite (@array_same_shape [L]).
  - now rewrite length_map, map_map, map_id.
  - destruct rows; [congruence | discriminate].
  - apply Forall_forall. intros a Hin. apply in_map_iff in Hin.
    destruct Hin as (r & <- & Hin).
    pose proof rows_length as Hall. rewrite Forall_forall in Hall.
    simpl. now rewrite (Hall r Hin).
Qed.

(** Reducing the block along axis 0 applies the statistic to each of its
    [L] columns. *)
Lemma apply_along_axis0_rows (f : list val -> val) :
  Np.apply_along_axis0 f (mk_nd [length rows; L] (concat rows))
  = Ok (mk_nd [L] (map (fun j => f (column rows j)) (seq 0 L))).
Proof.
  unfold Np.apply_along_axis0. simpl shape. cbv iota.
  simpl prod. rewrite Nat.mul_1_r. do 2 f_equal.
  apply map_ext_in. intros j Hj. apply in_seq in Hj.
  simpl data. rewrite slice0_column by lia. reflexivity.
Qed.

End Block.

Lemma percent_bounds_25 : (0 <= of_nat 25)%Qc /\ (of_nat 25 <= of_nat 100)%Qc.
Proof. split; unfold Qcle; simpl; discriminate. Qed.

Lemma percent_bounds_75 : (0 <= of_nat 75)%Qc /\ (of_nat 75 <= of_nat 100)%Qc.
Proof. split; unfold Qcle; simpl; discriminate. Qed.


(** ** The valid entries of a column in ascending order *)

Lemma is_num_list (l : list val) :
  Forall is_num l -> exists qs, l = map Num qs.
Proof.
  induction 1 as [|v l Hv _ [qs ->]]; [now exists []|].
  destruct v as [|q]; [discriminate Hv|]. now exists (q :: qs).
Qed.

Lemma sorted_of_vleb (qs : list Qc) :
  Sorted (fun a b => vleb a b = true) (map Num qs) -> StronglySorted Qcle qs.
Proof.
  intros Hs. apply Sorted_StronglySorted.
  { intros a b c. apply Qcle_trans. }
  induction qs as [|q qs IH]; [constructor|].
  inversion Hs as [|? ? Hs' Hd]; subst. constructor; [now apply IH|].
  destruct qs as [|q' qs]; constructor.
  inversion Hd as [|? ? Hqq]; subst. simpl in Hqq.
  now apply Qle_bool_iff in Hqq.
Qed.

(** The entries of a column that count, as an ascending sequence of
    rationals. *)
Lemma valid_sorted_rationals (col : list val) :
  exists qs, valid_sorted col = map Num qs /\ StronglySorted Qcle qs.
Proof.
  unfold valid_sorted. fold (Np.remove_nan col).
  destruct (is_num_list (sort_Forall (remove_nan_Forall col))) as [qs E].
  exists qs. split; [exact E|].
  apply sorted_of_vleb. rewrite <- E. apply sort_sorted.
Qed.

(** ** Sorting is a function of the values *)

Lemma vleb_antisym (a b : val) : vleb a b = true -> vleb b a = true -> a = b.
Proof.
  destruct a as [|p], b as [|q]; simpl; try discriminate; [reflexivity|].
  intros H1 H2. apply Qle_bool_iff in H1, H2.
  f_equal. apply Qc_is_canon. now apply Qle_antisym.
Qed.

Lemma vleb_trans (a b c : val) : vleb a b = true -> vleb b c = true -> vleb a c = true.
Proof.
  destruct a as [|p], b as [|q], c as [|r]; simpl; try discriminate; try reflexivity.
  intros H1 H2. apply Qle_bool_iff in H1, H2. apply Qle_bool_iff.
  eapply Qle_trans; eassumption.
Qed.

Lemma vleb_false (a b : val) : vleb a b = false -> vleb b a = true.
Proof.
  intros H. destruct (vleb_total a b) as [H'|H']; [congruence | exact H'].
Qed.

Lemma insert_comm (a b : val) (l : list val) :
  Np.insert a (Np.insert b l) = Np.insert b (Np.insert a l).
Proof.
  induction l as [|c l IH]; simpl.
  - destruct (vleb a b) eqn:Eab, (vleb b a) eqn:Eba; try reflexivity.
    + now rewrite (vleb_antisym _ _ Eab Eba).
    + apply vleb_false in Eab. congruence.
  - destruct (vleb b c) eqn:Ebc, (vleb a c) eqn:Eac; simpl;
      rewrite ?Ebc, ?Eac.
    + destruct (vleb a b) eqn:Eab, (vleb b a) eqn:Eba; try reflexivity.
      * now rewrite (vleb_antisym _ _ Eab Eba).
      * apply vleb_false in Eab. congruence.
    + destruct (vleb a b) eqn:Eab.
      * rewrite (vleb_trans _ _ _ Eab Ebc) in Eac. discriminate.
      * reflexivity.
    + destruct (vleb b a) eqn:Eba.
      * rewrite (vleb_trans _ _ _ Eba Eac) in Ebc. discriminate.
      * reflexivity.
    + now rewrite IH.
Qed.

(** Sorting forgets the order in which the values were given. *)
Lemma sort_permutation_eq (l l' : list val) :
  Permutation l l' -> Np.sort l = Np.sort l'.
Proof.
  induction 1 as [| x l l' _ IH | x y l | l l' l'' _ IH1 _ IH2]; simpl.
  - reflexivity.
  - now rewrite IH.
  - apply insert_comm.
  - congruence.
Qed.

Lemma remove_nan_permutation (l l' : list val) :
  Permutation l l' -> Permutation (Np.remove_nan l) (Np.remove_nan l').
Proof.
  unfold Np.remove_nan.
  induction 1 as [| x l l' _ IH | x y l | l l' l'' _ IH1 _ IH2]; simpl.
  - constructor.
  - destruct (negb (isnan x)); [now constructor | exact IH].
  - destruct (negb (isnan x)), (negb (isnan y)); try reflexivity. constructor.
  - eapply perm_trans; eassumption.
Qed.

Lemma nanmedian_1d_permutation (col col' : list val) :
  Permutation col col' -> Np.nanmedian_1d col = Np.nanmedian_1d col'.
Proof.
  intros H. apply remove_nan_permutation in H. unfold Np.nanmedian_1d.
  pose proof (Permutation_length H) as Hl.
  pose proof (sort_permutation_eq H) as Hs.
  destruct (Np.remove_nan col) as [|v p], (Np.remove_nan col') as [|v' p'];
    try discriminate Hl; [reflexivity|].
  unfold Np.median. now rewrite Hl, Hs.
Qed.

Lemma nanpercentile_1d_permutation (q : Qc) (col col' : list val) :
  Permutation col col' -> Np.nanpercentile_1d q col = Np.nanpercentile_1d q col'.
Proof.
  intros H. apply remove_nan_permutation in H. unfold Np.nanpercentile_1d.
  pose proof (Permutation_length H) as Hl.
  pose proof (sort_permutation_eq H) as Hs.
  destruct (Np.remove_nan col) as [|v p], (Np.remove_nan col') as [|v' p'];
    try discriminate Hl; [reflexivity|].
  unfold Np.quantile. now rewrite Hl, Hs.
Qed.

Lemma max_length_permutation (ls ls' : list (list val)) :
  Permutation ls ls' -> max_length ls = max_length ls'.
Proof.
  unfold max_length.
  induction 1 as [| x l l' _ IH | x y l | l l' l'' _ IH1 _ IH2]; simpl; lia.
Qed.

(** ** The curve of plain sequences *)

Lemma max_len_arr1 (ls : list (list val)) : max_len (map arr1 ls) = max_length ls.
Proof. unfold max_len, max_length. now rewrite map_map. Qed.

Lemma has_trailing_arr1 (ls : list (list val)) : Forall (has_trailing []) (map arr1 ls).
Proof.
  apply Forall_forall. intros a Hin. apply in_map_iff in Hin.
  destruct Hin as (l & <- & _). split; [reflexivity | unfold len; simpl; lia].
Qed.

Lemma length_le_max_length (ls : list (list val)) (l : list val) :
  In l ls -> length l <= max_length ls.
Proof.
  intros Hin. rewrite <- max_len_arr1.
  apply (max_len_ge (map arr1 ls) (arr1 l)). now apply in_map.
Qed.

Lemma nth_app_repeat {A} (l : list A) (d : A) (k j : nat) :
  nth j (l ++ repeat d k) d = nth j l d.
Proof.
  destruct (Nat.lt_ge_cases j (length l)) as [Hj|Hj].
  - now apply app_nth1.
  - rewrite app_nth2 by assumption. rewrite nth_repeat.
    now rewrite nth_overflow.
Qed.

(** The block [pad] builds from plain sequences, row by row. *)
Lemma pad_arr1 (ls : list (list val)) (value : val) :
  ls <> [] ->
  exists i,
    is_last_longest (map arr1 ls) i /\
    pad (map arr1 ls) value
    = Ok (mk_nd [length ls; max_length ls]
                (concat (map (fun l => l ++ repeat value (max_length ls - length l)) ls)),
          Z.of_nat i, Z.of_nat i).
Proof.
  intros Hne.
  assert (Hne' : map arr1 ls <> []) by (destruct ls; [congruence | discriminate]).
  destruct (pad_spec value Hne' (has_trailing_arr1 ls)) as (i & Hlast & E).
  exists i. split; [exact Hlast|].
  rewrite E, max_len_arr1, length_map, map_map.
  replace (map (fun x => data (padded_row (max_length ls) [] value (arr1 x))) ls)
    with (map (fun l => l ++ repeat value (max_length ls - length l)) ls);
    [reflexivity|].
  apply map_ext. intros l. simpl. unfold len. simpl. now rewrite Nat.mul_1_r.
Qed.

Lemma padded_lists_length (ls : list (list val)) (value : val) :
  Forall (fun r => length r = max_length ls)
    (map (fun l => l ++ repeat value (max_length ls - length l)) ls).
Proof.
  apply Forall_forall. intros r Hin. apply in_map_iff in Hin.
  destruct Hin as (l & <- & Hin).
  pose proof (length_le_max_length ls l Hin).
  rewrite length_app, repeat_length. lia.
Qed.

Lemma column_padded (ls : list (list val)) (j : nat) :
  column (map (fun l => l ++ repeat NaN (max_length ls - length l)) ls) j
  = column ls j.
Proof.
  unfold column. rewrite map_map. apply map_ext. intros l.
  apply nth_app_repeat.
Qed.

(** The steps of [plot_with_iqr] for plain sequences: the padded blocks, the
    three statistics taken column by column over the given y-sequences (a
    sequence that does not reach a column counting as not-a-number there),
    and row [index] of the padded x block. *)
Lemma plot_with_iqr_lists_steps (xs ys : list (list val)) :
  xs <> [] -> ys <> [] ->
  exists i x bx by_ k,
    nth_error xs i = Some x /\
    is_last_longest (map arr1 xs) i /\
    pad (map arr1 xs) NaN = Ok (bx, Z.of_nat i, Z.of_nat i) /\
    pad (map arr1 ys) NaN = Ok (by_, Z.of_nat k, Z.of_nat k) /\
    Np.nanmedian by_
    = Ok (mk_nd [max_length ys]
            (map (fun j => Np.nanmedian_1d (column ys j)) (seq 0 (max_length ys)))) /\
    Np.nanpercentile by_ (of_nat 25)
    = Ok (mk_nd [max_length ys]
            (map (fun j => Np.nanpercentile_1d (of_nat 25) (column ys j))
                 (seq 0 (max_length ys)))) /\
    Np.nanpercentile by_ (of_nat 75)
    = Ok (mk_nd [max_length ys]
            (map (fun j => Np.nanpercentile_1d (of_nat 75) (column ys j))
                 (seq 0 (max_length ys)))) /\
    Np.getitem bx (Z.of_nat i)
    = Ok (mk_nd [max_length xs] (x ++ repeat NaN (max_length xs - length x))).
Proof.
  intros Hx Hy.
  destruct (pad_arr1 NaN Hx) as (i & Hlast & Ex).
  destruct (pad_arr1 NaN Hy) as (k & _ & Ey).
  pose proof (padded_lists_length xs NaN) as Hxl.
  pose proof (padded_lists_length ys NaN) as Hyl.
  remember (map (fun l => l ++ repeat NaN (max_length xs - length l)) xs) as rx eqn:Hrx.
  remember (map (fun l => l ++ repeat NaN (max_length ys - length l)) ys) as ry eqn:Hry.
  assert (Hlx : length rx = length xs) by (subst rx; apply length_map).
  assert (Hly : length ry = length ys) by (subst ry; apply length_map).
  pose proof Hlast as [(ax & Hi & _) _].
  rewrite nth_error_map in Hi.
  destruct (nth_error xs i) as [x|] eqn:Exi; [|discriminate Hi].
  rewrite <- Hly in Ey.
  exists i, x. do 3 eexists.
  split; [exact Exi|]. split; [exact Hlast|].
  split; [exact Ex|]. split; [exact Ey|].
  assert (Er : nth_error rx i = Some (x ++ repeat NaN (max_length xs - length x)))
    by (subst rx; now rewrite nth_error_map, Exi).
  assert (Hxl' : Forall (fun r => length r = prod [max_length xs]) rx).
  { eapply Forall_impl; [|exact Hxl]. intros a Ha. cbv beta in Ha.
    change (prod [max_length xs]) with (max_length xs * 1). lia. }
  pose proof (getitem_row [max_length xs] i Hxl' Er) as Eg.
  rewrite Hlx in Eg.
  assert (Hcol : forall j, column ry j = column ys j)
    by (intros j; subst ry; apply column_padded).
  rewrite nanmedian_unfold. unfold Np.nanpercentile.
  rewrite !apply_along_axis0_rows by exact Hyl.
  repeat split; try exact Eg;
    do 2 f_equal; apply map_ext; intros j; now rewrite Hcol.
Qed.

(** The curve of [plot_with_iqr] for plain sequences whose longest x and
    longest y have one length. *)
Lemma plot_with_iqr_lists (xs ys : list (list val)) :
  xs <> [] -> ys <> [] -> max_length xs = max_length ys ->
  exists i x,
    nth_error xs i = Some x /\
    is_last_longest (map arr1 xs) i /\
    plot_with_iqr (map arr1 xs) (map arr1 ys)
    = Ok (mk_curve
            (mk_nd [max_length xs] (x ++ repeat NaN (max_length xs - length x)))
            (mk_nd [max_length ys]
               (map (fun j => Np.nanmedian_1d (column ys j)) (seq 0 (max_length ys))))
            (mk_nd [max_length ys]
               (map (fun j => Np.nanpercentile_1d (of_nat 25) (column ys j))
                    (seq 0 (max_length ys))))
            (mk_nd [max_length ys]
               (map (fun j => Np.nanpercentile_1d (of_nat 75) (column ys j))
                    (seq 0 (max_length ys))))).
Proof.
  intros Hx Hy Hsame.
  destruct (plot_with_iqr_lists_steps Hx Hy)
    as (i & x & bx & by_ & k & Hi & Hlast & Ex & Ey & Em & E1 & E3 & Eg).
  exists i, x. split; [exact Hi|]. split; [exact Hlast|].
  eapply (@plot_with_iqr_steps _ _ _ _ _ _ _ _ _ _ _ _ (max_length xs));
    [exact Ex | exact Ey | exact Em | exact E1 | exact E3 | exact Eg
    | reflexivity | | | ]; cbn [shape]; now rewrite Hsame.
Qed.

(** Plain sequences whose longest x and longest y differ in length are
    refused by the renderer. *)
Lemma plot_with_iqr_lists_refused (xs ys : list (list val)) :
  xs <> [] -> ys <> [] -> max_length xs <> max_length ys ->
  plot_with_iqr (map arr1 xs) (map arr1 ys) = Raise ValueError.
Proof.
  intros Hx Hy Hdiff.
  destruct (plot_with_iqr_lists_steps Hx Hy)
    as (i & x & bx & by_ & k & Hi & Hlast & Ex & Ey & Em & E1 & E3 & Eg).
  eapply plot_with_iqr_steps_refused;
    [exact Ex | exact Ey | exact Em | exact E1 | exact E3 | exact Eg |].
  cbn [shape]. now apply plot_mismatch.
Qed.

(** numpy's sort puts the valid entries of a column in ascending order, and
    the ascending arrangement of given values is the only one. *)
Lemma sorted_vle_of_rationals (qs : list Qc) :
  StronglySorted Qcle qs -> Sorted vle (map Num qs).
Proof.
  intros H. apply StronglySorted_Sorted in H.
  induction H as [|q qs Hs IH Hd]; simpl; constructor; [exact IH|].
  destruct Hd; constructor. assumption.
Qed.

Lemma valid_sorted_ascending (col : list val) :
  ascending_valid col (valid_sorted col).
Proof.
  split.
  - unfold valid_sorted. apply Permutation_sym, sort_perm.
  - destruct (valid_sorted_rationals col) as (qs & -> & Hs).
    now apply sorted_vle_of_rationals.
Qed.

Lemma sort_of_ascending (s : list val) : Sorted vle s -> Np.sort s = s.
Proof.
  induction 1 as [|a l Hs IH Hd]; [reflexivity|].
  simpl. rewrite IH.
  destruct Hd as [|b l' Hab]; [reflexivity|].
  destruct a as [|p], b as [|q]; try contradiction.
  simpl in Hab |- *.
  assert (E : Qle_bool p q = true) by now apply Qle_bool_iff.
  now rewrite E.
Qed.

Lemma ascending_valid_unique (col s : list val) :
  ascending_valid col s -> s = valid_sorted col.
Proof.
  intros [Hp Hs]. unfold valid_sorted.
  rewrite <- (sort_permutation_eq Hp). symmetry. now apply sort_of_ascending.
Qed.

Lemma column_stat_ascending (f : list val -> val) (col s : list val) :
  ascending_valid col s -> column_stat f col = stat_or_sentinel f s.
Proof.
  intros H. apply ascending_valid_unique in H. subst s.
  unfold column_stat. now destruct (valid_sorted col).
Qed.


(** ** Properties of the aggregator *)



Lemma column_stat_single (f : list val -> val) (v : val) :
  (forall q, f [Num q] = Num q) -> column_stat f [v] = v.
Proof.
  intros Hf. destruct v as [|q]; [reflexivity|].
  unfold column_stat, valid_sorted. simpl. apply Hf.
Qed.

Lemma spec_median_single (q : Qc) : spec_median [Num q] = Num q.
Proof. reflexivity. Qed.

Lemma spec_percentile_single (p q : Qc) : spec_percentile p [Num q] = Num q.
Proof.
  unfold spec_percentile.
  replace ((of_nat (length [Num q]) - 1) * p / of_nat 100)%Qc with 0%Qc.
  - unfold interpolate. simpl. f_equal. ring.
  - simpl length. rewrite of_nat_pred by lia. simpl. rewrite of_Z_0.
    field. apply of_nat_pos. lia.
Qed.

(** A group of one run: the block is the run itself. *)
Lemma pad_single (l : list val) :
  pad [arr1 l] NaN = Ok (mk_nd [1; length l] (concat [l]), 0%Z, 0%Z).
Proof.
  unfold pad. simpl Np.max. rewrite Nat.max_0_r. simpl bind.
  unfold enumerate. simpl fold_left. unfold pad_step.
  change (len (arr1 l)) with (length l). rewrite Nat.leb_refl.
  simpl app. change [arr1 l] with (map arr1 [l]).
  now rewrite (@array_rows [l] (length l)) by (discriminate || auto).
Qed.

(** Reducing a block of one row with a statistic that returns the single
    entry of a column gives back the row. *)
Lemma apply_along_axis0_single (f : list val -> val) (l : list val) :
  (forall v, f [v] = v) ->
  Np.apply_along_axis0 f (mk_nd [1; length l] (concat [l])) = Ok (arr1 l).
Proof.
  intros Hf.
  change (mk_nd [1; length l] (concat [l]))
    with (mk_nd [length [l]; length l] (concat [l])).
  rewrite apply_along_axis0_rows by auto.
  unfold arr1. do 2 f_equal.
  transitivity (map (fun j => nth j l NaN) (seq 0 (length l)));
    [| apply map_nth_seq].
  apply map_ext. intros j. apply Hf.
Qed.

(** C9 as stated fails for numpy's floats.  A single run with an infinite
    reward gets the infinity as median, but its 25th and 75th percentiles
    are not-a-number: the interpolation between the two neighbours of the
    rank subtracts the infinity from itself. *)
Lemma single_run_infinite_reward :
  F64.plot_group [([F64.of_int 0], [F64.inf])] 1 10 None
  = Ok (F64.mk_curve (F64.arr1 [F64.of_int 0]) (F64.arr1 [F64.inf])
                     (F64.arr1 [F64.nan]) (F64.arr1 [F64.nan])) /\
  F64.nan <> F64.inf.
Proof.
  split; [vm_compute; reflexivity | discriminate].
Qed.

(** C9 (amended).  For a group of one run with smoothing disabled whose x
    and y have one length, the curve that is drawn has the run's x as
    x-sequence and, in exact arithmetic over rewards that are rationals or
    not-a-number, the run's y as median, as 25th and as 75th percentile at
    every position.  When x and y differ in length the renderer refuses the
    group. *)
Theorem single_run_curve (x y : list val) (smoothing padding : Z) (max_range : option Z) :
  (smoothing <= 1)%Z ->
  (length x = length y ->
   plot_group [(x, y)] smoothing padding max_range
   = Ok (mk_curve (arr1 x) (arr1 y) (arr1 y) (arr1 y))) /\
  (length x <> length y ->
   plot_group [(x, y)] smoothing padding max_range = Raise ValueError).
Proof.
  intros Hs. unfold plot_group, load_csv_runs. cbn [fold_left bind fst snd].
  destruct (Z.ltb_spec 1 smoothing) as [Hlt|_]; [lia|].
  cbn [bind app map]. split.
  - intros Hlen.
    eapply (@plot_with_iqr_steps _ _ _ _ _ _ _ _ _ _ _ _ (length x)).
    + apply pad_single.
    + apply pad_single.
    + rewrite nanmedian_unfold. apply apply_along_axis0_single.
      intros v. rewrite nanmedian_1d_spec.
      apply column_stat_single, spec_median_single.
    + apply apply_along_axis0_single.
      intros v. rewrite nanpercentile_1d_spec by apply percent_bounds_25.
      apply column_stat_single, spec_percentile_single.
    + apply apply_along_axis0_single.
      intros v. rewrite nanpercentile_1d_spec by apply percent_bounds_75.
      apply column_stat_single, spec_percentile_single.
    + apply (@getitem_row [length x] [x] 0 x); [|reflexivity].
      constructor; [simpl; lia | constructor].
    + reflexivity.
    + cbn [arr1 shape]. now rewrite Hlen.
    + cbn [arr1 shape]. now rewrite Hlen.
    + cbn [arr1 shape]. now rewrite Hlen.
  - intros Hlen.
    apply (@plot_with_iqr_lists_refused [x] [y]); try discriminate.
    unfold max_length. simpl. lia.
Qed.

Lemma single_run_curve_witness :
  plot_group [([lit 0; lit 1; lit 2], [lit 5; NaN; lit 7])] 1 10 None
  = Ok (mk_curve (arr1 [lit 0; lit 1; lit 2]) (arr1 [lit 5; NaN; lit 7])
                 (arr1 [lit 5; NaN; lit 7]) (arr1 [lit 5; NaN; lit 7])).
Proof.
  apply (@single_run_curve [lit 0; lit 1; lit 2] [lit 5; NaN; lit 7] 1 10 None).
  - lia.
  - reflexivity.
Defined.

(** ** Further properties of the smoother *)

Lemma is_num_inv (v : val) : is_num v -> exists q, v = Num q.
Proof. destruct v; [discriminate | eauto]. Qed.

Lemma vsum_acc_is_num (l : list val) (acc : val) :
  is_num acc -> Forall is_num l -> is_num (fold_left vadd l acc).
Proof.
  intros Ha Hl. revert acc Ha.
  induction Hl as [|v l Hv Hl IH]; intros acc Ha; simpl; [exact Ha|].
  apply IH. destruct acc, v; try discriminate; reflexivity.
Qed.

Lemma nth_is_num (l : list val) (i : nat) :
  Forall is_num l -> is_num (nth i l vzero).
Proof.
  intros Hl. destruct (Nat.lt_ge_cases i (length l)) as [Hi|Hi].
  - rewrite Forall_forall in Hl. apply Hl. now apply nth_In.
  - now rewrite nth_overflow.
Qed.

Lemma correlate_same_is_num (a v : list val) :
  Forall is_num a -> Forall is_num v -> Forall is_num (Np.correlate_same a v).
Proof.
  intros Ha Hv. unfold Np.correlate_same.
  apply Forall_forall. intros r Hin. apply in_map_iff in Hin.
  destruct Hin as (k & <- & _). unfold Np.vsum.
  apply vsum_acc_is_num; [reflexivity|].
  apply Forall_forall. intros p Hp. apply in_map_iff in Hp.
  destruct Hp as (i & <- & _).
  pose proof (nth_is_num (k + i - length v / 2) Ha) as H1.
  pose proof (nth_is_num i Hv) as H2.
  destruct (nth _ a vzero), (nth i v vzero); try discriminate; reflexivity.
Qed.

(** The convolution of two all-ones signals counts, at each output position,
    the kernel positions that fall inside the signal. *)
Lemma correlate_same_ones (n1 n2 : nat) :
  Np.correlate_same (repeat vone n1) (repeat vone n2)
  = map (fun k => Num (of_nat (length (Np.overlap n1 n2 (n2 / 2) k)))) (seq 0 n1).
Proof.
  unfold Np.correlate_same. rewrite !repeat_length.
  apply map_ext. intros k.
  rewrite (map_ext_in _ (fun _ => vone)).
  - rewrite map_const. unfold vone at 1. rewrite vsum_repeat_num.
    f_equal. ring.
  - intros i Hi. apply overlap_In in Hi.
    rewrite !(nth_repeat_lt vone vzero) by lia. apply vmul_one_l.
Qed.

Lemma vdiv_count_is_num (v : val) (m : nat) :
  is_num v -> 0 < m -> is_num (vdiv v (Num (of_nat m))).
Proof.
  intros Hv Hm. destruct v as [|q]; [discriminate|]. simpl.
  destruct (Qc_eq_dec (of_nat m) 0) as [E|_]; [|reflexivity].
  now apply of_nat_pos in E.
Qed.

Lemma zip_with_count_is_num (n1 n2 : nat) (num : list val) :
  0 < n2 -> length num = n1 -> Forall is_num num ->
  Forall is_num
    (zip_with vdiv num
       (map (fun k => Num (of_nat (length (Np.overlap n1 n2 (n2 / 2) k)))) (seq 0 n1))).
Proof.
  intros Hn2 Hlen Hnum.
  rewrite <- (map_nth_seq num vzero), Hlen, zip_with_map.
  apply Forall_forall. intros r Hin. apply in_map_iff in Hin.
  destruct Hin as (k & <- & Hk). apply in_seq in Hk.
  apply vdiv_count_is_num.
  - now apply nth_is_num.
  - apply count_conv_pos; lia.
Qed.

Lemma overlap_length_le (n1 n2 n_left k : nat) :
  length (Np.overlap n1 n2 n_left k) <= n2.
Proof.
  unfold Np.overlap.
  etransitivity; [apply filter_length_le | now rewrite length_seq].
Qed.

(** X3.  The divisor of the smoother is never zero.  Whether the kernel is
    shorter or longer than the signal, the count convolution holds at every
    output position the number of samples under the window, an integer
    between 1 and the smaller of [len(y)] and the kernel width.  Hence, in
    exact arithmetic, a signal without not-a-number values is smoothed into
    one without.  (In binary64 infinities of both signs in one window still
    give not-a-number, [smooth_infinities_give_nan], and so can partial sums
    that overflow, depending on the order in which they are added.) *)
Theorem smooth_divisor_positive (x y : list val) (padding : Z) (a_range : option Z) :
  (1 <= kernel_width x padding a_range)%Z -> y <> [] ->
  let w := Z.to_nat (kernel_width x padding a_range) in
  exists num den,
    Np.convolve_same y (repeat vone w) = Ok num /\
    Np.convolve_same (Np.ones_like y) (repeat vone w) = Ok den /\
    smooth_reward_curve x y padding a_range = Ok (x, zip_with vdiv num den) /\
    (forall k, k < Nat.max (length y) w ->
       exists m, nth k den NaN = Num (of_nat m) /\
                 1 <= m <= Nat.min (length y) w) /\
    (Forall (fun v => isnan v = false) y ->
     Forall (fun v => isnan v = false) (zip_with vdiv num den)).
Proof.
  intros Hw Hy w.
  destruct (smooth_ok x padding a_range Hw Hy) as (num & den & En & Ed & E).
  fold w in En, Ed.
  exists num, den. split; [exact En|]. split; [exact Ed|]. split; [exact E|].
  assert (Hw' : 0 < w) by (unfold w; lia).
  assert (Hk : repeat vone w <> []) by (destruct w; [lia | discriminate]).
  assert (Ho : Np.ones_like y <> []) by (destruct y; [congruence | discriminate]).
  assert (Hly : 0 < length y) by (destruct y; [congruence | simpl; lia]).
  rewrite convolve_same_ok in En, Ed by assumption.
  rewrite ones_like_length, repeat_length in *.
  rewrite rev_repeat in En. rewrite ones_like_repeat, !rev_repeat in Ed.
  assert (Hones : Forall is_num (repeat vone w))
    by (apply Forall_forall; intros v Hv; apply repeat_spec in Hv; now subst).
  clearbody w.
  destruct (Nat.ltb_spec (length y) w) as [Hlt|Hge].
  - injection En as <-. injection Ed as <-.
    rewrite correlate_same_ones. split.
    + intros k Hk'. rewrite Nat.max_r in Hk' by lia.
      rewrite nth_map_seq by assumption.
      eexists. split; [reflexivity|].
      pose proof (@count_conv_pos w (length y) k Hly Hk').
      pose proof (overlap_length_le w (length y) (length y / 2) k). lia.
    + intros Hnum.
      apply zip_with_count_is_num; [assumption | | ].
      * now rewrite correlate_same_length, repeat_length.
      * apply correlate_same_is_num; [assumption|]. now apply Forall_rev.
  - injection En as <-. injection Ed as <-.
    rewrite correlate_same_ones. split.
    + intros k Hk'. rewrite Nat.max_l in Hk' by lia.
      rewrite nth_map_seq by assumption.
      eexists. split; [reflexivity|].
      pose proof (@count_conv_pos (length y) w k Hw' Hk').
      pose proof (overlap_length_le (length y) w (w / 2) k). lia.
    + intros Hnum.
      apply zip_with_count_is_num; [assumption | | ].
      * now rewrite correlate_same_length.
      * now apply correlate_same_is_num.
Qed.

Lemma smooth_divisor_positive_witness :
  let x := [lit 0; lit 1] in
  let y := [lit 4; lit 6] in
  let w := Z.to_nat (kernel_width x 10 None) in
  exists num den,
    Np.convolve_same y (repeat vone w) = Ok num /\
    Np.convolve_same (Np.ones_like y) (repeat vone w) = Ok den /\
    smooth_reward_curve x y 10 None = Ok (x, zip_with vdiv num den) /\
    (forall k, k < Nat.max (length y) w ->
       exists m, nth k den NaN = Num (of_nat m) /\
                 1 <= m <= Nat.min (length y) w) /\
    (Forall (fun v => isnan v = false) y ->
     Forall (fun v => isnan v = false) (zip_with vdiv num den)).
Proof.
  apply (@smooth_divisor_positive [lit 0; lit 1] [lit 4; lit 6] 10%Z None).
  - vm_compute. discriminate.
  - discriminate.
Defined.

Lemma of_nat_gt_0 (m : nat) : 0 < m -> (0 < of_nat m)%Qc.
Proof.
  intros Hm. rewrite <- of_Z_0. unfold of_nat.
  apply (proj2 (of_Z_lt _ _)). lia.
Qed.

Lemma vsum_acc_in_range (lo hi : Qc) (l : list val) (acc : Qc) :
  Forall (in_range lo hi) l ->
  exists S,
    fold_left vadd l (Num acc) = Num (acc + S)%Qc /\
    (of_nat (length l) * lo <= S)%Qc /\ (S <= of_nat (length l) * hi)%Qc.
Proof.
  intros Hl. revert acc.
  induction Hl as [|v l Hv Hl IH]; intros acc.
  - exists 0%Qc. simpl. rewrite of_nat_0, !Qcmult_0_l, Qcplus_0_r.
    repeat split; apply Qcle_refl.
  - destruct v as [|q]; [destruct Hv|]. destruct Hv as [Hlo Hhi].
    destruct (IH (acc + q)%Qc) as (S & E & Slo & Shi).
    exists (q + S)%Qc. cbn [fold_left vadd length]. rewrite E, of_nat_S.
    split; [f_equal; ring|].
    split.
    + replace ((of_nat (length l) + 1) * lo)%Qc
        with (lo + of_nat (length l) * lo)%Qc by ring.
      now apply Qcplus_le_compat.
    + replace ((of_nat (length l) + 1) * hi)%Qc
        with (hi + of_nat (length l) * hi)%Qc by ring.
      now apply Qcplus_le_compat.
Qed.

(** The mean of values between [lo] and [hi] lies between [lo] and [hi]. *)
Lemma mean_in_range (lo hi : Qc) (picks : list val) :
  0 < length picks -> Forall (in_range lo hi) picks ->
  in_range lo hi (vdiv (Np.vsum picks) (Num (of_nat (length picks)))).
Proof.
  intros Hm Hall. unfold Np.vsum, vzero.
  destruct (vsum_acc_in_range 0%Qc Hall) as (S & -> & Slo & Shi).
  pose proof (of_nat_gt_0 Hm) as Hpos.
  pose proof (of_nat_pos Hm) as Hne.
  simpl. destruct (Qc_eq_dec _ 0) as [E|_]; [contradiction|].
  set (m := of_nat (length picks)) in *.
  assert (Em : ((0 + S) / m * m = S)%Qc) by (field; assumption).
  split; apply Qcmult_lt_0_le_reg_r with (z := m); try assumption; rewrite Em.
  - now rewrite Qcmult_comm.
  - now rewrite (Qcmult_comm hi m).
Qed.

(** Correlation of a signal with an all-ones kernel, and of an all-ones
    signal with a kernel: sums of in-range entries. *)
Lemma correlate_same_signal_ones (a : list val) (n2 : nat) :
  Np.correlate_same a (repeat vone n2)
  = map (fun k => Np.vsum (map (fun i => nth (k + i - n2 / 2) a vzero)
                               (Np.overlap (length a) n2 (n2 / 2) k)))
        (seq 0 (length a)).
Proof.
  unfold Np.correlate_same. rewrite repeat_length.
  apply map_ext. intros k. f_equal.
  apply map_ext_in. intros i Hi. apply overlap_In in Hi.
  rewrite (nth_repeat_lt vone vzero) by lia. apply vmul_one_r.
Qed.

Lemma correlate_same_ones_signal (n1 : nat) (v : list val) :
  Np.correlate_same (repeat vone n1) v
  = map (fun k => Np.vsum (map (fun i => nth i v vzero)
                               (Np.overlap n1 (length v) (length v / 2) k)))
        (seq 0 n1).
Proof.
  unfold Np.correlate_same. rewrite repeat_length.
  apply map_ext. intros k. f_equal.
  apply map_ext_in. intros i Hi. apply overlap_In in Hi.
  rewrite (nth_repeat_lt vone vzero) by lia. apply vmul_one_l.
Qed.

(** X4.  Smoothing never overshoots: if every value of [y] lies between [lo]
    and [hi], so does every smoothed value, border positions included. *)
Theorem smooth_within_bounds (x y : list val) (padding : Z) (a_range : option Z)
  (lo hi : Qc) :
  (1 <= kernel_width x padding a_range)%Z -> y <> [] ->
  Forall (in_range lo hi) y ->
  exists ysmoo,
    smooth_reward_curve x y padding a_range = Ok (x, ysmoo) /\
    Forall (in_range lo hi) ysmoo.
Proof.
  intros Hw Hy Hall.
  destruct (smooth_ok x padding a_range Hw Hy) as (num & den & En & Ed & E).
  exists (zip_with vdiv num den). split; [exact E|].
  set (w := Z.to_nat (kernel_width x padding a_range)) in *.
  assert (Hw' : 0 < w) by (unfold w; lia).
  assert (Hk : repeat vone w <> []) by (destruct w; [lia | discriminate]).
  assert (Ho : Np.ones_like y <> []) by (destruct y; [congruence | discriminate]).
  assert (Hly : 0 < length y) by (destruct y; [congruence | simpl; lia]).
  rewrite convolve_same_ok in En, Ed by assumption.
  rewrite ones_like_length, repeat_length in *.
  rewrite rev_repeat in En. rewrite ones_like_repeat, !rev_repeat in Ed.
  rewrite Forall_forall in Hall.
  destruct (length y <? w).
  - injection En as <-. injection Ed as <-.
    rewrite correlate_same_ones, correlate_same_ones_signal, zip_with_map.
    rewrite length_rev.
    apply Forall_forall. intros r Hin. apply in_map_iff in Hin.
    destruct Hin as (k & <- & Hk'). apply in_seq in Hk'.
    rewrite <- (length_map (fun i => nth i (rev y) vzero)
                  (Np.overlap w (length y) (length y / 2) k)).
    apply mean_in_range.
    + rewrite length_map. apply count_conv_pos; lia.
    + apply Forall_forall. intros p Hp. apply in_map_iff in Hp.
      destruct Hp as (i & <- & Hi). apply overlap_In in Hi.
      apply Hall. apply (proj2 (in_rev _ _)).
      apply nth_In. rewrite length_rev. lia.
  - injection En as <-. injection Ed as <-.
    rewrite correlate_same_ones, correlate_same_signal_ones, zip_with_map.
    apply Forall_forall. intros r Hin. apply in_map_iff in Hin.
    destruct Hin as (k & <- & Hk'). apply in_seq in Hk'.
    rewrite <- (length_map (fun i => nth (k + i - w / 2) y vzero)
                  (Np.overlap (length y) w (w / 2) k)).
    apply mean_in_range.
    + rewrite length_map. apply count_conv_pos; lia.
    + apply Forall_forall. intros p Hp. apply in_map_iff in Hp.
      destruct Hp as (i & <- & Hi). apply overlap_In in Hi.
      apply Hall. apply nth_In. lia.
Qed.

Lemma smooth_within_bounds_witness :
  exists ysmoo,
    smooth_reward_curve [lit 0; lit 1; lit 2] [lit 4; lit 6; lit 5] 1 None
    = Ok ([lit 0; lit 1; lit 2], ysmoo) /\
    Forall (in_range (of_Z 4) (of_Z 6)) ysmoo.
Proof.
  apply (@smooth_within_bounds [lit 0; lit 1; lit 2] [lit 4; lit 6; lit 5]
           1%Z None (of_Z 4) (of_Z 6)).
  - vm_compute. discriminate.
  - discriminate.
  - repeat constructor; vm_compute; discriminate.
Defined.

Lemma filter_range (a b n : nat) :
  filter (fun i => (a <=? i) && (i <? b)) (seq 0 n) = seq a (Nat.min b n - a).
Proof.
  induction n as [|n IH]; [now rewrite Nat.min_0_r|].
  rewrite seq_S, filter_app, IH. simpl.
  destruct (Nat.leb_spec a n) as [Ha|Ha], (Nat.ltb_spec n b) as [Hb|Hb]; simpl.
  - replace (Nat.min b (S n) - a) with (S (Nat.min b n - a)) by lia.
    rewrite seq_S. do 2 f_equal. lia.
  - rewrite app_nil_r. f_equal. lia.
  - rewrite app_nil_r. replace (Nat.min b (S n) - a) with 0 by lia.
    replace (Nat.min b n - a) with 0 by lia. reflexivity.
  - rewrite app_nil_r. f_equal. lia.
Qed.

Lemma overlap_seq (n1 n2 n_left k : nat) :
  Np.overlap n1 n2 n_left k
  = seq (n_left - k) (Nat.min (n1 + n_left - k) n2 - (n_left - k)).
Proof.
  unfold Np.overlap. rewrite <- filter_range.
  apply filter_ext. intros i.
  destruct (Nat.leb_spec n_left (k + i)), (Nat.leb_spec (n_left - k) i),
    (Nat.ltb_spec (k + i - n_left) n1), (Nat.ltb_spec i (n1 + n_left - k));
    simpl; try reflexivity; lia.
Qed.

Lemma map_nth_seq_slice {A} (l : list A) (d : A) (lo c : nat) :
  map (fun j => nth j l d) (seq lo (Nat.min c (length l - lo))) = slice l lo (lo + c).
Proof.
  unfold slice. replace (lo + c - lo) with c by lia.
  revert lo c. induction l as [|a l IH]; intros lo c.
  - simpl. rewrite Nat.min_0_r. now rewrite skipn_nil, firstn_nil.
  - destruct lo as [|lo].
    + simpl skipn. destruct c as [|c]; [reflexivity|].
      simpl. f_equal.
      specialize (IH 0 c). rewrite Nat.sub_0_r in IH. simpl skipn in IH.
      rewrite <- IH, <- seq_shift, map_map. reflexivity.
    + simpl skipn. simpl length. rewrite Nat.sub_succ.
      rewrite <- IH, <- seq_shift, map_map. reflexivity.
Qed.

(** The entries picked by the correlation at output [k] are the slice of the
    signal that the window covers. *)
Lemma overlap_picks (y : list val) (w k : nat) :
  k < length y -> 0 < w ->
  map (fun i => nth (k + i - w / 2) y vzero) (Np.overlap (length y) w (w / 2) k)
  = slice y (k - w / 2) (k + w - w / 2).
Proof.
  intros Hk Hw.
  assert (Hh : w / 2 < w) by (apply Nat.div_lt; lia).
  rewrite overlap_seq.
  set (nl := w / 2) in *.
  transitivity (map (fun j => nth j y vzero)
                  (seq (k - nl) (Nat.min (length y + nl - k) w - (nl - k)))).
  - rewrite <- (map_map (fun i => k + i - nl) (fun j => nth j y vzero)).
    f_equal.
    replace (k - nl) with (k + (nl - k) - nl) by lia.
    generalize (Nat.min (length y + nl - k) w - (nl - k)) as len.
    assert (Ha : nl <= k + (nl - k)) by lia.
    revert Ha. generalize (nl - k) as a.
    intros a Ha len. revert a Ha.
    induction len as [|len IH]; intros a Ha; [reflexivity|].
    simpl. f_equal. rewrite IH by lia. f_equal. lia.
  - replace (k + w - nl) with ((k - nl) + (k + w - nl - (k - nl))) by lia.
    rewrite <- (map_nth_seq_slice y vzero). do 2 f_equal. lia.
Qed.

(** X1.  Whenever the kernel is not empty and [y] is not empty the smoother
    returns, with [x] untouched and with as many smoothed values as the
    longer of [y] and the kernel has entries.  The length of [y] is kept
    exactly when the kernel is no longer than [y]. *)
Theorem smooth_output_length (x y : list val) (padding : Z) (a_range : option Z) :
  (1 <= kernel_width x padding a_range)%Z -> y <> [] ->
  exists ysmoo,
    smooth_reward_curve x y padding a_range = Ok (x, ysmoo) /\
    length ysmoo = Nat.max (length y) (Z.to_nat (kernel_width x padding a_range)) /\
    (length ysmoo = length y <->
     Z.to_nat (kernel_width x padding a_range) <= length y).
Proof.
  intros Hw Hy.
  destruct (smooth_ok x padding a_range Hw Hy) as (num & den & _ & _ & E).
  exists (zip_with vdiv num den). split; [exact E|].
  apply smooth_length in E. destruct E as [_ E]. split; [exact E|].
  rewrite E. lia.
Qed.

Lemma smooth_output_length_witness :
  exists ysmoo,
    smooth_reward_curve [lit 0; lit 1] [lit 4; lit 6] 10 None
    = Ok ([lit 0; lit 1], ysmoo) /\
    length ysmoo
    = Nat.max (length [lit 4; lit 6])
              (Z.to_nat (kernel_width [lit 0; lit 1] 10 None)) /\
    (length ysmoo = length [lit 4; lit 6] <->
     Z.to_nat (kernel_width [lit 0; lit 1] 10 None) <= length [lit 4; lit 6]).
Proof.
  apply (@smooth_output_length [lit 0; lit 1] [lit 4; lit 6] 10%Z None).
  - vm_compute. discriminate.
  - discriminate.
Defined.

(** X2.  With a kernel of width [w] no longer than [y], the smoothed value
    at position [k] is the mean of the slice [y[max(0, k - w/2) : k - w/2 + w]]
    ([w/2] the integer quotient): a moving average whose window is cut, not
    zero-filled, at both borders. *)
Theorem smooth_is_sliding_mean (x y : list val) (padding : Z) (a_range : option Z) :
  (1 <= kernel_width x padding a_range)%Z ->
  Z.to_nat (kernel_width x padding a_range) <= length y ->
  let w := Z.to_nat (kernel_width x padding a_range) in
  smooth_reward_curve x y padding a_range
  = Ok (x, map (fun k => Np.mean (slice y (k - w / 2) (k + w - w / 2)))
               (seq 0 (length y))).
Proof.
  intros Hw Hn w.
  rewrite smooth_window_mean by (fold w; lia). fold w.
  do 2 f_equal. apply map_ext_in. intros k Hk. apply in_seq in Hk.
  cbv zeta. unfold Np.mean.
  rewrite <- (overlap_picks y (w := w) (k := k)) by lia.
  now rewrite length_map.
Qed.

Lemma smooth_is_sliding_mean_witness :
  let x := [lit 1; lit 2; lit 3; lit 4] in
  let y := [lit 1; lit 2; lit 3; lit 4] in
  let w := Z.to_nat (kernel_width x 3 None) in
  smooth_reward_curve x y 3 None
  = Ok (x, map (fun k => Np.mean (slice y (k - w / 2) (k + w - w / 2)))
               (seq 0 (length y))).
Proof.
  apply (@smooth_is_sliding_mean [lit 1; lit 2; lit 3; lit 4]
           [lit 1; lit 2; lit 3; lit 4] 3%Z None).
  - vm_compute. discriminate.
  - vm_compute. lia.
Defined.

(** X5.  Without a reference length the smoothed y depends on [x] through its
    length only: two x inputs of the same length give the same smoothed y (or
    the same exception). *)
Theorem smooth_reads_only_length_of_x (x x' y : list val) (padding : Z) :
  length x = length x' ->
  smoothed_y (smooth_reward_curve x y padding None) =
  smoothed_y (smooth_reward_curve x' y padding None).
Proof. apply smooth_y_depends_on_length_of_x. Qed.

Lemma smooth_reads_only_length_of_x_witness :
  smoothed_y (smooth_reward_curve [lit 0; lit 1; lit 2] [lit 4; lit 6; lit 5] 1 None) =
  smoothed_y (smooth_reward_curve [lit 7; NaN; lit 9] [lit 4; lit 6; lit 5] 1 None).
Proof.
  apply (@smooth_reads_only_length_of_x [lit 0; lit 1; lit 2] [lit 7; NaN; lit 9]
           [lit 4; lit 6; lit 5] 1%Z).
  reflexivity.
Defined.

(** ** Further properties of the aligner *)

Lemma np_max_ok (xs : list ndarray) :
  xs <> [] -> Np.max (map len xs) = Ok (max_len xs).
Proof. destruct xs; [congruence | reflexivity]. Qed.

(** [pad] in terms of the rows its loop appends. *)
Lemma pad_unfold (xs : list ndarray) (value : val) :
  xs <> [] ->
  exists i,
    is_last_longest xs i /\
    pad xs value =
      (arr <- Np.array (map (pad_row (max_len xs) value) xs) ;;
       Ok (arr, Z.of_nat i, Z.of_nat i)).
Proof.
  intros Hne. unfold pad. rewrite (np_max_ok Hne). cbn [bind].
  pose proof (pad_loop_inv (max_len xs) value xs) as Hinv.
  destruct (fold_left _ _ _) as [[padded index] max_index].
  destruct Hinv as [-> Hidx].
  destruct Hidx as [(_ & _ & Hlt) | (i & x & -> & -> & Hi & Hlen & Hlast)].
  { destruct (max_len_attained Hne) as (x & Hin & E).
    specialize (Hlt x Hin). lia. }
  exists i. split; [|reflexivity].
  split; [|exact Hlast]. exists x. split; [exact Hi|].
  pose proof (max_len_ge xs x (nth_error_In _ _ Hi)). lia.
Qed.

(** X7.  Whatever the arrays, when [pad] returns its two indices are equal
    and point at a sequence of maximal length inside the collection: the
    initial values [-1] and [0] never come back, so [xs[index]] never wraps
    around. *)
Theorem pad_indices_valid (xs : list ndarray) (value : val)
  (arr : ndarray) (index max_index : Z) :
  pad xs value = Ok (arr, index, max_index) ->
  index = max_index /\
  (0 <= index < Z.of_nat (length xs))%Z /\
  is_last_longest xs (Z.to_nat index).
Proof.
  intros E.
  assert (Hne : xs <> []) by (intros ->; discriminate E).
  destruct (pad_unfold value Hne) as (i & Hlast & E').
  rewrite E' in E. destruct (Np.array _); [|discriminate E].
  cbn [bind] in E. injection E as _ <- <-.
  split; [reflexivity|].
  rewrite Nat2Z.id. split; [|exact Hlast].
  destruct Hlast as [(x & Hi & _) _].
  assert (i < length xs) by (apply nth_error_Some; congruence). lia.
Qed.

Lemma pad_indices_valid_witness :
  let xs := [arr1 [lit 1; lit 2]; arr1 [lit 3]; arr1 [lit 4; lit 5]; arr1 []] in
  2%Z = 2%Z /\
  (0 <= 2 < Z.of_nat (length xs))%Z /\
  is_last_longest xs (Z.to_nat 2).
Proof.
  intros xs.
  apply (@pad_indices_valid xs NaN
           (mk_nd [4; 2] [lit 1; lit 2; lit 3; NaN; lit 4; lit 5; NaN; NaN])
           2%Z 2%Z).
  vm_compute. reflexivity.
Defined.

Lemma pad_row_shape (L : nat) (value : val) (x : ndarray) :
  shape x <> [] -> len x <= L -> shape (pad_row L value x) = L :: tl (shape x).
Proof.
  intros Hs Hle. unfold pad_row.
  destruct (Nat.leb_spec L (len x)) as [Hge|Hlt].
  - unfold len in *. destruct (shape x) as [|n t]; [congruence|].
    simpl in *. f_equal. lia.
  - simpl. f_equal. unfold len at 2. simpl. lia.
Qed.

Lemma array_ok_iff (rows : list ndarray) :
  rows <> [] ->
  (exists arr, Np.array rows = Ok arr) <->
  (exists s, Forall (fun r => shape r = s) rows).
Proof.
  intros Hne. destruct rows as [|r rows]; [congruence|]. split.
  - intros [arr E]. exists (shape r). unfold Np.array in E.
    destruct (forallb _ _) eqn:Hall; [|discriminate E].
    rewrite forallb_forall in Hall. apply Forall_forall. intros r' Hin.
    specialize (Hall r' Hin). unfold Np.shape_eqb in Hall.
    now destruct (list_eq_dec Nat.eq_dec (shape r') (shape r)).
  - intros [s Hall]. rewrite (array_same_shape Hne Hall). eauto.
Qed.

Lemma array_raise (rows : list ndarray) :
  (forall arr, Np.array rows <> Ok arr) -> Np.array rows = Raise ValueError.
Proof.
  intros H. unfold Np.array in *. destruct rows as [|r rows].
  - now destruct (H (mk_nd [0] [])).
  - destruct (forallb _ _); [|reflexivity].
    now destruct (H (mk_nd (length (r :: rows) :: shape r) (concat (map data (r :: rows))))).
Qed.

(** X8.  For arrays that have a leading axis, [pad] returns exactly when all
    of them have the same trailing shape; otherwise stacking the rows fails
    with [ValueError].  The lengths along the leading axis never matter. *)
Theorem pad_returns_iff_same_trailing (xs : list ndarray) (value : val) :
  xs <> [] -> Forall (fun x => shape x <> []) xs ->
  ((exists r, pad xs value = Ok r) <->
   (exists t, Forall (fun x => tl (shape x) = t) xs)) /\
  ((forall t, ~ Forall (fun x => tl (shape x) = t) xs) ->
   pad xs value = Raise ValueError).
Proof.
  intros Hne Hsh.
  destruct (pad_unfold value Hne) as (i & _ & E).
  assert (Hrows : map (pad_row (max_len xs) value) xs <> [])
    by (destruct xs; [congruence | discriminate]).
  assert (Hshape : forall s,
             Forall (fun r => shape r = s) (map (pad_row (max_len xs) value) xs) <->
             Forall (fun x => max_len xs :: tl (shape x) = s) xs).
  { intros s. rewrite Forall_map. rewrite !Forall_forall.
    rewrite Forall_forall in Hsh.
    split; intros H x Hin; specialize (H x Hin);
      rewrite pad_row_shape in * by (auto using max_len_ge); exact H. }
  assert (Hiff : (exists arr, Np.array (map (pad_row (max_len xs) value) xs) = Ok arr) <->
                 (exists t, Forall (fun x => tl (shape x) = t) xs)).
  { rewrite (array_ok_iff Hrows). split.
    - intros [s Hs]. apply Hshape in Hs. exists (tl s).
      eapply Forall_impl; [|exact Hs]. intros x <-. reflexivity.
    - intros [t Ht]. exists (max_len xs :: t). apply Hshape.
      eapply Forall_impl; [|exact Ht]. intros x ->. reflexivity. }
  split.
  - rewrite <- Hiff, E. split.
    + intros [r Er]. destruct (Np.array _) as [arr|]; [eauto | discriminate Er].
    + intros [arr ->]. cbn [bind]. eauto.
  - intros Hno. rewrite E, array_raise; [reflexivity|].
    intros arr Ea. destruct (proj1 Hiff (ex_intro _ arr Ea)) as [t Ht].
    exact (Hno t Ht).
Qed.

Lemma pad_returns_iff_same_trailing_witness :
  let xs := [mk_nd [2; 3] (repeat (lit 0) 6); mk_nd [2; 4] (repeat (lit 0) 8)] in
  ((exists r, pad xs NaN = Ok r) <->
   (exists t, Forall (fun x => tl (shape x) = t) xs)) /\
  ((forall t, ~ Forall (fun x => tl (shape x) = t) xs) ->
   pad xs NaN = Raise ValueError).
Proof.
  apply (@pad_returns_iff_same_trailing
           [mk_nd [2; 3] (repeat (lit 0) 6); mk_nd [2; 4] (repeat (lit 0) 8)] NaN).
  - discriminate.
  - repeat constructor; discriminate.
Defined.

(** X9.  Sequences of one common length are stacked as they are: no sentinel
    is written, the block does not depend on [value], and the index is that
    of the last sequence. *)
Theorem pad_equal_lengths (xs : list ndarray) (value : val) (t : list nat) (n : nat) :
  xs <> [] -> Forall (has_trailing t) xs -> Forall (fun x => len x = n) xs ->
  pad xs value
  = Ok (mk_nd (length xs :: n :: t) (concat (map data xs)),
        Z.of_nat (length xs - 1), Z.of_nat (length xs - 1)).
Proof.
  intros Hne Hall Hlen.
  rewrite Forall_forall in Hlen.
  assert (HL : max_len xs = n).
  { destruct (max_len_attained Hne) as (x & Hin & <-). now apply Hlen. }
  destruct (pad_spec value Hne Hall) as (i & Hlast & E).
  rewrite E, HL.
  assert (Hi : i = length xs - 1).
  { destruct Hlast as [(x & Hx & _) Hlater].
    assert (i < length xs) by (apply nth_error_Some; congruence).
    destruct (Nat.eq_dec i (length xs - 1)) as [|Hneq]; [assumption|].
    destruct (nth_error xs (length xs - 1)) as [x'|] eqn:Ex'.
    - specialize (Hlater (length xs - 1) x' ltac:(lia) Ex').
      rewrite (Hlen x' (nth_error_In _ _ Ex')) in Hlater. lia.
    - apply nth_error_None in Ex'. lia. }
  rewrite Hi.
  replace (map (fun x => data (padded_row n t value x)) xs) with (map data xs);
    [reflexivity|].
  apply map_ext_in. intros x Hin. simpl.
  rewrite (Hlen x Hin), Nat.sub_diag. simpl. now rewrite app_nil_r.
Qed.

Lemma pad_equal_lengths_witness :
  let xs := [arr1 [lit 1; lit 2]; arr1 [lit 3; lit 4]; arr1 [lit 5; lit 6]] in
  pad xs (lit 0)
  = Ok (mk_nd (length xs :: 2 :: []) (concat (map data xs)),
        Z.of_nat (length xs - 1), Z.of_nat (length xs - 1)).
Proof.
  apply (@pad_equal_lengths
           [arr1 [lit 1; lit 2]; arr1 [lit 3; lit 4]; arr1 [lit 5; lit 6]]
           (lit 0) [] 2).
  - discriminate.
  - repeat constructor.
  - repeat constructor.
Defined.

(** ** The loader *)

Section Loader.

Variables (smoothing padding : Z) (max_range : option Z).

Local Abbreviation step := (load_step smoothing padding max_range).
Local Abbreviation width f := (kernel_width (fst f) padding max_range).

Lemma load_csv_runs_loop (frames : list frame) :
  load_csv_runs frames smoothing padding max_range
  = fold_left step frames (Ok ([], [])).
Proof. reflexivity. Qed.

Lemma load_step_ok (f : frame) (xs ys : list (list val)) (x y : list val) :
  load_frame smoothing padding max_range f = Ok (x, y) ->
  step (Ok (xs, ys)) f = Ok (xs ++ [x], ys ++ [y]).
Proof. intros E. unfold load_step. cbn [bind]. now rewrite E. Qed.

Lemma load_step_raise (f : frame) (xs ys : list (list val)) (e : exn) :
  load_frame smoothing padding max_range f = Raise e ->
  step (Ok (xs, ys)) f = Raise e.
Proof. intros E. unfold load_step. cbn [bind]. now rewrite E. Qed.

Lemma load_loop_raise (frames : list frame) (e : exn) :
  fold_left step frames (Raise e) = Raise e.
Proof. induction frames as [|f frames IH]; simpl; auto. Qed.

Lemma load_frame_disabled (f : frame) :
  (smoothing <= 1)%Z -> load_frame smoothing padding max_range f = Ok (fst f, snd f).
Proof.
  intros Hs. unfold load_frame.
  destruct (Z.ltb_spec 1 smoothing); [lia | reflexivity].
Qed.

Lemma load_frame_enabled (f : frame) :
  (1 < smoothing)%Z ->
  load_frame smoothing padding max_range f
  = smooth_reward_curve (fst f) (snd f) padding max_range.
Proof.
  intros Hs. unfold load_frame.
  destruct (Z.ltb_spec 1 smoothing); [reflexivity | lia].
Qed.

Lemma load_loop_disabled (frames : list frame) (xs0 ys0 : list (list val)) :
  (smoothing <= 1)%Z ->
  fold_left step frames (Ok (xs0, ys0))
  = Ok (xs0 ++ map fst frames, ys0 ++ map snd frames).
Proof.
  intros Hs. revert xs0 ys0.
  induction frames as [|f frames IH]; intros xs0 ys0; cbn [fold_left map].
  - now rewrite !app_nil_r.
  - rewrite (@load_step_ok f xs0 ys0 (fst f) (snd f) (load_frame_disabled f Hs)).
    rewrite IH, <- !app_assoc. reflexivity.
Qed.

Lemma load_loop_enabled (frames : list frame) (xs0 ys0 : list (list val)) :
  (1 < smoothing)%Z ->
  Forall (fun f => (1 <= width f)%Z /\ snd f <> []) frames ->
  exists ys,
    fold_left step frames (Ok (xs0, ys0)) = Ok (xs0 ++ map fst frames, ys0 ++ ys) /\
    Forall2 (fun f y' =>
               smooth_reward_curve (fst f) (snd f) padding max_range = Ok (fst f, y'))
            frames ys.
Proof.
  intros Hs Hall. revert xs0 ys0.
  induction Hall as [|f frames [Hw Hy] Hall IH]; intros xs0 ys0; cbn [fold_left map].
  - exists []. rewrite !app_nil_r. split; [reflexivity | constructor].
  - destruct (smooth_ok (fst f) padding max_range Hw Hy) as (num & den & _ & _ & E).
    rewrite (@load_step_ok f xs0 ys0 (fst f) (zip_with vdiv num den))
      by (now rewrite load_frame_enabled).
    destruct (IH (xs0 ++ [fst f]) (ys0 ++ [zip_with vdiv num den])) as (ys & E' & HF).
    exists (zip_with vdiv num den :: ys). rewrite E', <- !app_assoc.
    split; [reflexivity|]. now constructor.
Qed.

Lemma load_loop_fails (frames : list frame) (xs0 ys0 : list (list val)) :
  (1 < smoothing)%Z ->
  Exists (fun f => (width f <= 0)%Z \/ snd f = []) frames ->
  fold_left step frames (Ok (xs0, ys0)) = Raise ValueError.
Proof.
  intros Hs Hex. revert xs0 ys0.
  induction Hex as [f frames Hbad | f frames Hex IH]; intros xs0 ys0; cbn [fold_left].
  - rewrite (@load_step_raise f xs0 ys0 ValueError).
    + apply load_loop_raise.
    + rewrite load_frame_enabled by assumption. now apply smooth_raise.
  - destruct (load_frame smoothing padding max_range f) as [[x y]|e] eqn:E.
    + rewrite (@load_step_ok f xs0 ys0 x y E). apply IH.
    + rewrite (@load_step_raise f xs0 ys0 e E), load_loop_raise.
      rewrite load_frame_enabled in E by assumption.
      destruct (Z.leb_spec (width f) 0) as [Hw|Hw].
      { rewrite smooth_raise in E by auto. congruence. }
      destruct (snd f) as [|y0 y'] eqn:Ey.
      { rewrite smooth_raise in E by auto. congruence. }
      destruct (@smooth_ok (fst f) padding max_range (y0 :: y')) as (? & ? & _ & _ & E');
        [lia | discriminate | congruence].
Qed.

End Loader.

(** X10.  With smoothing disabled ([smoothing <= 1]) the loader hands every
    run through untouched, in file order, whatever the runs contain: empty
    runs and runs with x and y of different lengths included. *)
Theorem load_csv_runs_disabled (frames : list frame) (smoothing padding : Z)
  (max_range : option Z) :
  (smoothing <= 1)%Z ->
  load_csv_runs frames smoothing padding max_range
  = Ok (map fst frames, map snd frames).
Proof.
  intros Hs. rewrite load_csv_runs_loop.
  now rewrite (load_loop_disabled padding max_range frames [] [] Hs).
Qed.

Lemma load_csv_runs_disabled_witness :
  load_csv_runs [([lit 0; lit 1], [lit 5; lit 6]); ([], [])] 1 10 None
  = Ok (map fst [([lit 0; lit 1], [lit 5; lit 6]); ([], [])],
        map snd [([lit 0; lit 1], [lit 5; lit 6]); ([], [])]).
Proof.
  apply (@load_csv_runs_disabled [([lit 0; lit 1], [lit 5; lit 6]); ([], [])] 1%Z 10%Z None).
  lia.
Defined.

(** X11.  With smoothing enabled, if every run has a non-empty y and a kernel
    of positive width, the loader returns the x columns untouched and, in
    file order, the smoothed y of each run. *)
Theorem load_csv_runs_smoothed (frames : list frame) (smoothing padding : Z)
  (max_range : option Z) :
  (1 < smoothing)%Z ->
  Forall (fun f => (1 <= kernel_width (fst f) padding max_range)%Z /\ snd f <> []) frames ->
  exists ys,
    load_csv_runs frames smoothing padding max_range = Ok (map fst frames, ys) /\
    Forall2 (fun f y' =>
               smooth_reward_curve (fst f) (snd f) padding max_range = Ok (fst f, y'))
            frames ys.
Proof.
  intros Hs Hall. rewrite load_csv_runs_loop.
  destruct (@load_loop_enabled smoothing padding max_range frames [] [] Hs Hall)
    as (ys & E & HF).
  exists ys. now rewrite E.
Qed.

Lemma load_csv_runs_smoothed_witness :
  let frames := [([lit 0; lit 1], [lit 5; lit 6]); ([lit 0], [lit 7])] in
  exists ys,
    load_csv_runs frames 5 10 None = Ok (map fst frames, ys) /\
    Forall2 (fun f y' =>
               smooth_reward_curve (fst f) (snd f) 10 None = Ok (fst f, y'))
            frames ys.
Proof.
  apply (@load_csv_runs_smoothed
           [([lit 0; lit 1], [lit 5; lit 6]); ([lit 0], [lit 7])] 5%Z 10%Z None).
  - lia.
  - repeat constructor; (vm_compute; discriminate) || discriminate.
Defined.

(** X12.  With smoothing enabled, one run with an empty y column (a CSV
    without data rows) or with a kernel of non-positive width makes the
    whole group fail with [ValueError]; no partial result is returned. *)
Theorem load_csv_runs_fails (frames : list frame) (smoothing padding : Z)
  (max_range : option Z) :
  (1 < smoothing)%Z ->
  Exists (fun f => (kernel_width (fst f) padding max_range <= 0)%Z \/ snd f = []) frames ->
  load_csv_runs frames smoothing padding max_range = Raise ValueError.
Proof.
  intros Hs Hex. rewrite load_csv_runs_loop.
  now apply load_loop_fails.
Qed.

Lemma load_csv_runs_fails_witness :
  load_csv_runs [([lit 0; lit 1], [lit 5; lit 6]); ([], [])] 5 10 None
  = Raise ValueError.
Proof.
  apply (@load_csv_runs_fails [([lit 0; lit 1], [lit 5; lit 6]); ([], [])] 5%Z 10%Z None).
  - lia.
  - apply Exists_cons_tl. apply Exists_cons_hd. right. reflexivity.
Defined.

(** ** Runs of different lengths, end to end *)

Lemma reaching_valid (runs : list (list val)) (j : nat) :
  filter (fun v => negb (isnan v)) (reaching runs j)
  = filter (fun v => negb (isnan v)) (column runs j).
Proof.
  unfold reaching, column.
  induction runs as [|r runs IH]; [reflexivity|].
  cbn [flat_map map]. rewrite filter_app, IH.
  destruct (nth_error r j) as [v|] eqn:E.
  - rewrite (nth_error_nth r j NaN E). simpl.
    now destruct (negb (isnan v)).
  - apply (proj1 (nth_error_None r j)) in E.
    now rewrite (nth_overflow r NaN E).
Qed.

Lemma ascending_valid_reaching (runs : list (list val)) (j : nat) (s : list val) :
  ascending_valid (reaching runs j) s <-> ascending_valid (column runs j) s.
Proof. unfold ascending_valid. now rewrite reaching_valid. Qed.

(** X13.  The runs of a group may differ in length.  Given as plain
    sequences they are drawn exactly when the longest x and the longest y
    have one length; otherwise [plt.plot] raises [ValueError].  When they are
    drawn, each statistic at position [j] is (in exact arithmetic) the
    statistic of the values that the runs reaching position [j] hold there
    and that are not not-a-number, taken in ascending order: a run that ends
    before [j] contributes nothing, and a position that only such values
    reach gets not-a-number. *)
Theorem plot_with_iqr_ragged_runs (xs ys : list (list val)) :
  xs <> [] -> ys <> [] ->
  (max_length xs <> max_length ys ->
   plot_with_iqr (map arr1 xs) (map arr1 ys) = Raise ValueError) /\
  (max_length xs = max_length ys ->
   exists c,
     plot_with_iqr (map arr1 xs) (map arr1 ys) = Ok c /\
     shape (curve_x c) = [max_length ys] /\
     shape (curve_median c) = [max_length ys] /\
     shape (curve_q25 c) = [max_length ys] /\
     shape (curve_q75 c) = [max_length ys] /\
     forall j, j < max_length ys ->
       (exists s, ascending_valid (reaching ys j) s) /\
       forall s, ascending_valid (reaching ys j) s ->
         nth j (data (curve_median c)) NaN = stat_or_sentinel spec_median s /\
         nth j (data (curve_q25 c)) NaN
         = stat_or_sentinel (spec_percentile (of_nat 25)) s /\
         nth j (data (curve_q75 c)) NaN
         = stat_or_sentinel (spec_percentile (of_nat 75)) s).
Proof.
  intros Hx Hy. split; [now apply plot_with_iqr_lists_refused|].
  intros Hsame.
  destruct (plot_with_iqr_lists Hx Hy Hsame) as (i & x & _ & _ & E).
  eexists. split; [exact E|].
  cbn [curve_x curve_median curve_q25 curve_q75 shape data]. rewrite Hsame.
  repeat (split; [reflexivity|]).
  intros j Hj. rewrite !nth_map_seq by assumption.
  rewrite nanmedian_1d_spec.
  rewrite !nanpercentile_1d_spec
    by (apply percent_bounds_25 || apply percent_bounds_75).
  split.
  - exists (valid_sorted (column ys j)).
    apply ascending_valid_reaching, valid_sorted_ascending.
  - intros s Hs. apply ascending_valid_reaching in Hs.
    now rewrite !(column_stat_ascending _ Hs).
Qed.

Lemma plot_with_iqr_ragged_runs_witness :
  let xs := [[lit 0; lit 1]; [lit 0; lit 1; lit 2]] in
  let ys := [[lit 5; lit 6]; [lit 7; NaN; lit 9]] in
  exists c,
    plot_with_iqr (map arr1 xs) (map arr1 ys) = Ok c /\
    shape (curve_x c) = [max_length ys] /\
    shape (curve_median c) = [max_length ys] /\
    shape (curve_q25 c) = [max_length ys] /\
    shape (curve_q75 c) = [max_length ys] /\
    forall j, j < max_length ys ->
      (exists s, ascending_valid (reaching ys j) s) /\
      forall s, ascending_valid (reaching ys j) s ->
        nth j (data (curve_median c)) NaN = stat_or_sentinel spec_median s /\
        nth j (data (curve_q25 c)) NaN
        = stat_or_sentinel (spec_percentile (of_nat 25)) s /\
        nth j (data (curve_q75 c)) NaN
        = stat_or_sentinel (spec_percentile (of_nat 75)) s.
Proof.
  apply (@plot_with_iqr_ragged_runs
           [[lit 0; lit 1]; [lit 0; lit 1; lit 2]]
           [[lit 5; lit 6]; [lit 7; NaN; lit 9]]).
  - discriminate.
  - discriminate.
  - reflexivity.
Defined.

(** ** The order of the runs *)

(** X14.  The three statistics of the curve do not depend on the order in
    which the runs are given, nor on the x-sequences: two groups that can be
    drawn and whose y-sequences are the same up to their order get the same
    median and the same percentiles. *)
Theorem plot_with_iqr_order_of_runs (xs xs' ys ys' : list (list val)) :
  xs <> [] -> xs' <> [] -> ys <> [] -> Permutation ys ys' ->
  max_length xs = max_length ys -> max_length xs' = max_length ys ->
  exists c c',
    plot_with_iqr (map arr1 xs) (map arr1 ys) = Ok c /\
    plot_with_iqr (map arr1 xs') (map arr1 ys') = Ok c' /\
    curve_median c = curve_median c' /\
    curve_q25 c = curve_q25 c' /\
    curve_q75 c = curve_q75 c'.
Proof.
  intros Hx Hx' Hy Hperm Hsame Hsame'.
  assert (Hy' : ys' <> []).
  { intros ->. apply Permutation_sym, Permutation_nil in Hperm. contradiction. }
  rewrite (max_length_permutation Hperm) in Hsame'.
  destruct (plot_with_iqr_lists Hx Hy Hsame) as (i & x & _ & _ & E).
  destruct (plot_with_iqr_lists Hx' Hy' Hsame') as (i' & x' & _ & _ & E').
  do 2 eexists. split; [exact E|]. split; [exact E'|].
  cbn [curve_median curve_q25 curve_q75].
  rewrite <- (max_length_permutation Hperm).
  assert (Hcol : forall j, Permutation (column ys j) (column ys' j))
    by (intros j; now apply Permutation_map).
  repeat split; f_equal; apply map_ext; intros j.
  - now apply nanmedian_1d_permutation.
  - now apply nanpercentile_1d_permutation.
  - now apply nanpercentile_1d_permutation.
Qed.

Lemma plot_with_iqr_order_of_runs_witness :
  let xs := [[lit 0; lit 1]; [lit 0; lit 1; lit 2]] in
  let xs' := [[lit 9; lit 8; lit 7]] in
  let ys := [[lit 5; lit 6]; [lit 7; NaN; lit 9]; [lit 1]] in
  let ys' := [[lit 1]; [lit 5; lit 6]; [lit 7; NaN; lit 9]] in
  exists c c',
    plot_with_iqr (map arr1 xs) (map arr1 ys) = Ok c /\
    plot_with_iqr (map arr1 xs') (map arr1 ys') = Ok c' /\
    curve_median c = curve_median c' /\
    curve_q25 c = curve_q25 c' /\
    curve_q75 c = curve_q75 c'.
Proof.
  apply (@plot_with_iqr_order_of_runs
           [[lit 0; lit 1]; [lit 0; lit 1; lit 2]] [[lit 9; lit 8; lit 7]]
           [[lit 5; lit 6]; [lit 7; NaN; lit 9]; [lit 1]]
           [[lit 1]; [lit 5; lit 6]; [lit 7; NaN; lit 9]]).
  - discriminate.
  - discriminate.
  - discriminate.
  - apply Permutation_sym. apply (Permutation_cons_app [_; _] [] _).
    reflexivity.
  - reflexivity.
  - reflexivity.
Defined.

(** ** The band around the median *)

Ltac qc_to_q :=
  repeat (progress (unfold Qcle, Qclt, Qcplus, Qcmult, Qcminus, Qcopp in *;
                    cbn [this Q2Qc] in *));
  rewrite ?Qred_correct in *.

Lemma of_Z_plus (a b : Z) : of_Z (a + b) = (of_Z a + of_Z b)%Qc.
Proof.
  unfold of_Z. apply Qc_is_canon. unfold Qcplus. cbn [this Q2Qc].
  rewrite !Qred_correct, inject_Z_plus. reflexivity.
Qed.

Lemma of_Z_1 : of_Z 1 = 1%Qc.
Proof. apply Qc_is_canon. reflexivity. Qed.

(** Where the floor and the ceiling of a rank between [0] and [m] lie. *)
Lemma rank_floor_ceiling (h : Qc) (m : Z) :
  (0 <= h)%Qc -> (h <= of_Z m)%Qc ->
  (0 <= Qfloor (this h) <= m)%Z /\
  (Qfloor (this h) <= Qceiling (this h) <= Qfloor (this h) + 1)%Z /\
  (Qceiling (this h) <= m)%Z.
Proof.
  intros Hh0 Hhm.
  destruct (qfloor_bounds h) as [Hf1 Hf2].
  destruct (qceiling_bounds h) as [Hc1 Hc2].
  remember (Qfloor (this h)) as fl eqn:Efl.
  remember (Qceiling (this h)) as ce eqn:Ece.
  assert (H1 : (of_Z 0 < of_Z (fl + 1))%Qc).
  { rewrite of_Z_0. eapply Qcle_lt_trans; eassumption. }
  apply (proj1 (of_Z_lt _ _)) in H1.
  assert (H2 : (of_Z fl <= of_Z m)%Qc) by (eapply Qcle_trans; eassumption).
  apply (proj1 (of_Z_le _ _)) in H2.
  assert (H3 : (of_Z fl <= of_Z ce)%Qc) by (eapply Qcle_trans; eassumption).
  apply (proj1 (of_Z_le _ _)) in H3.
  assert (H4 : (of_Z (ce - 1) < of_Z (fl + 1))%Qc) by (eapply Qclt_trans; eassumption).
  apply (proj1 (of_Z_lt _ _)) in H4.
  assert (H5 : (of_Z (ce - 1) < of_Z m)%Qc) by (eapply Qclt_le_trans; eassumption).
  apply (proj1 (of_Z_lt _ _)) in H5.
  lia.
Qed.

Lemma rank_fraction (h : Qc) :
  (0 <= h - of_Z (Qfloor (this h)))%Qc /\ (h - of_Z (Qfloor (this h)) <= 1)%Qc.
Proof.
  destruct (qfloor_bounds h) as [Hf1 Hf2].
  rewrite of_Z_plus, of_Z_1 in Hf2.
  remember (of_Z (Qfloor (this h))) as f eqn:Ef. clear Ef.
  qc_to_q. split; lra.
Qed.

Lemma rank_fraction_zero (h : Qc) :
  Qceiling (this h) = Qfloor (this h) -> (h - of_Z (Qfloor (this h)) = 0)%Qc.
Proof.
  intros E.
  destruct (qfloor_bounds h) as [Hf1 _].
  destruct (qceiling_bounds h) as [_ Hc2]. rewrite E in Hc2.
  remember (Qfloor (this h)) as fl eqn:Efl. clear Efl E.
  rewrite (Qcle_antisym _ _ Hc2 Hf1). ring.
Qed.

Lemma nth_map_Num (qs : list Qc) (i : nat) :
  i < length qs -> nth i (map Num qs) NaN = Num (nth i qs 0%Qc).
Proof.
  intros Hi. rewrite (nth_indep _ NaN (Num 0%Qc)) by (now rewrite length_map).
  apply map_nth.
Qed.

Lemma interpolate_num (h : Qc) (qs : list Qc) :
  (0 <= h)%Qc -> (h <= of_Z (Z.of_nat (length qs) - 1))%Qc -> qs <> [] ->
  interpolate h (map Num qs) = Num (qinterp h qs).
Proof.
  intros Hh0 Hhm Hne.
  assert (Hn : 0 < length qs) by (destruct qs; [congruence | simpl; lia]).
  destruct (rank_floor_ceiling Hh0 Hhm) as (Hfl & Hce & Hcem).
  unfold interpolate, qinterp.
  rewrite !nth_map_Num by lia. simpl. f_equal.
Qed.

Lemma sorted_nth_le (qs : list Qc) (i j : nat) :
  StronglySorted Qcle qs -> i <= j -> j < length qs ->
  (nth i qs 0 <= nth j qs 0)%Qc.
Proof.
  intros Hs. revert i j.
  induction Hs as [|q qs Hs IH Hall]; intros i j Hij Hj; simpl in Hj; [lia|].
  destruct i as [|i], j as [|j]; simpl; try lia.
  - apply Qcle_refl.
  - rewrite Forall_forall in Hall. apply Hall. apply nth_In. lia.
  - apply IH; lia.
Qed.

Section Interpolation.

Variable qs : list Qc.
Hypothesis qs_sorted : StronglySorted Qcle qs.
Hypothesis qs_nonempty : qs <> [].

Local Abbreviation top := (of_Z (Z.of_nat (length qs) - 1)).

(** The interpolated value lies between the two order statistics around the
    rank. *)
Lemma qinterp_between (h : Qc) :
  (0 <= h)%Qc -> (h <= top)%Qc ->
  (nth (Z.to_nat (Qfloor (this h))) qs 0 <= qinterp h qs)%Qc /\
  (qinterp h qs <= nth (Z.to_nat (Qceiling (this h))) qs 0)%Qc.
Proof.
  intros Hh0 Hhm.
  destruct (rank_floor_ceiling Hh0 Hhm) as (Hfl & Hce & Hcem).
  destruct (rank_fraction h) as [Hf0 Hf1].
  assert (Hab : (nth (Z.to_nat (Qfloor (this h))) qs 0
                 <= nth (Z.to_nat (Qceiling (this h))) qs 0)%Qc)
    by (apply sorted_nth_le; [assumption | lia | lia]).
  unfold qinterp.
  remember (nth (Z.to_nat (Qfloor (this h))) qs 0%Qc) as a.
  remember (nth (Z.to_nat (Qceiling (this h))) qs 0%Qc) as b.
  remember (h - of_Z (Qfloor (this h)))%Qc as f.
  clear - Hab Hf0 Hf1. qc_to_q. split; nra.
Qed.

(** The interpolated value does not decrease with the rank. *)
Lemma qinterp_mono (h h' : Qc) :
  (0 <= h)%Qc -> (h <= h')%Qc -> (h' <= top)%Qc ->
  (qinterp h qs <= qinterp h' qs)%Qc.
Proof.
  intros Hh0 Hhh Hhm.
  assert (Hh0' : (0 <= h')%Qc) by (eapply Qcle_trans; eassumption).
  assert (Hhm' : (h <= top)%Qc) by (eapply Qcle_trans; eassumption).
  destruct (rank_floor_ceiling Hh0 Hhm') as (Hfl & Hce & Hcem).
  destruct (rank_floor_ceiling Hh0' Hhm) as (Hfl' & Hce' & Hcem').
  destruct (qinterp_between Hh0 Hhm') as [_ Hup].
  destruct (qinterp_between Hh0' Hhm) as [Hlow' _].
  destruct (Z_le_gt_dec (Qceiling (this h)) (Qfloor (this h'))) as [Hsep|Hsame].
  - eapply Qcle_trans; [exact Hup|]. eapply Qcle_trans; [|exact Hlow'].
    apply sorted_nth_le; [assumption | lia | lia].
  - destruct (qfloor_bounds h) as [Hf1 Hf2].
    destruct (qfloor_bounds h') as [Hf1' Hf2'].
    destruct (qceiling_bounds h) as [Hc1 Hc2].
    destruct (qceiling_bounds h') as [Hc1' Hc2'].
    assert (H1 : (of_Z (Qfloor (this h)) < of_Z (Qfloor (this h') + 1))%Qc).
    { eapply Qcle_lt_trans; [exact Hf1|].
      eapply Qcle_lt_trans; [exact Hhh | exact Hf2']. }
    apply (proj1 (of_Z_lt _ _)) in H1.
    assert (H2 : (of_Z (Qceiling (this h) - 1) < of_Z (Qceiling (this h')))%Qc).
    { eapply Qclt_le_trans; [exact Hc1|].
      eapply Qcle_trans; [exact Hhh | exact Hc2']. }
    apply (proj1 (of_Z_lt _ _)) in H2.
    assert (Ef : Qfloor (this h') = Qfloor (this h)) by lia.
    assert (Ec : Qceiling (this h') = Qceiling (this h)) by lia.
    unfold qinterp. rewrite Ef, Ec.
    assert (Hab : (nth (Z.to_nat (Qfloor (this h))) qs 0
                   <= nth (Z.to_nat (Qceiling (this h))) qs 0)%Qc)
      by (apply sorted_nth_le; [assumption | lia | lia]).
    remember (nth (Z.to_nat (Qfloor (this h))) qs 0%Qc) as a.
    remember (nth (Z.to_nat (Qceiling (this h))) qs 0%Qc) as b.
    remember (of_Z (Qfloor (this h))) as f.
    clear - Hab Hhh. qc_to_q. nra.
Qed.

End Interpolation.

Lemma half_percent : (of_nat 50 / of_nat 100 = Q2Qc (1 # 2))%Qc.
Proof. apply Qc_is_canon. reflexivity. Qed.

Lemma of_Z_double (m : Z) : of_Z (2 * m) = (of_Z m + of_Z m)%Qc.
Proof. replace (2 * m)%Z with (m + m)%Z by lia. apply of_Z_plus. Qed.

Lemma of_Z_pred (m : Z) : of_Z (m - 1) = (of_Z m - 1)%Qc.
Proof.
  replace (m - 1)%Z with (m + -1)%Z by lia. rewrite of_Z_plus.
  replace (of_Z (-1)) with (- (1))%Qc by (apply Qc_is_canon; reflexivity).
  ring.
Qed.

Lemma of_Z_succ (m : Z) : of_Z (m + 1) = (of_Z m + 1)%Qc.
Proof. now rewrite of_Z_plus, of_Z_1. Qed.

(** The floor and the ceiling of a rank strictly between two consecutive
    integers, and of an integer rank. *)
Lemma floor_ceiling_between (h : Qc) (m : Z) :
  (of_Z m < h)%Qc -> (h < of_Z (m + 1))%Qc ->
  Qfloor (this h) = m /\ Qceiling (this h) = (m + 1)%Z.
Proof.
  intros H1 H2.
  destruct (qfloor_bounds h) as [Hf1 Hf2].
  destruct (qceiling_bounds h) as [Hc1 Hc2].
  assert (A : (of_Z (Qfloor (this h)) < of_Z (m + 1))%Qc)
    by (eapply Qcle_lt_trans; [exact Hf1 | exact H2]).
  assert (B : (of_Z m < of_Z (Qfloor (this h) + 1))%Qc)
    by (eapply Qclt_trans; [exact H1 | exact Hf2]).
  assert (C : (of_Z (Qceiling (this h) - 1) < of_Z (m + 1))%Qc)
    by (eapply Qclt_trans; [exact Hc1 | exact H2]).
  assert (D : (of_Z m < of_Z (Qceiling (this h)))%Qc)
    by (eapply Qclt_le_trans; [exact H1 | exact Hc2]).
  apply (proj1 (of_Z_lt _ _)) in A, B, C, D. lia.
Qed.

Lemma floor_ceiling_integer (m : Z) :
  Qfloor (this (of_Z m)) = m /\ Qceiling (this (of_Z m)) = m.
Proof.
  destruct (qfloor_bounds (of_Z m)) as [Hf1 Hf2].
  destruct (qceiling_bounds (of_Z m)) as [Hc1 Hc2].
  apply (proj1 (of_Z_le _ _)) in Hf1, Hc2.
  apply (proj1 (of_Z_lt _ _)) in Hf2, Hc1. lia.
Qed.

(** The median is the interpolation at the middle rank: the 50th
    percentile. *)
Lemma spec_median_interp (qs : list Qc) :
  qs <> [] ->
  spec_median (map Num qs)
  = Num (qinterp ((of_nat (length qs) - 1) * of_nat 50 / of_nat 100)%Qc qs).
Proof.
  intros Hne.
  assert (Hn : 0 < length qs) by (destruct qs; [congruence | simpl; lia]).
  unfold spec_median. rewrite length_map.
  replace ((of_nat (length qs) - 1) * of_nat 50 / of_nat 100)%Qc
    with ((of_nat (length qs) - 1) * Q2Qc (1 # 2))%Qc
    by (rewrite <- half_percent; field; apply of_nat_pos; lia).
  rewrite (of_nat_pred Hn).
  destruct (Nat.even (length qs)) eqn:Ev.
  - apply Nat.even_spec in Ev. destruct Ev as [m Em].
    assert (Hdiv : length qs / 2 = m)
      by (rewrite Em, Nat.mul_comm; apply Nat.div_mul; lia).
    rewrite Hdiv.
    replace (Z.of_nat (length qs) - 1)%Z with (2 * Z.of_nat m - 1)%Z by lia.
    assert (Eh : (of_Z (2 * Z.of_nat m - 1) * Q2Qc (1 # 2)
                  = of_Z (Z.of_nat m - 1) + Q2Qc (1 # 2))%Qc).
    { rewrite !of_Z_pred, of_Z_double.
      apply Qc_is_canon. qc_to_q. lra. }
    rewrite Eh.
    set (h := (of_Z (Z.of_nat m - 1) + Q2Qc (1 # 2))%Qc).
    destruct (@floor_ceiling_between h (Z.of_nat m - 1)) as [Efl Ece].
    { unfold h. qc_to_q. lra. }
    { unfold h. rewrite of_Z_succ. qc_to_q. lra. }
    unfold qinterp. rewrite Efl, Ece.
    replace (Z.to_nat (Z.of_nat m - 1)) with (m - 1) by lia.
    replace (Z.to_nat (Z.of_nat m - 1 + 1)) with m by lia.
    rewrite !nth_map_Num by lia. simpl.
    destruct (Qc_eq_dec (of_nat 2) 0) as [E|_]; [now apply of_nat_pos in E|].
    f_equal. unfold h.
    replace (of_nat 2) with (1 + 1)%Qc by (apply Qc_is_canon; reflexivity).
    remember (nth (m - 1) qs 0%Qc) as a. remember (nth m qs 0%Qc) as b.
    remember (of_Z (Z.of_nat m - 1)) as f.
    apply Qc_is_canon. unfold Qcdiv, Qcinv. qc_to_q. field.
  - assert (Hodd : Nat.odd (length qs) = true)
      by (rewrite <- Nat.negb_even, Ev; reflexivity).
    apply Nat.odd_spec in Hodd. destruct Hodd as [m Em].
    assert (Hdiv : length qs / 2 = m).
    { rewrite Em. replace (2 * m + 1) with (1 + m * 2) by lia.
      rewrite Nat.div_add by lia. reflexivity. }
    rewrite Hdiv.
    replace (Z.of_nat (length qs) - 1)%Z with (2 * Z.of_nat m)%Z by lia.
    assert (Eh : (of_Z (2 * Z.of_nat m) * Q2Qc (1 # 2) = of_Z (Z.of_nat m))%Qc).
    { rewrite of_Z_double. apply Qc_is_canon. qc_to_q. lra. }
    rewrite Eh.
    destruct (floor_ceiling_integer (Z.of_nat m)) as [Efl Ece].
    unfold qinterp. rewrite Efl, Ece, Nat2Z.id.
    rewrite nth_map_Num by lia. f_equal. ring.
Qed.

Lemma percent_constants :
  (of_nat 25 / of_nat 100 = Q2Qc (1 # 4))%Qc /\
  (of_nat 75 / of_nat 100 = Q2Qc (3 # 4))%Qc.
Proof. split; apply Qc_is_canon; reflexivity. Qed.

Lemma rank_as_product (N1 p : Qc) :
  (N1 * p / of_nat 100 = N1 * (p / of_nat 100))%Qc.
Proof. field. apply of_nat_pos. lia. Qed.

(** The ranks of the 25th, 50th and 75th percentiles among [n] values. *)
Lemma rank_order (N1 : Qc) :
  (0 <= N1)%Qc ->
  (0 <= N1 * of_nat 25 / of_nat 100)%Qc /\
  (N1 * of_nat 25 / of_nat 100 <= N1 * of_nat 50 / of_nat 100)%Qc /\
  (N1 * of_nat 50 / of_nat 100 <= N1 * of_nat 75 / of_nat 100)%Qc /\
  (N1 * of_nat 75 / of_nat 100 <= N1)%Qc.
Proof.
  intros H0. destruct percent_constants as [E25 E75].
  rewrite !rank_as_product, E25, E75, half_percent.
  qc_to_q. repeat split; lra.
Qed.

(** In a column with at least one value that counts, the three statistics
    are finite and ordered. *)
Lemma column_band (col : list val) :
  valid_sorted col <> [] ->
  vle (Np.nanpercentile_1d (of_nat 25) col) (Np.nanmedian_1d col) /\
  vle (Np.nanmedian_1d col) (Np.nanpercentile_1d (of_nat 75) col).
Proof.
  intros Hne.
  rewrite nanmedian_1d_spec.
  rewrite !nanpercentile_1d_spec
    by (apply percent_bounds_25 || apply percent_bounds_75).
  destruct (valid_sorted_rationals col) as (qs & E & Hs).
  assert (Hq : qs <> []) by (intros ->; now apply Hne).
  assert (Hn : 0 < length qs) by (destruct qs; [congruence | simpl; lia]).
  assert (Hcs : forall f, column_stat f col = f (map Num qs)).
  { intros f. unfold column_stat. rewrite E.
    destruct qs; [congruence | reflexivity]. }
  rewrite !Hcs.
  unfold spec_percentile. rewrite length_map, (spec_median_interp Hq).
  assert (H0 : (0 <= of_nat (length qs) - 1)%Qc).
  { rewrite (of_nat_pred Hn), <- of_Z_0. apply (proj2 (of_Z_le _ _)). lia. }
  destruct (rank_order H0) as (R0 & R1 & R2 & R3).
  rewrite (of_nat_pred Hn) in *.
  assert (T50 : ((of_Z (Z.of_nat (length qs) - 1)) * of_nat 50 / of_nat 100
                 <= of_Z (Z.of_nat (length qs) - 1))%Qc)
    by (eapply Qcle_trans; eassumption).
  rewrite !interpolate_num; try assumption.
  - split; apply qinterp_mono; try assumption.
    eapply Qcle_trans; eassumption.
  - eapply Qcle_trans; [exact R0|]. eapply Qcle_trans; eassumption.
  - eapply Qcle_trans; [exact R1|]. exact T50.
Qed.

Lemma valid_sorted_nonempty (col : list val) :
  (exists v, In v col /\ isnan v = false) -> valid_sorted col <> [].
Proof.
  intros (v & Hin & Hv) E. unfold valid_sorted in E.
  apply (proj1 (sort_nil_iff _)) in E.
  assert (Hf : In v (filter (fun v => negb (isnan v)) col))
    by (apply filter_In; split; [exact Hin | now rewrite Hv]).
  rewrite E in Hf. destruct Hf.
Qed.

(** X15.  The band lies around the median line, in exact arithmetic over
    values that are rationals or not-a-number: for a group that can be
    drawn, at every position where at least one run has a value that is not
    not-a-number, the three statistics are numbers and the 25th percentile
    is at most the median, which is at most the 75th percentile. *)
Theorem plot_with_iqr_band_ordered (xs ys : list (list val)) :
  xs <> [] -> ys <> [] -> max_length xs = max_length ys ->
  exists c,
    plot_with_iqr (map arr1 xs) (map arr1 ys) = Ok c /\
    forall j, j < max_length ys ->
      (exists v, In v (column ys j) /\ isnan v = false) ->
      vle (nth j (data (curve_q25 c)) NaN) (nth j (data (curve_median c)) NaN) /\
      vle (nth j (data (curve_median c)) NaN) (nth j (data (curve_q75 c)) NaN).
Proof.
  intros Hx Hy Hsame.
  destruct (plot_with_iqr_lists Hx Hy Hsame) as (i & x & _ & _ & E).
  eexists. split; [exact E|].
  cbn [curve_median curve_q25 curve_q75 data].
  intros j Hj Hv. rewrite !nth_map_seq by assumption.
  apply column_band. now apply valid_sorted_nonempty.
Qed.

Lemma plot_with_iqr_band_ordered_witness :
  let xs := [[lit 0; lit 1]; [lit 0; lit 1; lit 2]] in
  let ys := [[lit 5; lit 6]; [lit 7; NaN; lit 9]; [lit 1]] in
  exists c,
    plot_with_iqr (map arr1 xs) (map arr1 ys) = Ok c /\
    forall j, j < max_length ys ->
      (exists v, In v (column ys j) /\ isnan v = false) ->
      vle (nth j (data (curve_q25 c)) NaN) (nth j (data (curve_median c)) NaN) /\
      vle (nth j (data (curve_median c)) NaN) (nth j (data (curve_q75 c)) NaN).
Proof.
  apply (@plot_with_iqr_band_ordered
           [[lit 0; lit 1]; [lit 0; lit 1; lit 2]]
           [[lit 5; lit 6]; [lit 7; NaN; lit 9]; [lit 1]]).
  - discriminate.
  - discriminate.
  - reflexivity.
Defined.

(** ** The loop of [main] *)

Lemma combine_seq_app {A} (l1 l2 : list A) (s : nat) :
  combine (seq s (length (l1 ++ l2))) (l1 ++ l2)
  = combine (seq s (length l1)) l1 ++ combine (seq (s + length l1) (length l2)) l2.
Proof.
  revert s. induction l1 as [|a l1 IH]; intros s; simpl.
  - now rewrite Nat.add_0_r.
  - f_equal. rewrite IH. do 3 f_equal. lia.
Qed.

(** A group of one run with smoothing disabled and as many x as y values is
    drawn as it is. *)
Lemma plot_group_one_run (x y : list val) (smoothing padding : Z) (max_range : option Z) :
  (smoothing <= 1)%Z -> length x = length y ->
  exists c, plot_group [(x, y)] smoothing padding max_range = Ok c.
Proof.
  intros Hs Hlen. unfold plot_group.
  rewrite (load_csv_runs_loop smoothing padding max_range).
  rewrite (load_loop_disabled padding max_range [(x, y)] [] [] Hs).
  cbn [bind app map fst snd].
  destruct (@plot_with_iqr_lists [x] [y]) as (i & x' & _ & _ & E);
    [discriminate | discriminate | unfold max_length; simpl; lia |].
  eexists. exact E.
Qed.

Section MainLoop.

Variables (smoothing padding : Z) (max_range : option Z).
Variables (labels : list String.string) (color0 : String.string) (colors : list String.string).

Local Abbreviation step := (main_step smoothing padding max_range labels color0 colors).
Local Abbreviation loop gs := (main_loop gs smoothing padding max_range labels color0 colors).
Local Abbreviation palette := (color0 :: colors).

Lemma main_loop_snoc (gs : list (list frame)) (g : list frame) :
  loop (gs ++ [g]) = step (loop gs) (length gs, g).
Proof. unfold main_loop. now rewrite enumerate_snoc, fold_left_app. Qed.

Lemma palette_getitem (i : nat) :
  list_getitem palette (i mod length palette)
  = Ok (nth (i mod length palette) palette color0).
Proof.
  unfold list_getitem.
  assert (H : i mod length palette < length palette)
    by (apply Nat.mod_upper_bound; discriminate).
  now rewrite (nth_error_nth' palette color0 H).
Qed.

Lemma plot_group_inv (g : list frame) (c : SummaryCurve) :
  plot_group g smoothing padding max_range = Ok c ->
  exists xs ys,
    load_csv_runs g smoothing padding max_range = Ok (xs, ys) /\
    plot_with_iqr (map arr1 xs) (map arr1 ys) = Ok c.
Proof.
  unfold plot_group. intros E.
  destruct (load_csv_runs g smoothing padding max_range) as [[xs ys]|e];
    [|discriminate E].
  cbn [bind] in E. eauto.
Qed.

Lemma main_step_ok (drawn : list drawing) (i : nat) (g : list frame)
  (c : SummaryCurve) (label : String.string) :
  plot_group g smoothing padding max_range = Ok c ->
  nth_error labels i = Some label ->
  step (Ok drawn) (i, g)
  = Ok (drawn ++ [(c, label, nth (i mod length palette) palette color0)]).
Proof.
  intros Ec El. destruct (plot_group_inv g Ec) as (xs & ys & E1 & E2).
  unfold main_step. cbn [bind]. rewrite E1. cbn [bind].
  unfold list_getitem at 1. rewrite El. cbn [bind].
  rewrite palette_getitem. cbn [bind]. rewrite E2. reflexivity.
Qed.

Lemma main_step_no_label (drawn : list drawing) (i : nat) (g : list frame)
  (xs ys : list (list val)) :
  load_csv_runs g smoothing padding max_range = Ok (xs, ys) ->
  nth_error labels i = None ->
  step (Ok drawn) (i, g) = Raise IndexError.
Proof.
  intros E1 El.
  unfold main_step. cbn [bind]. rewrite E1. cbn [bind].
  unfold list_getitem at 1. now rewrite El.
Qed.

Lemma main_fold_raise (es : list (nat * list frame)) (e : exn) :
  fold_left step es (Raise e) = Raise e.
Proof. induction es as [|x es IH]; simpl; auto. Qed.

(** The invariant of the loop while labels last. *)
Lemma main_loop_drawn (gs : list (list frame)) :
  length gs <= length labels ->
  Forall (fun g => exists c, plot_group g smoothing padding max_range = Ok c) gs ->
  exists drawn,
    loop gs = Ok drawn /\
    length drawn = length gs /\
    forall i g, nth_error gs i = Some g ->
      exists c label,
        nth_error drawn i = Some (c, label, nth (i mod length palette) palette color0) /\
        plot_group g smoothing padding max_range = Ok c /\
        nth_error labels i = Some label.
Proof.
  induction gs as [|g gs IH] using rev_ind; intros Hlen Hall.
  - exists []. repeat split. intros i g E. destruct i; discriminate E.
  - rewrite length_app in Hlen. simpl in Hlen.
    apply Forall_app in Hall. destruct Hall as [Hall Hg].
    inversion Hg as [|? ? [c Ec] _]; subst.
    destruct (IH ltac:(lia) Hall) as (drawn & E & Hd & Hnth).
    destruct (nth_error labels (length gs)) as [label|] eqn:El.
    2:{ apply (proj1 (nth_error_None _ _)) in El. exfalso. lia. }
    exists (drawn ++ [(c, label, nth (length gs mod length palette) palette color0)]).
    rewrite main_loop_snoc, E. split; [now apply main_step_ok|].
    split; [rewrite !length_app; simpl; lia|].
    intros i g' Ei.
    destruct (Nat.lt_ge_cases i (length gs)) as [Hi|Hi].
    + rewrite nth_error_app1 in Ei by assumption.
      destruct (Hnth i g' Ei) as (c' & l' & A & B & C).
      exists c', l'. rewrite nth_error_app1 by lia. auto.
    + rewrite nth_error_app2 in Ei by assumption.
      destruct (i - length gs) as [|k] eqn:Ek; [|destruct k; discriminate Ei].
      injection Ei as <-. assert (i = length gs) by lia. subst i.
      exists c, label. rewrite nth_error_app2 by lia.
      rewrite Hd, Nat.sub_diag. auto.
Qed.

Lemma main_loop_app (gs rest : list (list frame)) :
  loop (gs ++ rest)
  = fold_left step (combine (seq (length gs) (length rest)) rest) (loop gs).
Proof.
  unfold main_loop, enumerate.
  now rewrite combine_seq_app, fold_left_app.
Qed.

End MainLoop.

(** X17.  When there are at least as many labels as groups and every group
    can be loaded and drawn, the loop of [main] draws one curve per group, in
    order; group [i] gets the label [labels[i]] and the colour
    [colors[i mod len(colors)]], so the colours repeat cyclically and any
    number of groups can be drawn with them. *)
Theorem main_loop_draws_every_group (groups : list (list frame))
  (smoothing padding : Z) (max_range : option Z)
  (labels : list String.string) (color0 : String.string) (colors : list String.string) :
  length groups <= length labels ->
  Forall (fun g => exists c, plot_group g smoothing padding max_range = Ok c) groups ->
  exists drawn,
    main_loop groups smoothing padding max_range labels color0 colors = Ok drawn /\
    length drawn = length groups /\
    forall i g, nth_error groups i = Some g ->
      exists c label,
        nth_error drawn i
        = Some (c, label,
                nth (i mod length (color0 :: colors)) (color0 :: colors) color0) /\
        plot_group g smoothing padding max_range = Ok c /\
        nth_error labels i = Some label.
Proof. apply main_loop_drawn. Qed.

Lemma main_loop_draws_every_group_witness :
  let g := [([lit 0; lit 1], [lit 5; lit 6])] in
  let groups := [g; g; g] in
  let labels := ["a"%string; "b"%string; "c"%string] in
  exists drawn,
    main_loop groups 1 10 None labels "red"%string ["blue"%string] = Ok drawn /\
    length drawn = length groups /\
    forall i g, nth_error groups i = Some g ->
      exists c label,
        nth_error drawn i
        = Some (c, label,
                nth (i mod length ["red"%string; "blue"%string])
                    ["red"%string; "blue"%string] "red"%string) /\
        plot_group g 1 10 None = Ok c /\
        nth_error labels i = Some label.
Proof.
  intros g groups labels.
  apply (@main_loop_draws_every_group groups 1%Z 10%Z None labels
           "red"%string ["blue"%string]).
  - simpl. lia.
  - assert (Hg : exists c, plot_group g 1 10 None = Ok c).
    { apply plot_group_one_run; [lia | reflexivity]. }
    repeat constructor; exact Hg.
Defined.

(** X18.  With fewer labels than groups the loop fails with [IndexError] at
    the first group without a label, when the groups before it could be
    loaded and drawn and that group could be loaded.  The label is looked up
    before the curve is drawn, so the failure is the same whether or not
    that group could be drawn; nothing is returned for the groups before it
    either. *)
Theorem main_loop_too_few_labels (groups : list (list frame))
  (smoothing padding : Z) (max_range : option Z)
  (labels : list String.string) (color0 : String.string) (colors : list String.string) :
  length labels < length groups ->
  Forall (fun g => exists c, plot_group g smoothing padding max_range = Ok c)
         (firstn (length labels) groups) ->
  (exists xs ys,
      load_csv_runs (nth (length labels) groups []) smoothing padding max_range
      = Ok (xs, ys)) ->
  main_loop groups smoothing padding max_range labels color0 colors = Raise IndexError.
Proof.
  intros Hlen Hfirst (xs & ys & Eload).
  rewrite <- (firstn_skipn (length labels) groups) in Eload |- *.
  assert (Hl : length (firstn (length labels) groups) = length labels)
    by (apply firstn_length_le; lia).
  rewrite app_nth2 in Eload by lia. rewrite Hl, Nat.sub_diag in Eload.
  destruct (skipn (length labels) groups) as [|g rest] eqn:Es.
  { apply (f_equal (@length _)) in Es. rewrite length_skipn in Es.
    simpl in Es. lia. }
  cbn [nth] in Eload.
  destruct (@main_loop_drawn smoothing padding max_range labels color0 colors
              (firstn (length labels) groups) ltac:(lia) Hfirst) as (drawn & E & _).
  change (g :: rest) with ([g] ++ rest). rewrite app_assoc.
  rewrite main_loop_app, main_loop_snoc, E, Hl.
  rewrite (@main_step_no_label smoothing padding max_range labels color0 colors
             drawn (length labels) g xs ys Eload).
  - apply main_fold_raise.
  - apply nth_error_None. lia.
Qed.

Lemma main_loop_too_few_labels_witness :
  main_loop [[([lit 0; lit 1], [lit 5; lit 6])]; [([lit 0], [lit 7; lit 8])]]
    1 10 None ["a"%string] "red"%string []
  = Raise IndexError.
Proof.
  apply (@main_loop_too_few_labels
           [[([lit 0; lit 1], [lit 5; lit 6])]; [([lit 0], [lit 7; lit 8])]]
           1%Z 10%Z None ["a"%string] "red"%string []).
  - simpl. lia.
  - repeat constructor. apply plot_group_one_run; [lia | reflexivity].
  - do 2 eexists. reflexivity.
Defined.

(** ** Missing values under the smoother *)

Lemma vsum_acc_isnan (l : list val) (acc : Qc) :
  isnan (fold_left vadd l (Num acc)) = existsb isnan l.
Proof.
  revert acc. induction l as [|v l IH]; intros acc; [reflexivity|].
  destruct v as [|q]; cbn [fold_left vadd existsb isnan orb].
  - now rewrite vsum_acc_nan.
  - apply IH.
Qed.

(** The mean of a non-empty list is not-a-number exactly when one of its
    entries is. *)
Lemma mean_isnan (l : list val) :
  l <> [] -> isnan (Np.mean l) = existsb isnan l.
Proof.
  intros Hne. unfold Np.mean, Np.vsum, vzero.
  rewrite <- (vsum_acc_isnan l 0%Qc).
  destruct (fold_left vadd l (Num 0%Qc)) as [|s]; [reflexivity|].
  simpl. destruct (Qc_eq_dec (of_nat (length l)) 0) as [E|_]; [|reflexivity].
  apply of_nat_pos in E; [destruct E|]. destruct l; [congruence | simpl; lia].
Qed.

Lemma slice_window_nonempty (y : list val) (w k : nat) :
  k < length y -> 0 < w -> slice y (k - w / 2) (k + w - w / 2) <> [].
Proof.
  intros Hk Hw E.
  rewrite <- (overlap_picks y Hk Hw) in E.
  apply (f_equal (@length val)) in E. rewrite length_map in E.
  pose proof (@count_conv_pos (length y) w k Hw Hk) as Hpos.
  rewrite E in Hpos. simpl in Hpos. lia.
Qed.

(** In exact arithmetic, over values that are rationals or not-a-number, the
    smoothed value at [k] is not-a-number if and only if the slice of [y]
    under the window at [k] holds a not-a-number value. *)
Lemma smooth_nan_spread_exact (x y : list val) (padding : Z) (a_range : option Z) :
  (1 <= kernel_width x padding a_range)%Z ->
  Z.to_nat (kernel_width x padding a_range) <= length y ->
  let w := Z.to_nat (kernel_width x padding a_range) in
  exists ysmoo,
    smooth_reward_curve x y padding a_range = Ok (x, ysmoo) /\
    forall k, k < length y ->
      isnan (nth k ysmoo NaN)
      = existsb isnan (slice y (k - w / 2) (k + w - w / 2)).
Proof.
  intros Hw Hn w.
  eexists. split.
  - apply smooth_window_mean. fold w. lia.
  - intros k Hk. fold w. rewrite nth_map_seq by assumption. cbv zeta.
    rewrite <- (mean_isnan (slice_window_nonempty y (w := w) Hk ltac:(lia))).
    unfold Np.mean.
    rewrite <- (overlap_picks y (w := w) (k := k)) by lia.
    now rewrite length_map.
Qed.

(** ** Not-a-number under the smoother, in binary64 *)

Lemma overlap_picks_any {A} (y : list A) (d : A) (w k : nat) :
  k < length y -> 0 < w ->
  map (fun i => nth (k + i - w / 2) y d) (Np.overlap (length y) w (w / 2) k)
  = slice y (k - w / 2) (k + w - w / 2).
Proof.
  intros Hk Hw.
  assert (Hh : w / 2 < w) by (apply Nat.div_lt; lia).
  rewrite overlap_seq.
  set (nl := w / 2) in *.
  transitivity (map (fun j => nth j y d)
                  (seq (k - nl) (Nat.min (length y + nl - k) w - (nl - k)))).
  - rewrite <- (map_map (fun i => k + i - nl) (fun j => nth j y d)).
    f_equal.
    replace (k - nl) with (k + (nl - k) - nl) by lia.
    generalize (Nat.min (length y + nl - k) w - (nl - k)) as len.
    assert (Ha : nl <= k + (nl - k)) by lia.
    revert Ha. generalize (nl - k) as a.
    intros a Ha len. revert a Ha.
    induction len as [|len IH]; intros a Ha; [reflexivity|].
    simpl. f_equal. rewrite IH by lia. f_equal. lia.
  - replace (k + w - nl) with ((k - nl) + (k + w - nl - (k - nl))) by lia.
    rewrite <- (map_nth_seq_slice y d). do 2 f_equal. lia.
Qed.

Lemma f64_isnan_inv (v : F64.float) : F64.isnan v = true -> v = F64.nan.
Proof. destruct v; try discriminate; reflexivity. Qed.

Lemma f64_add_nan_r (v : F64.float) : F64.add v F64.nan = F64.nan.
Proof. destruct v; reflexivity. Qed.

Lemma f64_mul_nan_l (v : F64.float) : F64.mul F64.nan v = F64.nan.
Proof. reflexivity. Qed.

Lemma f64_div_nan_l (v : F64.float) : F64.div F64.nan v = F64.nan.
Proof. reflexivity. Qed.

Lemma f64_vsum_acc_nan (l : list F64.float) : fold_left F64.add l F64.nan = F64.nan.
Proof. induction l as [|v l IH]; [reflexivity|]. simpl. exact IH. Qed.

Lemma f64_vsum_nan (l : list F64.float) (acc : F64.float) :
  In F64.nan l -> fold_left F64.add l acc = F64.nan.
Proof.
  revert acc. induction l as [|v l IH]; intros acc Hin; [destruct Hin|].
  simpl. destruct Hin as [-> | Hin].
  - rewrite f64_add_nan_r. apply f64_vsum_acc_nan.
  - now apply IH.
Qed.

Lemma f64_ones_ok (m : Z) :
  (0 <= m)%Z -> F64.Np.ones m = Ok (repeat F64.one (Z.to_nat m)).
Proof.
  intros Hm. unfold F64.Np.ones.
  destruct (Z.ltb_spec m 0); [lia | reflexivity].
Qed.

Lemma f64_convolve_same_long (a v : list F64.float) :
  v <> [] -> length v <= length a ->
  F64.Np.convolve_same a v = Ok (F64.Np.correlate_same a (rev v)).
Proof.
  intros Hv Hl. unfold F64.Np.convolve_same.
  destruct (Nat.ltb_spec (length a) (length v)) as [H|_]; [lia|].
  destruct a as [|a0 a]; [destruct v; [congruence | simpl in Hl; lia]|].
  destruct v; [congruence | reflexivity].
Qed.

Lemma nth_zip_with {A B C} (f : A -> B -> C) (l : list A) (m : list B)
  (k : nat) (da : A) (db : B) (dc : C) :
  k < length l -> k < length m ->
  nth k (zip_with f l m) dc = f (nth k l da) (nth k m db).
Proof.
  revert m k. induction l as [|a l IH]; intros [|b m] k Hl Hm;
    simpl in *; try lia.
  destruct k as [|k]; [reflexivity|]. apply IH; lia.
Qed.

Lemma f64_correlate_same_length (a v : list F64.float) :
  length (F64.Np.correlate_same a v) = length a.
Proof. unfold F64.Np.correlate_same. now rewrite length_map, length_seq. Qed.

(** X6.  In binary64, a not-a-number value in [y] spreads over every output
    whose window contains it: with a kernel of width [w] no longer than [y],
    the smoothed value at [k] is not-a-number whenever the slice
    [y[max(0, k - w/2) : k - w/2 + w]] holds a not-a-number value.  This does
    not depend on the order in which the window is added up.  (The converse
    holds in exact arithmetic, [smooth_nan_spread_exact], but not in
    binary64: [smooth_infinities_give_nan].) *)
Theorem smooth_nan_spread (x y : list F64.float) (padding : Z) (a_range : option Z) :
  let w := Z.to_nat (F64.kernel_width x padding a_range) in
  1 <= w <= length y ->
  exists ysmoo,
    F64.smooth_reward_curve x y padding a_range = Ok (x, ysmoo) /\
    length ysmoo = length y /\
    forall k, k < length y ->
      existsb F64.isnan (slice y (k - w / 2) (k + w - w / 2)) = true ->
      nth k ysmoo F64.zero = F64.nan.
Proof.
  intros w Hw.
  assert (Hwz : (0 <= F64.kernel_width x padding a_range)%Z) by (unfold w in Hw; lia).
  unfold F64.smooth_reward_curve.
  change (padding * halfwidth _ + 1)%Z with (F64.kernel_width x padding a_range).
  rewrite f64_ones_ok by assumption. fold w. cbn [bind].
  assert (Hk : repeat F64.one w <> []) by (destruct w; [lia | discriminate]).
  rewrite f64_convolve_same_long by (rewrite ?repeat_length; (assumption || lia)).
  cbn [bind].
  rewrite f64_convolve_same_long
    by (unfold F64.Np.ones_like; rewrite ?length_map, ?repeat_length; (assumption || lia)).
  cbn [bind].
  eexists. split; [reflexivity|]. split.
  { rewrite zip_with_length, !f64_correlate_same_length.
    unfold F64.Np.ones_like. rewrite length_map. lia. }
  intros k Hk' Hnan.
  rewrite (@nth_zip_with _ _ _ F64.div _ _ k F64.zero F64.zero F64.zero)
    by (rewrite f64_correlate_same_length;
        unfold F64.Np.ones_like; rewrite ?length_map; assumption).
  replace (nth k (F64.Np.correlate_same y (rev (repeat F64.one w))) F64.zero)
    with F64.nan; [reflexivity|].
  symmetry. unfold F64.Np.correlate_same.
  rewrite nth_map_seq by assumption.
  rewrite length_rev, repeat_length.
  unfold F64.Np.vsum. apply f64_vsum_nan.
  apply existsb_exists in Hnan. destruct Hnan as (v & Hin & Hv).
  apply f64_isnan_inv in Hv. subst v.
  rewrite <- (@overlap_picks_any _ y F64.zero w k Hk' ltac:(lia)) in Hin.
  apply in_map_iff in Hin. destruct Hin as (i & Ei & Hi).
  apply in_map_iff. exists i. split; [|exact Hi].
  now rewrite Ei.
Qed.

Lemma smooth_nan_spread_witness :
  let x := [F64.of_int 1; F64.of_int 2; F64.of_int 3; F64.of_int 4] in
  let y := [F64.of_int 1; F64.nan; F64.of_int 3; F64.of_int 4] in
  let w := Z.to_nat (F64.kernel_width x 1 None) in
  exists ysmoo,
    F64.smooth_reward_curve x y 1 None = Ok (x, ysmoo) /\
    length ysmoo = length y /\
    forall k, k < length y ->
      existsb F64.isnan (slice y (k - w / 2) (k + w - w / 2)) = true ->
      nth k ysmoo F64.zero = F64.nan.
Proof.
  apply (@smooth_nan_spread
           [F64.of_int 1; F64.of_int 2; F64.of_int 3; F64.of_int 4]
           [F64.of_int 1; F64.nan; F64.of_int 3; F64.of_int 4] 1%Z None).
  vm_compute. lia.
Defined.

(** In binary64 a window can give not-a-number without holding one: an
    infinity of each sign under a window of width 3. *)
Lemma smooth_infinities_give_nan :
  let x := [F64.of_int 0; F64.of_int 1; F64.of_int 2] in
  let y := [F64.inf; F64.of_int 1; SpecFloat.SFopp F64.inf] in
  existsb F64.isnan y = false /\
  F64.smooth_reward_curve x y 2 None
  = Ok (x, [F64.inf; F64.nan; SpecFloat.SFopp F64.inf]).
Proof.
  split; vm_compute; reflexivity.
Qed.

(** ** Smoothing and alignment together *)

Lemma smoothed_max_length (frames : list frame) (ys : list (list val))
  (padding : Z) (max_range : option Z) :
  Forall2 (fun f y' =>
             smooth_reward_curve (fst f) (snd f) padding max_range = Ok (fst f, y'))
          frames ys ->
  max_length ys
  = fold_right Nat.max 0
      (map (fun f => Nat.max (length (snd f))
                             (Z.to_nat (kernel_width (fst f) padding max_range)))
           frames).
Proof.
  induction 1 as [|f y' frames ys E _ IH]; [reflexivity|].
  unfold max_length in *. simpl. rewrite IH.
  apply smooth_length in E. destruct E as [_ ->]. reflexivity.
Qed.

(** X16.  With smoothing enabled and every run smoothable, the statistics of
    a group are as long as the longest smoothed y, that is the largest of the
    y lengths and kernel widths of its runs, while the x-sequence is as long
    as the longest x column.  The group is drawn exactly when the two lengths
    agree, as they do when every run has as many x as y values and a kernel
    no longer than the run; otherwise [plt.plot] raises [ValueError]. *)
Theorem plot_group_smoothed_shapes (frames : list frame) (smoothing padding : Z)
  (max_range : option Z) :
  (1 < smoothing)%Z -> frames <> [] ->
  Forall (fun f => (1 <= kernel_width (fst f) padding max_range)%Z /\ snd f <> [])
         frames ->
  let len_x := max_length (map fst frames) in
  let len_y :=
    fold_right Nat.max 0
      (map (fun f => Nat.max (length (snd f))
                             (Z.to_nat (kernel_width (fst f) padding max_range)))
           frames) in
  (len_x = len_y ->
   exists c,
     plot_group frames smoothing padding max_range = Ok c /\
     shape (curve_x c) = [len_x] /\
     shape (curve_median c) = [len_y] /\
     shape (curve_q25 c) = [len_y] /\
     shape (curve_q75 c) = [len_y]) /\
  (len_x <> len_y ->
   plot_group frames smoothing padding max_range = Raise ValueError) /\
  (Forall (fun f => length (fst f) = length (snd f) /\
                    Z.to_nat (kernel_width (fst f) padding max_range)
                    <= length (snd f)) frames ->
   len_x = len_y).
Proof.
  intros Hs Hne Hall len_x len_y.
  destruct (@load_loop_enabled smoothing padding max_range frames [] [] Hs Hall)
    as (ys & E & HF).
  assert (Hx : map fst frames <> []) by (destruct frames; [congruence | discriminate]).
  assert (Hy : ys <> []).
  { intros ->. destruct frames; [congruence | inversion HF]. }
  pose proof (@smoothed_max_length frames ys padding max_range HF) as Hly.
  fold len_y in Hly.
  assert (Hlx : max_length (map fst frames) = len_x) by reflexivity.
  assert (Hfr : Forall (fun f => length (fst f) = length (snd f) /\
                         Z.to_nat (kernel_width (fst f) padding max_range)
                         <= length (snd f)) frames -> len_x = len_y).
  { intros Hsame. unfold len_x, len_y, max_length. rewrite map_map. f_equal.
    apply map_ext_in. intros f Hin. rewrite Forall_forall in Hsame.
    destruct (Hsame f Hin) as [El Hw]. lia. }
  clearbody len_x len_y.
  assert (Eg : plot_group frames smoothing padding max_range
               = plot_with_iqr (map arr1 (map fst frames)) (map arr1 ys)).
  { unfold plot_group. now rewrite load_csv_runs_loop, E. }
  rewrite Eg. split; [|split].
  - intros Hsame.
    destruct (@plot_with_iqr_lists (map fst frames) ys Hx Hy ltac:(congruence))
      as (i & x & _ & _ & Ep).
    eexists. split; [exact Ep|].
    cbn [curve_x curve_median curve_q25 curve_q75 shape]. rewrite Hly, Hlx.
    repeat split.
  - intros Hdiff. apply plot_with_iqr_lists_refused; congruence.
  - exact Hfr.
Qed.

Lemma plot_group_smoothed_shapes_witness :
  plot_group [([lit 0; lit 1; lit 2], [lit 5; lit 6; lit 7]); ([lit 0], [lit 7])]
    5 10 None
  = Raise ValueError.
Proof.
  apply (@plot_group_smoothed_shapes
           [([lit 0; lit 1; lit 2], [lit 5; lit 6; lit 7]); ([lit 0], [lit 7])]
           5%Z 10%Z None).
  - lia.
  - discriminate.
  - repeat constructor; (vm_compute; discriminate) || discriminate.
  - vm_compute. discriminate.
Defined.
